(** * Crossword CSP solver ([generate.py]): shallow embedding and properties

    The development embeds [CrosswordCreator] of [generate.py]:
    node consistency, [revise], [ac3], the consistency predicate, the two
    ordering heuristics and the backtracking search.

    Modelling conventions.
    - A Python [set] is a duplicate-free list in iteration order; removing
      elements ([difference_update], [difference]) keeps the relative order
      of the remaining ones.
    - A Python [dict] whose insertion order is observable ([assignment],
      [result]) is an association list in insertion order: assigning to an
      existing key keeps its position, assigning to a new key appends.
    - [self.domains] is created with one entry per crossword variable and
      its key set never changes; it is a function from variables to word
      lists.
    - [self.crossword.overlaps] is a mapping keyed by the ordered pairs of
      distinct crossword variables; a subscript with any other pair raises
      [KeyError].
    - [numpy.unique] compares the values as elements of a fixed-width string
      array, in which NUL characters at the end of a word do not count.
    - A call either returns a value, raises a Python exception, or (for the
      two unbounded constructs, the [while] loop of [ac3] and the recursion
      of [backtrack]) exhausts the step budget of the model. *)

From Stdlib Require Import List Arith Bool Lia String Ascii PeanoNat Permutation.
Import ListNotations.
Local Open Scope nat_scope.
Local Open Scope list_scope.

Set Implicit Arguments.

(** ** Outcomes of a call *)

Inductive pyexn : Type :=
| IndexError
| KeyError
| TypeError.

Inductive res (A : Type) : Type :=
| Ok (a : A)
| Raise (e : pyexn)
| OutOfFuel.

Arguments Ok {A} a.
Arguments Raise {A} e.
Arguments OutOfFuel {A}.

Definition bind {A B : Type} (m : res A) (k : A -> res B) : res B :=
  match m with
  | Ok a => k a
  | Raise e => Raise e
  | OutOfFuel => OutOfFuel
  end.

Notation "x <- m ;; k" := (bind m (fun x => k))
  (at level 61, m at next level, right associativity).
Notation "' p <- m ;; k" := (bind m (fun x => let p := x in k))
  (at level 61, p pattern, m at next level, right associativity).

(** ** The puzzle model (supplied by [crossword.py]) *)

Inductive Direction : Type := ACROSS | DOWN.

(** The class [Variable] of the puzzle model ([Variable] is a reserved word
    here, hence [Var]). *)
Record Var : Type := mkVar {
  var_i : nat;
  var_j : nat;
  direction : Direction;
  length : nat
}.

Definition Direction_eq_dec (a b : Direction) : {a = b} + {a <> b}.
Proof. decide equality. Defined.

Definition Var_eq_dec (a b : Var) : {a = b} + {a <> b}.
Proof. decide equality; try apply Nat.eq_dec; apply Direction_eq_dec. Defined.

Definition var_eqb (a b : Var) : bool :=
  if Var_eq_dec a b then true else false.

Definition word : Type := string.

Definition word_eqb (a b : word) : bool :=
  if string_dec a b then true else false.

Definition arc : Type := (Var * Var)%type.

Record Crossword : Type := mkCrossword {
  variables : list Var;
  words : list word;
  overlaps : Var -> Var -> option (nat * nat)
}.

Definition has_overlap (cw : Crossword) (x y : Var) : bool :=
  match overlaps cw x y with
  | Some _ => true
  | None => false
  end.

(** Modelled from the spec: [Crossword.neighbors] lives in [crossword.py],
    which is not among the sources; section 6 gives it as "variables with a
    defined overlap with v". *)
Definition neighbors (cw : Crossword) (v : Var) : list Var :=
  filter (fun n => has_overlap cw v n) (variables cw).

(** Modelled from the spec: the [overlaps] mapping of [crossword.py] has one
    entry per ordered pair of distinct variables, "no overlap" being an
    explicit entry; its items are enumerated pair by pair. *)
Definition overlaps_items (cw : Crossword) : list (arc * option (nat * nat)) :=
  map (fun p : arc => (p, overlaps cw (fst p) (snd p)))
      (filter (fun p : arc => negb (var_eqb (fst p) (snd p)))
              (list_prod (variables cw) (variables cw))).

(** ** Python containers *)

Section Dict.
Context {K V : Type}.
Variable eqb : K -> K -> bool.

Definition dict : Type := list (K * V).

Fixpoint dict_get (d : dict) (k : K) : option V :=
  match d with
  | [] => None
  | (k', v) :: r => if eqb k' k then Some v else dict_get r k
  end.

Definition dict_mem (d : dict) (k : K) : bool :=
  match dict_get d k with
  | Some _ => true
  | None => false
  end.

(** [d[k] = v] *)
Fixpoint dict_set (d : dict) (k : K) (v : V) : dict :=
  match d with
  | [] => [(k, v)]
  | (k', v') :: r =>
      if eqb k' k then (k', v) :: r else (k', v') :: dict_set r k v
  end.

(** [d.pop(k)] *)
Fixpoint dict_remove (d : dict) (k : K) : dict :=
  match d with
  | [] => []
  | (k', v') :: r => if eqb k' k then r else (k', v') :: dict_remove r k
  end.

Definition dict_pop (d : dict) (k : K) : res dict :=
  if dict_mem d k then Ok (dict_remove d k) else Raise KeyError.

(** [d[k]] *)
Definition dict_getitem (d : dict) (k : K) : res V :=
  match dict_get d k with
  | Some v => Ok v
  | None => Raise KeyError
  end.

Definition keys (d : dict) : list K := map fst d.
Definition values (d : dict) : list V := map snd d.
End Dict.

Definition assignment : Type := list (Var * word).

Definition arc_eqb (p q : arc) : bool :=
  var_eqb (fst p) (fst q) && var_eqb (snd p) (snd q).

(** [self.crossword.overlaps[(x, y)]]: a subscript of the mapping, which
    raises [KeyError] for a pair that is not among its keys (a variable
    paired with itself, or a variable that is not of the puzzle). *)
Definition overlaps_getitem (cw : Crossword) (x y : Var)
  : res (option (nat * nat)) :=
  dict_getitem arc_eqb (overlaps_items cw) (x, y).

Definition domains : Type := Var -> list word.

Definition dom_set (d : domains) (x : Var) (ws : list word) : domains :=
  fun v => if var_eqb v x then ws else d v.

(** [w[k]] on a string with a non-negative index. *)
Definition getitem (w : word) (k : nat) : res ascii :=
  match String.get k w with
  | Some c => Ok c
  | None => Raise IndexError
  end.

Definition mem_word (w : word) (l : list word) : bool :=
  existsb (word_eqb w) l.

(** [s.difference_update(l)] *)
Definition difference_update (s l : list word) : list word :=
  filter (fun w => negb (mem_word w l)) s.

(** ** [CrosswordCreator] *)

Section Creator.
Variable cw : Crossword.

(** [__init__]: every variable starts with a copy of the word set. *)
Definition init_domains : domains := fun _ => words cw.

(** *** [enforce_node_consistency] *)

Definition node_to_be_removed (var : Var) (ws : list word) : list word :=
  filter (fun w => negb (Nat.eqb (String.length w) (length var))) ws.

Definition enforce_node_consistency (d : domains) : domains :=
  fun var => difference_update (d var) (node_to_be_removed var (d var)).

(** *** [revise] *)

(** The inner loop [for w2 in word_v2] with its [break]. *)
Fixpoint revise_found (i j : nat) (w1 : word) (ws2 : list word) : res bool :=
  match ws2 with
  | [] => Ok false
  | w2 :: r =>
      c1 <- getitem w1 i ;;
      c2 <- getitem w2 j ;;
      if Ascii.eqb c1 c2 then Ok true else revise_found i j w1 r
  end.

(** The outer loop [for w1 in word_v1], collecting [to_removed]. *)
Fixpoint revise_to_removed (i j : nat) (ws1 ws2 : list word) : res (list word) :=
  match ws1 with
  | [] => Ok []
  | w1 :: r =>
      found <- revise_found i j w1 ws2 ;;
      rest <- revise_to_removed i j r ws2 ;;
      Ok (if found then rest else w1 :: rest)
  end.

Definition revise (d : domains) (x y : Var) : res (bool * domains) :=
  overlap <- overlaps_getitem cw x y ;;
  match overlap with
  | Some (i, j) =>
      to_removed <- revise_to_removed i j (d x) (d y) ;;
      Ok (negb (Nat.eqb (List.length to_removed) 0),
          dom_set d x (difference_update (d x) to_removed))
  | None => Ok (false, d)
  end.

(** *** [ac3] *)

(** The default worklist: every pair whose overlap is not [None]. *)
Definition initial_arcs : list arc :=
  map fst (filter (fun e => match snd e with Some _ => true | None => false end)
                  (overlaps_items cw)).

(** The arcs appended after a revision of [x] through the arc [(x, y)]. *)
Definition requeue (x y : Var) : list arc :=
  map (fun var => (var, x))
      (filter (fun var => negb (var_eqb var y)) (neighbors cw x)).

(** The [while] loop.  The function falls off its end when the worklist is
    empty, so a call that does not report [False] returns [None]. *)
Fixpoint ac3_loop (fuel : nat) (d : domains) (arcs : list arc)
  : res (option bool * domains) :=
  match arcs with
  | [] => Ok (None, d)
  | (x, y) :: rest =>
      match fuel with
      | O => OutOfFuel
      | S fuel' =>
          '(revised, d') <- revise d x y ;;
          if revised then
            if Nat.eqb (List.length (d' x)) 0 then Ok (Some false, d')
            else ac3_loop fuel' d' (rest ++ requeue x y)
          else ac3_loop fuel' d' rest
      end
  end.

Definition total_size (d : domains) : nat :=
  list_sum (map (fun v => List.length (d v)) (variables cw)).

(** A step budget that the loop never exceeds on a well-formed puzzle: each
    iteration removes an arc, and arcs are only added when a domain
    shrinks. *)
Definition ac3_budget (d : domains) (arcs : list arc) : nat :=
  S (List.length arcs + List.length (variables cw) * total_size d).

Definition ac3 (d : domains) (arcs : option (list arc))
  : res (option bool * domains) :=
  let arcs := match arcs with
              | None => initial_arcs
              | Some l => l
              end in
  ac3_loop (ac3_budget d arcs) d arcs.

(** *** [assignment_complete] *)

Definition unassigned (a : assignment) : list Var :=
  filter (fun v => negb (dict_mem var_eqb a v)) (variables cw).

Definition assignment_complete (a : assignment) : bool :=
  match unassigned a with
  | [] => true
  | _ :: _ => false
  end.

(** *** [consistent] *)

(** A word as an element of the numpy array that [numpy.unique] builds from
    the list of values: the array has fixed-width string cells padded with
    NUL characters, so the NUL characters at the end of a word are not part
    of the element. *)
Fixpoint np_str (w : word) : word :=
  match w with
  | EmptyString => EmptyString
  | String c r =>
      match np_str r with
      | EmptyString =>
          if Ascii.eqb c Ascii.zero then EmptyString else String c EmptyString
      | r' => String c r'
      end
  end.

(** The [counts] array of [numpy.unique(values, return_counts=True)]: one
    entry per distinct element of the array.  (numpy lists the distinct
    elements in sorted order; only the multiset of counts is inspected.) *)
Definition unique_counts (vs : list word) : list nat :=
  let arr := map np_str vs in
  map (count_occ string_dec arr) (nodup string_dec arr).

(** The loop [for n in self.crossword.neighbors(var)]; [Ok false] stands
    for the [return False] inside it, [Ok true] for falling through. *)
Fixpoint consistent_neighbors (a : assignment) (var : Var) (val : word)
         (ns : list Var) : res bool :=
  match ns with
  | [] => Ok true
  | n :: rest =>
      match dict_get var_eqb a n with
      | Some w2 =>
          match overlaps cw var n with
          | Some (i, j) =>
              c1 <- getitem val i ;;
              c2 <- getitem w2 j ;;
              if Ascii.eqb c1 c2 then consistent_neighbors a var val rest
              else Ok false
          | None => Raise TypeError
          end
      | None => consistent_neighbors a var val rest
      end
  end.

(** The loop [for var, val in assignment.items()]. *)
Fixpoint consistent_items (a : assignment) (items : list (Var * word))
  : res bool :=
  match items with
  | [] => Ok true
  | (var, val) :: rest =>
      if negb (Nat.eqb (String.length val) (length var)) then Ok false
      else
        ok <- consistent_neighbors a var val (neighbors cw var) ;;
        if ok then consistent_items a rest else Ok false
  end.

Definition consistent (a : assignment) : res bool :=
  if negb (forallb (fun c => Nat.eqb c 1) (unique_counts (values a)))
  then Ok false
  else consistent_items a a.

(** *** [order_domain_values] *)

(** The loop [for w2 in words_neighbor] for one [w1]. *)
Fixpoint count_eliminated (overlap : option (nat * nat)) (w1 : word)
         (ws2 : list word) (nb_eliminated : nat) (result : list (word * nat))
  : res (list (word * nat)) :=
  match ws2 with
  | [] => Ok result
  | w2 :: rest =>
      match overlap with
      | Some (i, j) =>
          c1 <- getitem w1 i ;;
          c2 <- getitem w2 j ;;
          if negb (Ascii.eqb c1 c2)
          then count_eliminated overlap w1 rest (S nb_eliminated)
                                (dict_set word_eqb result w1 (S nb_eliminated))
          else count_eliminated overlap w1 rest nb_eliminated result
      | None => Raise TypeError
      end
  end.

(** The loop [for w1 in word_var] for one neighbor. *)
Fixpoint eliminated_by (overlap : option (nat * nat)) (ws1 ws2 : list word)
         (result : list (word * nat)) : res (list (word * nat)) :=
  match ws1 with
  | [] => Ok result
  | w1 :: rest =>
      result' <- count_eliminated overlap w1 ws2 0 result ;;
      eliminated_by overlap rest ws2 result'
  end.

(** The loop [for n in self.crossword.neighbors(var)]. *)
Fixpoint eliminated_all (d : domains) (var : Var) (a : assignment)
         (ns : list Var) (result : list (word * nat))
  : res (list (word * nat)) :=
  match ns with
  | [] => Ok result
  | n :: rest =>
      if negb (dict_mem var_eqb a n) then
        result' <- eliminated_by (overlaps cw var n) (d var) (d n) result ;;
        eliminated_all d var a rest result'
      else eliminated_all d var a rest result
  end.

(** [sorted(l, key=result.__getitem__)]: the keys are computed first, then
    the list is sorted stably. *)
Fixpoint sort_keys (result : list (word * nat)) (ws : list word)
  : res (list (nat * word)) :=
  match ws with
  | [] => Ok []
  | w :: rest =>
      k <- dict_getitem word_eqb result w ;;
      ks <- sort_keys result rest ;;
      Ok ((k, w) :: ks)
  end.

Fixpoint insert_by_key (x : nat * word) (l : list (nat * word))
  : list (nat * word) :=
  match l with
  | [] => [x]
  | y :: r => if fst x <=? fst y then x :: y :: r else y :: insert_by_key x r
  end.

Fixpoint sort_by_key (l : list (nat * word)) : list (nat * word) :=
  match l with
  | [] => []
  | x :: r => insert_by_key x (sort_by_key r)
  end.

Definition sorted (ws : list word) (result : list (word * nat))
  : res (list word) :=
  ks <- sort_keys result ws ;;
  Ok (map snd (sort_by_key ks)).

Definition order_domain_values (d : domains) (var : Var) (a : assignment)
  : res (list word) :=
  result <- eliminated_all d var a (neighbors cw var) [] ;;
  if Nat.eqb (List.length result) 0 then Ok (d var)
  else sorted (d var) result.

(** *** [select_unassigned_variable] *)

(** The loop computing the smallest domain size; [None] is [math.inf]. *)
Fixpoint fewest_values (l : list (Var * nat)) (len : option nat) : option nat :=
  match l with
  | [] => len
  | (_, n) :: rest =>
      match len with
      | None => fewest_values rest (Some n)
      | Some m => fewest_values rest (if n <? m then Some n else Some m)
      end
  end.

Definition list_getitem {A : Type} (l : list A) (k : nat) : res A :=
  match nth_error l k with
  | Some x => Ok x
  | None => Raise IndexError
  end.

(** The loop [for i in range(1, len(v_candidate))] of the degree
    tie-break, on the state [(n, index)]. *)
Fixpoint highest_degree (v_candidate : list Var) (idxs : list nat)
         (n index : nat) : res nat :=
  match idxs with
  | [] => Ok index
  | i :: rest =>
      v <- list_getitem v_candidate i ;;
      if n <? List.length (neighbors cw v)
      then highest_degree v_candidate rest (List.length (neighbors cw v)) i
      else highest_degree v_candidate rest n index
  end.

Definition select_unassigned_variable (d : domains) (a : assignment)
  : res Var :=
  let uv := unassigned a in
  let uv_sorted := map (fun var => (var, List.length (d var))) uv in
  let len := fewest_values uv_sorted None in
  let v_candidate :=
    map fst (filter (fun e => match len with
                              | Some m => Nat.eqb (snd e) m
                              | None => false
                              end) uv_sorted) in
  if negb (Nat.eqb (List.length v_candidate) 1) then
    v0 <- list_getitem v_candidate 0 ;;
    index <- highest_degree v_candidate
               (seq 1 (List.length v_candidate - 1))
               (List.length (neighbors cw v0)) 0 ;;
    list_getitem v_candidate index
  else list_getitem v_candidate 0.

(** *** [backtrack] *)

(** The loop [for v in ordered_value_var].  The assignment is one shared
    dictionary: the state after the loop is returned next to the result,
    and a returned assignment is that same dictionary. *)
Fixpoint try_values
         (recurse : assignment -> res (option assignment * assignment))
         (var : Var) (vs : list word) (a : assignment)
  : res (option assignment * assignment) :=
  match vs with
  | [] => Ok (None, a)
  | v :: rest =>
      let a1 := dict_set var_eqb a var v in
      ok <- consistent a1 ;;
      if ok then
        '(result, a2) <- recurse a1 ;;
        match result with
        | Some r => Ok (Some r, a2)
        | None =>
            a3 <- dict_pop var_eqb a2 var ;;
            try_values recurse var rest a3
        end
      else try_values recurse var rest a1
  end.

Fixpoint backtrack_rec (d : domains) (fuel : nat) (a : assignment)
  : res (option assignment * assignment) :=
  match fuel with
  | O => OutOfFuel
  | S fuel' =>
      if assignment_complete a then Ok (Some a, a)
      else
        var <- select_unassigned_variable d a ;;
        ordered_value_var <- order_domain_values d var a ;;
        try_values (backtrack_rec d fuel') var ordered_value_var a
  end.

(** Every recursive call is made on an assignment with one more crossword
    variable, so the depth never exceeds the number of variables. *)
Definition backtrack (d : domains) (a : assignment)
  : res (option assignment * assignment) :=
  backtrack_rec d (S (List.length (variables cw))) a.

(** *** [solve] *)

Definition solve : res (option assignment) :=
  let d1 := enforce_node_consistency init_domains in
  '(_, d2) <- ac3 d1 None ;;
  '(result, _) <- backtrack d2 [] ;;
  Ok result.

End Creator.

(** ** Well-formed puzzles and the properties of domain stores *)

Fixpoint nodupb {A : Type} (eqb : A -> A -> bool) (l : list A) : bool :=
  match l with
  | [] => true
  | x :: r => negb (existsb (eqb x) r) && nodupb eqb r
  end.

(** The overlap of [(x, y)], when there is one, lies inside both slots and is
    the overlap of [(y, x)] with the indices swapped; no variable overlaps
    itself. *)
Definition overlap_ok (cw : Crossword) (x y : Var) : bool :=
  match overlaps cw x y with
  | None => true
  | Some (i, j) =>
      negb (var_eqb x y) && (i <? length x) && (j <? length y) &&
      match overlaps cw y x with
      | Some (j', i') => Nat.eqb i i' && Nat.eqb j j'
      | None => false
      end
  end.

(** What the puzzle model guarantees about a puzzle it hands to the solver:
    variables and words are sets, overlaps are symmetric and in range. *)
Definition well_formed (cw : Crossword) : bool :=
  nodupb var_eqb (variables cw) && nodupb word_eqb (words cw) &&
  forallb (fun x => forallb (overlap_ok cw x) (variables cw)) (variables cw).

(** The [i]-th letter of [w] and the [j]-th letter of [w'] exist and are
    equal. *)
Definition agree (i j : nat) (w w' : word) : Prop :=
  exists c, String.get i w = Some c /\ String.get j w' = Some c.

Section StoreProperties.
Variable cw : Crossword.

(** Node consistency of a domain store. *)
Definition node_consistent (d : domains) : Prop :=
  forall v w, In w (d v) -> String.length w = length v.

(** Every word of [d x] has a partner in [d y] at the overlap of [(x, y)]. *)
Definition arc_supported (d : domains) (x y : Var) : Prop :=
  forall i j, overlaps cw x y = Some (i, j) ->
  forall w, In w (d x) -> exists w', In w' (d y) /\ agree i j w w'.

Definition arc_consistent (d : domains) : Prop :=
  forall x y, In x (variables cw) -> In y (variables cw) ->
              arc_supported d x y.

(** The worklist only holds arcs of the puzzle. *)
Definition arcs_ok (arcs : list arc) : Prop :=
  forall x y, In (x, y) arcs ->
    In x (variables cw) /\ In y (variables cw) /\ has_overlap cw x y = true.

(** The invariant of the [ac3] loop: an arc is waiting in the worklist or
    is supported. *)
Definition ac3_inv (d : domains) (arcs : list arc) : Prop :=
  forall x y, In x (variables cw) -> In y (variables cw) ->
              In (x, y) arcs \/ arc_supported d x y.
End StoreProperties.

(** ** The consistency predicate, as the specification words it *)

Section SpecPredicates.
Variable cw : Crossword.

(** "All assigned words are pairwise distinct; each assigned word's length
    matches its variable's length; and for every pair of assigned
    neighboring variables, their overlap letters agree." *)
Definition is_consistent (a : assignment) : Prop :=
  NoDup (values a) /\
  (forall v w, In (v, w) a -> String.length w = length v) /\
  (forall v w n w' i j,
      In (v, w) a -> In (n, w') a -> In n (neighbors cw v) ->
      overlaps cw v n = Some (i, j) -> agree i j w w').

(** "A complete assignment has exactly one word per variable in the full
    variable set." *)
Definition is_complete (a : assignment) : Prop :=
  NoDup (keys a) /\
  (forall v, In v (keys a) <-> In v (variables cw)).

(** The assignments that the search builds: a dictionary on crossword
    variables whose words come from the domains. *)
Definition assignment_ok (d : domains) (a : assignment) : Prop :=
  NoDup (keys a) /\
  (forall v w, In (v, w) a -> In v (variables cw) /\ In w (d v)).
End SpecPredicates.

(** ** The least-constraining-value measure, as the specification words it *)

(** [w2] "disagrees with [w1] at the overlap position". *)
Definition disagree (i j : nat) (w1 w2 : word) : bool :=
  match String.get i w1, String.get j w2 with
  | Some c1, Some c2 => negb (Ascii.eqb c1 c2)
  | _, _ => false
  end.

Section Elimination.
Variable cw : Crossword.
Variable d : domains.

(** "How many neighbor-domain words disagree with w1 at the overlap
    position", for one neighbor. *)
Definition eliminated_in (var : Var) (w1 : word) (n : Var) : nat :=
  match overlaps cw var n with
  | Some (i, j) => List.length (filter (disagree i j w1) (d n))
  | None => 0
  end.

(** "... summed over all unassigned neighbors." *)
Definition elimination_count (var : Var) (a : assignment) (w1 : word) : nat :=
  list_sum (map (eliminated_in var w1)
                (filter (fun n => negb (dict_mem var_eqb a n))
                        (neighbors cw var))).

(** "Sorted ascending by this elimination count." *)
Fixpoint ascending (key : word -> nat) (l : list word) : bool :=
  match l with
  | [] => true
  | w :: r =>
      match r with
      | [] => true
      | w' :: _ => (key w <=? key w') && ascending key r
      end
  end.
End Elimination.

(** ** What a call of [backtrack] establishes *)

Section SearchPredicates.
Variable cw : Crossword.
Variable d : domains.

(** The assignment is a dictionary on crossword variables. *)
Definition dict_ok (a : assignment) : Prop :=
  NoDup (keys a) /\ incl (keys a) (variables cw).

(** When a call returns, the dictionary is still a dictionary on crossword
    variables, and a returned assignment is the shared dictionary itself,
    complete, and either the assignment the call was given or one that
    passed [consistent]. *)
Definition returns_sound (a : assignment)
           (out : option assignment * assignment) : Prop :=
  dict_ok (snd out) /\
  forall s, fst out = Some s ->
    s = snd out /\ assignment_complete cw s = true /\
    (s = a \/ consistent cw s = Ok true).

(** The bindings present at the call are still present when it returns,
    and all words come from the domains. *)
Definition returns_ok (a : assignment)
           (out : option assignment * assignment) : Prop :=
  assignment_ok cw d (snd out) /\ incl (keys a) (keys (snd out)).
End SearchPredicates.

(** ** Puzzles built from slot geometry, and the puzzles used as examples *)

(** The cells of a slot, as [letter_grid] walks them. *)
Definition cells (v : Var) : list (nat * nat) :=
  map (fun k => (var_i v + match direction v with DOWN => k | ACROSS => 0 end,
                 var_j v + match direction v with ACROSS => k | DOWN => 0 end))
      (seq 0 (length v)).

Definition cell_eqb (c c' : nat * nat) : bool :=
  Nat.eqb (fst c) (fst c') && Nat.eqb (snd c) (snd c').

Fixpoint cell_index (c : nat * nat) (l : list (nat * nat)) : option nat :=
  match l with
  | [] => None
  | c' :: r =>
      if cell_eqb c' c then Some 0
      else match cell_index c r with
           | Some k => Some (S k)
           | None => None
           end
  end.

Fixpoint first_shared (k : nat) (cs1 cs2 : list (nat * nat))
  : option (nat * nat) :=
  match cs1 with
  | [] => None
  | c :: r =>
      match cell_index c cs2 with
      | Some j => Some (k, j)
      | None => first_shared (S k) r cs2
      end
  end.

(** Modelled from the spec: the overlap of two distinct variables whose cell
    spans intersect is the pair of positions of the shared cell in the two
    spans (section 3, "Overlap"); [crossword.py], which computes it, is not
    among the sources. *)
Definition geometry_overlap (v1 v2 : Var) : option (nat * nat) :=
  if var_eqb v1 v2 then None else first_shared 0 (cells v1) (cells v2).

Definition crossword_of (vars : list Var) (ws : list word) : Crossword :=
  mkCrossword vars ws geometry_overlap.

(** The domain store with which [solve] starts its search. *)
Definition pruned_domains (cw : Crossword) : domains :=
  match ac3 cw (enforce_node_consistency (init_domains cw)) None with
  | Ok (_, d) => d
  | _ => enforce_node_consistency (init_domains cw)
  end.

Module Examples.

(** Two crossing slots of length 3, the third letter of the first being
    the first letter of the second, with the words CAT, TAR, DOG. *)
Definition x : Var := mkVar 0 0 ACROSS 3.
Definition y : Var := mkVar 0 2 DOWN 3.
Definition cw_cat : Crossword :=
  crossword_of [x; y] ["CAT"; "TAR"; "DOG"]%string.

(** The store of [cw_cat] after a second [ac3] on the store that [solve]
    starts its search with. *)
Definition d_rerun : domains :=
  match ac3 cw_cat (pruned_domains cw_cat) None with
  | Ok (_, d) => d
  | _ => pruned_domains cw_cat
  end.

(** The same slots with a word that is too short for them. *)
Definition cw_ax : Crossword :=
  crossword_of [x; y] ["CAT"; "TAR"; "AX"]%string.

(** Two crossing slots of length 3, the second letter of the first being
    the first letter of the second. *)
Definition u : Var := mkVar 0 1 DOWN 3.
Definition cw_stale : Crossword :=
  crossword_of [x; u] ["DEF"; "AAB"; "CDE"]%string.

(** The same puzzle with its sets enumerated in another order. *)
Definition cw_stale' : Crossword :=
  crossword_of [u; x] ["CDE"; "AAB"; "DEF"]%string.

(** A slot of length 3 crossed at its two ends by slots of length 2. *)
Definition p : Var := mkVar 0 0 DOWN 2.
Definition q : Var := mkVar 0 2 DOWN 2.
Definition lcv_words : list word :=
  ["APD"; "BPE"; "CPF";
   "AA"; "AB"; "BA"; "BB"; "BC"; "CA";
   "DA"; "DB"; "DC"; "EA"; "FA"; "FB"]%string.
Definition cw_lcv : Crossword := crossword_of [x; p; q] lcv_words.
Definition cw_lcv' : Crossword := crossword_of [x; q; p] lcv_words.

End Examples.

(** ** [letter_grid] *)

(** The 2D array of letters: [None] for a cell without letter. *)
Definition grid : Type := list (list (option ascii)).

(** [l[k] = x] on a list. *)
Fixpoint list_setitem {A : Type} (l : list A) (k : nat) (x : A)
  : res (list A) :=
  match l, k with
  | [], _ => Raise IndexError
  | _ :: r, O => Ok (x :: r)
  | y :: r, S k' => r' <- list_setitem r k' x ;; Ok (y :: r')
  end.

(** [letters[i][j] = c]: the rows are separate lists. *)
Definition grid_setitem (letters : grid) (i j : nat) (c : ascii) : res grid :=
  row <- list_getitem letters i ;;
  row' <- list_setitem row j (Some c) ;;
  list_setitem letters i row'.

(** The cell of the [k]-th letter of a variable's word. *)
Definition cell_of (variable : Var) (k : nat) : nat * nat :=
  (var_i variable + match direction variable with DOWN => k | ACROSS => 0 end,
   var_j variable + match direction variable with ACROSS => k | DOWN => 0 end).

(** The loop [for k in range(len(word))]. *)
Fixpoint place_word (variable : Var) (wd : word) (ks : list nat)
         (letters : grid) : res grid :=
  match ks with
  | [] => Ok letters
  | k :: rest =>
      c <- getitem wd k ;;
      letters' <- grid_setitem letters (fst (cell_of variable k))
                               (snd (cell_of variable k)) c ;;
      place_word variable wd rest letters'
  end.

(** The loop [for variable, word in assignment.items()]. *)
Fixpoint place_words (items : list (Var * word)) (letters : grid) : res grid :=
  match items with
  | [] => Ok letters
  | (variable, wd) :: rest =>
      letters' <- place_word variable wd (seq 0 (String.length wd)) letters ;;
      place_words rest letters'
  end.

(** [letter_grid]; [height] and [width] are the attributes of the crossword
    that [crossword.py] supplies. *)
Definition letter_grid (height width : nat) (a : assignment) : res grid :=
  place_words a (repeat (repeat None width) height).

(** Reading the grid, and what the assignment writes into it. *)
Definition grid_get (g : grid) (c : nat * nat) : option (option ascii) :=
  match nth_error g (fst c) with
  | Some row => nth_error row (snd c)
  | None => None
  end.

Definition in_grid (height width : nat) (c : nat * nat) : Prop :=
  fst c < height /\ snd c < width.

(** The grid has [height] rows of [width] cells. *)
Definition grid_shape (height width : nat) (g : grid) : Prop :=
  List.length g = height /\ forall row, In row g -> List.length row = width.

(** The assignment puts the letter [ch] on the cell [c]. *)
Definition letter_at (a : assignment) (c : nat * nat) (ch : ascii) : Prop :=
  exists v wd k, In (v, wd) a /\ String.get k wd = Some ch /\ cell_of v k = c.

(** The writes of [letter_grid], in the order in which they are made. *)
Definition word_writes (v : Var) (wd : word) (ks : list nat)
  : list ((nat * nat) * ascii) :=
  flat_map (fun k => match String.get k wd with
                     | Some ch => [(cell_of v k, ch)]
                     | None => []
                     end) ks.

Definition writes (a : assignment) : list ((nat * nat) * ascii) :=
  flat_map (fun e => word_writes (fst e) (snd e)
                       (seq 0 (String.length (snd e)))) a.

Fixpoint apply_writes (ws : list ((nat * nat) * ascii)) (g : grid)
  : res grid :=
  match ws with
  | [] => Ok g
  | (c, ch) :: r =>
      g' <- grid_setitem g (fst c) (snd c) ch ;;
      apply_writes r g'
  end.

Fixpoint last_write (ws : list ((nat * nat) * ascii)) (c : nat * nat)
  : option ascii :=
  match ws with
  | [] => None
  | (c', ch) :: r =>
      match last_write r c with
      | Some x => Some x
      | None => if cell_eqb c' c then Some ch else None
      end
  end.

(** ** Further notions used to state properties *)

(** The last character of the word is NUL. *)
Fixpoint trailing_NUL (w : word) : bool :=
  match w with
  | EmptyString => false
  | String c r =>
      match r with
      | EmptyString => Ascii.eqb c Ascii.zero
      | String _ _ => trailing_NUL r
      end
  end.


(** Every binding of [a] is a binding of [a'], with the same word. *)
Definition kept (a a' : assignment) : Prop :=
  forall v w, dict_get var_eqb a v = Some w -> dict_get var_eqb a' v = Some w.

(** ** Further example puzzles and stores *)

Module Cases.
Import Examples.

(** The slots of [cw_cat] with two words that fit nowhere together. *)
Definition cw_none : Crossword :=
  crossword_of [x; y] ["ABC"; "XYZ"]%string.

(** One slot of length 3 and only words of length 2. *)
Definition cw_short : Crossword :=
  crossword_of [x] ["AX"; "TO"]%string.

(** The store of [cw_cat] after node consistency. *)
Definition d_cat : domains := enforce_node_consistency (init_domains cw_cat).

(** A store in which CAT eliminates nothing and DOG eliminates TAR. *)
Definition d_mixed : domains :=
  dom_set (dom_set d_cat x ["CAT"; "DOG"]%string) y ["TAR"%string].

Definition a_cat : assignment := [(x, "CAT"%string); (y, "TAR"%string)].

(** The store after [revise(x, y)] on [d_cat]. *)
Definition d_revised : domains :=
  match revise cw_cat d_cat x y with
  | Ok (_, d) => d
  | _ => d_cat
  end.

End Cases.

(** * Properties *)

Unset Implicit Arguments.

(** ** Equality tests and containers *)

Lemma var_eqb_eq (a b : Var) : var_eqb a b = true <-> a = b.
Proof. unfold var_eqb. destruct (Var_eq_dec a b); split; congruence. Qed.

Lemma var_eqb_refl (a : Var) : var_eqb a a = true.
Proof. now apply var_eqb_eq. Qed.

Lemma var_eqb_neq (a b : Var) : var_eqb a b = false <-> a <> b.
Proof. unfold var_eqb. destruct (Var_eq_dec a b); split; congruence. Qed.

Lemma word_eqb_eq (a b : word) : word_eqb a b = true <-> a = b.
Proof. unfold word_eqb. destruct (string_dec a b); split; congruence. Qed.

Lemma word_eqb_refl (a : word) : word_eqb a a = true.
Proof. now apply word_eqb_eq. Qed.

Lemma mem_word_In (w : word) (l : list word) : mem_word w l = true <-> In w l.
Proof.
  unfold mem_word. rewrite existsb_exists. split.
  - intros (x & Hx & E). apply word_eqb_eq in E. now subst.
  - intros H. exists w. split; [assumption | apply word_eqb_refl].
Qed.

Lemma difference_update_In (s l : list word) (w : word) :
  In w (difference_update s l) <-> In w s /\ ~ In w l.
Proof.
  unfold difference_update. rewrite filter_In, negb_true_iff.
  rewrite <- (mem_word_In w l). destruct (mem_word w l); intuition congruence.
Qed.

Lemma difference_update_nil (s : list word) : difference_update s [] = s.
Proof.
  unfold difference_update. induction s as [|w s IH]; [reflexivity|].
  cbn [filter]. change (mem_word w []) with false. cbn [negb]. now f_equal.
Qed.

Lemma filter_length_lt {A : Type} (f : A -> bool) (l : list A) (x : A) :
  In x l -> f x = false -> List.length (filter f l) < List.length l.
Proof.
  induction l as [|y l IH]; simpl; [tauto|].
  intros [->|Hin] Hf.
  - rewrite Hf. pose proof (filter_length_le f l). lia.
  - specialize (IH Hin Hf). destruct (f y); simpl; lia.
Qed.

Lemma dom_set_same (d : domains) (x : Var) (ws : list word) :
  dom_set d x ws x = ws.
Proof. unfold dom_set. now rewrite var_eqb_refl. Qed.

Lemma dom_set_other (d : domains) (x v : Var) (ws : list word) :
  v <> x -> dom_set d x ws v = d v.
Proof. unfold dom_set. intros H. apply var_eqb_neq in H. now rewrite H. Qed.

Lemma bind_Ok {A B : Type} (m : res A) (k : A -> res B) (b : B) :
  bind m k = Ok b -> exists a, m = Ok a /\ k a = Ok b.
Proof. destruct m; simpl; intros H; try discriminate. eauto. Qed.

Lemma getitem_Ok (w : word) (k : nat) (c : ascii) :
  getitem w k = Ok c <-> String.get k w = Some c.
Proof. unfold getitem. destruct (String.get k w); split; congruence. Qed.

Lemma get_lt (w : word) (k : nat) :
  k < String.length w -> exists c, String.get k w = Some c.
Proof.
  revert k. induction w as [|a w IH]; simpl; intros k H; [lia|].
  destruct k as [|k]; [eauto|]. apply IH. lia.
Qed.

Lemma getitem_lt (w : word) (k : nat) :
  k < String.length w -> exists c, getitem w k = Ok c.
Proof.
  intros H. destruct (get_lt w k H) as [c Hc]. exists c. now apply getitem_Ok.
Qed.

(** Bringing a successful monadic computation into its steps. *)
Ltac inv_bind H :=
  let x := fresh "x" in
  let Hx := fresh "Hx" in
  apply bind_Ok in H; destruct H as (x & Hx & H).

Section DictFacts.
Context {K V : Type}.
Variable eqb : K -> K -> bool.
Hypothesis eqb_eq : forall a b, eqb a b = true <-> a = b.

Lemma eqb_refl' (a : K) : eqb a a = true.
Proof. now apply eqb_eq. Qed.

Lemma eqb_false (a b : K) : eqb a b = false <-> a <> b.
Proof.
  split.
  - intros H E. apply eqb_eq in E. congruence.
  - intros H. destruct (eqb a b) eqn:E; [|reflexivity].
    apply eqb_eq in E. contradiction.
Qed.

Lemma dict_get_In (d : list (K * V)) (k : K) (v : V) :
  dict_get eqb d k = Some v -> In (k, v) d.
Proof.
  induction d as [|[k' v'] d IH]; simpl; [discriminate|].
  destruct (eqb k' k) eqn:E.
  - apply eqb_eq in E. intros [= ->]. left. now subst.
  - intros H. right. auto.
Qed.

Lemma dict_get_None (d : list (K * V)) (k : K) :
  dict_get eqb d k = None <-> ~ In k (keys d).
Proof.
  induction d as [|[k' v'] d IH]; simpl; [tauto|].
  destruct (eqb k' k) eqn:E.
  - apply eqb_eq in E. split; [discriminate | intros H; exfalso; auto].
  - apply eqb_false in E. rewrite IH. tauto.
Qed.

Lemma dict_mem_In (d : list (K * V)) (k : K) :
  dict_mem eqb d k = true <-> In k (keys d).
Proof.
  unfold dict_mem. destruct (dict_get eqb d k) eqn:E.
  - split; [intros _ | reflexivity].
    apply dict_get_In in E. apply (in_map fst) in E. exact E.
  - apply dict_get_None in E. split; [discriminate | contradiction].
Qed.

Lemma dict_mem_false (d : list (K * V)) (k : K) :
  dict_mem eqb d k = false <-> ~ In k (keys d).
Proof.
  rewrite <- dict_mem_In. destruct (dict_mem eqb d k); intuition congruence.
Qed.

Lemma In_dict_get (d : list (K * V)) (k : K) (v : V) :
  NoDup (keys d) -> In (k, v) d -> dict_get eqb d k = Some v.
Proof.
  induction d as [|[k' v'] d IH]; simpl; [tauto|].
  intros Hnd [E|Hin].
  - injection E as -> ->. now rewrite eqb_refl'.
  - inversion Hnd as [|? ? Hk' Hnd']; subst.
    destruct (eqb k' k) eqn:E.
    + apply eqb_eq in E. subst. exfalso. apply Hk'.
      apply (in_map fst) in Hin. exact Hin.
    + auto.
Qed.

Lemma dict_set_In_keys (d : list (K * V)) (k k0 : K) (v : V) :
  In k0 (keys (dict_set eqb d k v)) <-> k0 = k \/ In k0 (keys d).
Proof.
  induction d as [|[k' v'] d IH]; simpl; [intuition|].
  destruct (eqb k' k) eqn:E; simpl.
  - apply eqb_eq in E. subst. intuition.
  - rewrite IH. intuition.
Qed.

Lemma dict_set_NoDup (d : list (K * V)) (k : K) (v : V) :
  NoDup (keys d) -> NoDup (keys (dict_set eqb d k v)).
Proof.
  induction d as [|[k' v'] d IH]; simpl; intros H.
  - constructor; [simpl; tauto | constructor].
  - inversion H as [|? ? Hk' Hnd]; subst.
    destruct (eqb k' k) eqn:E; simpl.
    + constructor; assumption.
    + constructor; [|auto]. rewrite dict_set_In_keys.
      apply eqb_false in E. intros [->|Hin]; auto.
Qed.

Lemma dict_remove_In_keys (d : list (K * V)) (k k0 : K) :
  NoDup (keys d) ->
  (In k0 (keys (dict_remove eqb d k)) <-> k0 <> k /\ In k0 (keys d)).
Proof.
  induction d as [|[k' v'] d IH]; simpl; intros H; [tauto|].
  inversion H as [|? ? Hk' Hnd]; subst.
  destruct (eqb k' k) eqn:E; simpl.
  - apply eqb_eq in E. subst. split.
    + intros Hin. split; [congruence | auto].
    + intros [Hne [->|Hin]]; [congruence | assumption].
  - apply eqb_false in E. rewrite IH by assumption. split.
    + intros [->|[? ?]]; auto.
    + intros [Hne [->|Hin]]; auto.
Qed.

Lemma dict_remove_NoDup (d : list (K * V)) (k : K) :
  NoDup (keys d) -> NoDup (keys (dict_remove eqb d k)).
Proof.
  induction d as [|[k' v'] d IH]; simpl; intros H; [constructor|].
  inversion H as [|? ? Hk' Hnd]; subst.
  destruct (eqb k' k); simpl; [assumption|].
  constructor; [|auto]. rewrite dict_remove_In_keys by assumption. tauto.
Qed.

End DictFacts.

(** ** Well-formedness, unfolded *)

Lemma nodupb_NoDup {A : Type} (eqb : A -> A -> bool) (l : list A) :
  (forall a b, eqb a b = true <-> a = b) -> nodupb eqb l = true -> NoDup l.
Proof.
  intros Heq. induction l as [|x l IH]; simpl; [constructor|].
  rewrite andb_true_iff, negb_true_iff. intros [Hx Hl].
  constructor; [|auto]. intros Hin.
  assert (existsb (eqb x) l = true); [|congruence].
  apply existsb_exists. exists x. split; [assumption | now apply Heq].
Qed.

Section WellFormed.
Variable cw : Crossword.
Hypothesis WF : well_formed cw = true.

Lemma wf_NoDup_variables : NoDup (variables cw).
Proof.
  unfold well_formed in WF. rewrite !andb_true_iff in WF.
  destruct WF as [[H _] _].
  apply nodupb_NoDup with (eqb := var_eqb); [apply var_eqb_eq | exact H].
Qed.

Lemma wf_NoDup_words : NoDup (words cw).
Proof.
  unfold well_formed in WF. rewrite !andb_true_iff in WF.
  destruct WF as [[_ H] _].
  apply nodupb_NoDup with (eqb := word_eqb); [apply word_eqb_eq | exact H].
Qed.

Lemma wf_overlap (x y : Var) (i j : nat) :
  In x (variables cw) -> In y (variables cw) ->
  overlaps cw x y = Some (i, j) ->
  x <> y /\ i < length x /\ j < length y /\ overlaps cw y x = Some (j, i).
Proof.
  intros Hx Hy Ho.
  unfold well_formed in WF. rewrite !andb_true_iff in WF.
  destruct WF as [_ H]. rewrite forallb_forall in H.
  specialize (H x Hx). rewrite forallb_forall in H. specialize (H y Hy).
  unfold overlap_ok in H. rewrite Ho in H.
  rewrite !andb_true_iff, negb_true_iff in H.
  destruct H as [[[Hne Hi] Hj] Hs].
  apply var_eqb_neq in Hne. apply Nat.ltb_lt in Hi. apply Nat.ltb_lt in Hj.
  destruct (overlaps cw y x) as [[j' i']|]; [|discriminate].
  rewrite andb_true_iff, !Nat.eqb_eq in Hs. destruct Hs as [-> ->].
  auto.
Qed.

Lemma wf_has_overlap_sym (x y : Var) :
  In x (variables cw) -> In y (variables cw) ->
  has_overlap cw x y = true -> has_overlap cw y x = true.
Proof.
  unfold has_overlap. intros Hx Hy H.
  destruct (overlaps cw x y) as [[i j]|] eqn:E; [|discriminate].
  destruct (wf_overlap x y i j Hx Hy E) as (_ & _ & _ & ->). reflexivity.
Qed.

End WellFormed.

Lemma neighbors_In (cw : Crossword) (x n : Var) :
  In n (neighbors cw x) <-> In n (variables cw) /\ has_overlap cw x n = true.
Proof. unfold neighbors. now rewrite filter_In. Qed.

(** ** Node consistency *)

Lemma enforce_node_consistency_filter (d : domains) (v : Var) :
  enforce_node_consistency d v =
  filter (fun w => Nat.eqb (String.length w) (length v)) (d v).
Proof.
  unfold enforce_node_consistency, difference_update, node_to_be_removed.
  apply filter_ext_in. intros w Hw.
  destruct (Nat.eqb (String.length w) (length v)) eqn:E.
  - apply negb_true_iff. destruct (mem_word w _) eqn:M; [|reflexivity].
    apply mem_word_In, filter_In in M. rewrite E in M. destruct M. discriminate.
  - apply negb_false_iff, mem_word_In, filter_In. rewrite E. auto.
Qed.

(** C8. After [enforce_node_consistency], every word left in the domain of a
    variable has the variable's length, and a word of the old domain is kept
    exactly when its length is the variable's: only wrong-length words are
    removed. *)
Theorem enforce_node_consistency_correct (d : domains) (v : Var) :
  (forall w, In w (enforce_node_consistency d v) ->
             String.length w = length v) /\
  (forall w, In w (d v) ->
             (In w (enforce_node_consistency d v) <->
              String.length w = length v)) /\
  (forall w, In w (enforce_node_consistency d v) -> In w (d v)).
Proof.
  rewrite enforce_node_consistency_filter. split; [|split].
  - intros w H. apply filter_In in H. now apply Nat.eqb_eq.
  - intros w Hw. rewrite filter_In, Nat.eqb_eq. tauto.
  - intros w H. now apply filter_In in H.
Qed.

Lemma enforce_node_consistency_node_consistent (d : domains) :
  node_consistent (enforce_node_consistency d).
Proof.
  intros v w H. rewrite enforce_node_consistency_filter in H.
  apply filter_In in H. now apply Nat.eqb_eq.
Qed.

(** ** [revise] *)

Lemma revise_found_true (i j : nat) (w1 : word) (ws2 : list word) :
  revise_found i j w1 ws2 = Ok true ->
  exists w2, In w2 ws2 /\ agree i j w1 w2.
Proof.
  induction ws2 as [|w2 r IH]; simpl; [discriminate|].
  intros H. inv_bind H. inv_bind H.
  apply getitem_Ok in Hx, Hx0.
  destruct (Ascii.eqb x x0) eqn:E.
  - apply Ascii.eqb_eq in E. subst. exists w2. split; [now left|].
    exists x0. auto.
  - destruct (IH H) as (w & Hin & Ha). exists w. split; [now right | exact Ha].
Qed.

Lemma revise_found_false (i j : nat) (w1 : word) (ws2 : list word) :
  revise_found i j w1 ws2 = Ok false ->
  forall w2, In w2 ws2 -> ~ agree i j w1 w2.
Proof.
  induction ws2 as [|w2 r IH]; simpl; [tauto|].
  intros H. inv_bind H. inv_bind H.
  apply getitem_Ok in Hx, Hx0.
  destruct (Ascii.eqb x x0) eqn:E; [discriminate|].
  apply Ascii.eqb_neq in E.
  intros w [<-|Hin]; [|now apply IH].
  intros (c & H1 & H2). congruence.
Qed.

Lemma revise_found_total (i j : nat) (w1 : word) (ws2 : list word) :
  i < String.length w1 ->
  (forall w2, In w2 ws2 -> j < String.length w2) ->
  exists b, revise_found i j w1 ws2 = Ok b.
Proof.
  intros Hi. induction ws2 as [|w2 r IH]; simpl; intros Hj; [eauto|].
  destruct (getitem_lt w1 i Hi) as [c1 ->].
  destruct (getitem_lt w2 j (Hj w2 (or_introl eq_refl))) as [c2 ->]. simpl.
  destruct (Ascii.eqb c1 c2); [eauto|]. apply IH. intros; apply Hj. now right.
Qed.

Lemma revise_to_removed_spec (i j : nat) (ws1 ws2 rem : list word) :
  revise_to_removed i j ws1 ws2 = Ok rem ->
  (forall w, In w rem ->
             In w ws1 /\ forall w2, In w2 ws2 -> ~ agree i j w w2) /\
  (forall w, In w ws1 -> ~ In w rem ->
             exists w2, In w2 ws2 /\ agree i j w w2).
Proof.
  revert rem. induction ws1 as [|w1 r IH]; simpl; intros rem H.
  - injection H as <-. split; simpl; tauto.
  - inv_bind H. inv_bind H. injection H as <-.
    destruct (IH _ Hx0) as [IH1 IH2]. destruct x.
    + apply revise_found_true in Hx. split.
      * intros w Hw. destruct (IH1 w Hw). auto.
      * intros w [<-|Hw] Hn; auto.
    + pose proof (revise_found_false _ _ _ _ Hx) as Hf. split.
      * intros w [<-|Hw]; [auto|]. destruct (IH1 w Hw). auto.
      * intros w [<-|Hw] Hn; [exfalso; apply Hn; now left|].
        apply IH2; [assumption|]. intros Hr. apply Hn. now right.
Qed.

Lemma revise_to_removed_total (i j : nat) (ws1 ws2 : list word) :
  (forall w1, In w1 ws1 -> i < String.length w1) ->
  (forall w2, In w2 ws2 -> j < String.length w2) ->
  exists rem, revise_to_removed i j ws1 ws2 = Ok rem.
Proof.
  intros H1 H2. induction ws1 as [|w1 r IH]; simpl; [eauto|].
  destruct (revise_found_total i j w1 ws2) as [b ->]; auto.
  { apply H1. now left. }
  destruct IH as [rem ->]; [intros; apply H1; now right|]. simpl. eauto.
Qed.

Lemma arc_eqb_eq (p q : arc) : arc_eqb p q = true <-> p = q.
Proof.
  destruct p as [a b], q as [a' b']. unfold arc_eqb. simpl.
  rewrite andb_true_iff, !var_eqb_eq. split.
  - intros [-> ->]. reflexivity.
  - intros [= -> ->]. auto.
Qed.

Section ReviseFacts.
Variable cw : Crossword.

(** The keys of the [overlaps] mapping are the pairs of distinct crossword
    variables. *)
Lemma overlaps_items_In (x y : Var) (o : option (nat * nat)) :
  In ((x, y), o) (overlaps_items cw) <->
  o = overlaps cw x y /\ In x (variables cw) /\ In y (variables cw) /\ x <> y.
Proof.
  unfold overlaps_items. rewrite in_map_iff. split.
  - intros ([a b] & E & H). simpl in E. injection E as -> -> <-.
    apply filter_In in H. destruct H as [H Hne]. simpl in Hne.
    apply in_prod_iff in H. apply negb_true_iff, var_eqb_neq in Hne. tauto.
  - intros (-> & Hx & Hy & Hne). exists (x, y). split; [reflexivity|].
    apply filter_In. split; [now apply in_prod|]. simpl.
    now apply negb_true_iff, var_eqb_neq.
Qed.

Lemma overlaps_getitem_Ok (x y : Var) (o : option (nat * nat)) :
  overlaps_getitem cw x y = Ok o <->
  o = overlaps cw x y /\ In x (variables cw) /\ In y (variables cw) /\ x <> y.
Proof.
  rewrite <- overlaps_items_In. unfold overlaps_getitem, dict_getitem.
  destruct (dict_get arc_eqb (overlaps_items cw) (x, y)) as [o'|] eqn:E.
  - apply (dict_get_In arc_eqb arc_eqb_eq) in E. split.
    + intros [= <-]. exact E.
    + intros H. apply overlaps_items_In in E, H.
      destruct E as [-> _], H as [-> _]. reflexivity.
  - apply (dict_get_None arc_eqb arc_eqb_eq) in E. split; [discriminate|].
    intros H. exfalso. apply E. apply (in_map fst) in H. exact H.
Qed.

Lemma overlaps_getitem_key (x y : Var) :
  In x (variables cw) -> In y (variables cw) -> x <> y ->
  overlaps_getitem cw x y = Ok (overlaps cw x y).
Proof. intros Hx Hy Hne. apply overlaps_getitem_Ok. auto. Qed.

(** Outside its keys the subscript raises [KeyError]. *)
Lemma overlaps_getitem_KeyError (x y : Var) :
  ~ (In x (variables cw) /\ In y (variables cw) /\ x <> y) ->
  overlaps_getitem cw x y = Raise KeyError.
Proof.
  intros H. unfold overlaps_getitem, dict_getitem.
  destruct (dict_get arc_eqb (overlaps_items cw) (x, y)) as [o|] eqn:E;
    [|reflexivity].
  apply (dict_get_In arc_eqb arc_eqb_eq), overlaps_items_In in E. tauto.
Qed.

(** A call of [revise] that returns was made on a key of the mapping. *)
Lemma revise_key (d d' : domains) (x y : Var) (b : bool) :
  revise cw d x y = Ok (b, d') ->
  In x (variables cw) /\ In y (variables cw) /\ x <> y.
Proof.
  unfold revise. intros H. apply bind_Ok in H. destruct H as (o & Ho & _).
  apply overlaps_getitem_Ok in Ho. tauto.
Qed.

Lemma revise_inv (d d' : domains) (x y : Var) (b : bool) :
  revise cw d x y = Ok (b, d') ->
  match overlaps cw x y with
  | None => b = false /\ d' = d
  | Some (i, j) =>
      exists rem,
        revise_to_removed i j (d x) (d y) = Ok rem /\
        d' = dom_set d x (difference_update (d x) rem) /\
        b = negb (Nat.eqb (List.length rem) 0)
  end.
Proof.
  unfold revise. intros H. apply bind_Ok in H. destruct H as (o & Ho & H).
  apply overlaps_getitem_Ok in Ho. destruct Ho as [-> _].
  destruct (overlaps cw x y) as [[i j]|].
  - inv_bind H. injection H as <- <-. eauto.
  - injection H as <- <-. auto.
Qed.

(** A call that reports no revision leaves the store as it was. *)
Lemma revise_false_same (d d' : domains) (x y : Var) :
  revise cw d x y = Ok (false, d') -> forall v, d' v = d v.
Proof.
  intros H v. apply revise_inv in H.
  destruct (overlaps cw x y) as [[i j]|].
  - destruct H as (rem & _ & -> & Hb).
    symmetry in Hb. apply negb_false_iff, Nat.eqb_eq in Hb.
    destruct rem; [|discriminate]. rewrite difference_update_nil.
    unfold dom_set. destruct (var_eqb v x) eqn:E; [|reflexivity].
    apply var_eqb_eq in E. now subst.
  - destruct H as [_ ->]. reflexivity.
Qed.

Lemma revise_false_supported (d d' : domains) (x y : Var) :
  revise cw d x y = Ok (false, d') -> arc_supported cw d x y.
Proof.
  intros H i j Ho w Hw. apply revise_inv in H. rewrite Ho in H.
  destruct H as (rem & Hrem & _ & Hb).
  symmetry in Hb. apply negb_false_iff, Nat.eqb_eq in Hb.
  destruct rem; [|discriminate].
  apply (revise_to_removed_spec _ _ _ _ _ Hrem); simpl; auto.
Qed.

(** Only the domain of [x] changes, and it can only lose words. *)
Lemma revise_other (d d' : domains) (x y v : Var) (b : bool) :
  revise cw d x y = Ok (b, d') -> v <> x -> d' v = d v.
Proof.
  intros H Hne. apply revise_inv in H.
  destruct (overlaps cw x y) as [[i j]|].
  - destruct H as (rem & _ & -> & _). now apply dom_set_other.
  - destruct H as [_ ->]. reflexivity.
Qed.

Lemma revise_incl (d d' : domains) (x y v : Var) (b : bool) :
  revise cw d x y = Ok (b, d') -> incl (d' v) (d v).
Proof.
  intros H. destruct (Var_eq_dec v x) as [->|Hne].
  - apply revise_inv in H. destruct (overlaps cw x y) as [[i j]|].
    + destruct H as (rem & _ & -> & _). rewrite dom_set_same.
      intros w Hw. now apply difference_update_In in Hw.
    + destruct H as [_ ->]. apply incl_refl.
  - rewrite (revise_other _ _ _ _ _ _ H Hne). apply incl_refl.
Qed.

Lemma revise_length_le (d d' : domains) (x y v : Var) (b : bool) :
  revise cw d x y = Ok (b, d') -> List.length (d' v) <= List.length (d v).
Proof.
  intros H. destruct (Var_eq_dec v x) as [->|Hne].
  - apply revise_inv in H. destruct (overlaps cw x y) as [[i j]|].
    + destruct H as (rem & _ & -> & _). rewrite dom_set_same.
      apply filter_length_le.
    + destruct H as [_ ->]. apply Nat.le_refl.
  - rewrite (revise_other _ _ _ _ _ _ H Hne). apply Nat.le_refl.
Qed.

Lemma revise_true_shrinks (d d' : domains) (x y : Var) :
  revise cw d x y = Ok (true, d') ->
  List.length (d' x) < List.length (d x).
Proof.
  intros H. apply revise_inv in H.
  destruct (overlaps cw x y) as [[i j]|]; [|destruct H; discriminate].
  destruct H as (rem & Hrem & -> & Hb). rewrite dom_set_same.
  destruct rem as [|w rem]; [discriminate|].
  destruct (revise_to_removed_spec _ _ _ _ _ Hrem) as [H1 _].
  destruct (H1 w (or_introl eq_refl)) as [Hin _].
  apply filter_length_lt with (x := w); [assumption|].
  apply negb_false_iff, mem_word_In. now left.
Qed.

(** After the call the arc [(x, y)] is supported. *)
Lemma revise_supported (d d' : domains) (x y : Var) (b : bool) :
  revise cw d x y = Ok (b, d') -> x <> y -> arc_supported cw d' x y.
Proof.
  intros H Hne i j Ho w Hw. pose proof H as H0.
  apply revise_inv in H. rewrite Ho in H.
  destruct H as (rem & Hrem & -> & _).
  rewrite dom_set_same in Hw. apply difference_update_In in Hw.
  destruct Hw as [Hw Hn].
  rewrite dom_set_other by congruence.
  now apply (revise_to_removed_spec _ _ _ _ _ Hrem).
Qed.

(** A word of [d x] with a partner in [d y] survives the call. *)
Lemma revise_keeps (d d' : domains) (x y : Var) (b : bool) (i j : nat)
      (w w' : word) :
  revise cw d x y = Ok (b, d') -> overlaps cw x y = Some (i, j) ->
  In w (d x) -> In w' (d y) -> agree i j w w' -> In w (d' x).
Proof.
  intros H Ho Hw Hw' Ha. apply revise_inv in H. rewrite Ho in H.
  destruct H as (rem & Hrem & -> & _). rewrite dom_set_same.
  apply difference_update_In. split; [assumption|]. intros Hr.
  destruct (revise_to_removed_spec _ _ _ _ _ Hrem) as [H1 _].
  destruct (H1 w Hr) as [_ Hno]. now apply (Hno w').
Qed.

Lemma revise_total (d : domains) (x y : Var) :
  well_formed cw = true -> node_consistent d ->
  In x (variables cw) -> In y (variables cw) -> x <> y ->
  exists b d', revise cw d x y = Ok (b, d').
Proof.
  intros WF Hn Hx Hy Hne. unfold revise.
  rewrite (overlaps_getitem_key x y Hx Hy Hne). simpl.
  destruct (overlaps cw x y) as [[i j]|] eqn:Ho; [|eauto].
  destruct (wf_overlap cw WF x y i j Hx Hy Ho) as (_ & Hi & Hj & _).
  destruct (revise_to_removed_total i j (d x) (d y)) as [rem ->]; simpl.
  - intros w Hw. now rewrite (Hn _ _ Hw).
  - intros w Hw. now rewrite (Hn _ _ Hw).
  - eauto.
Qed.
End ReviseFacts.

(** ** [ac3] *)

Section Ac3Facts.
Variable cw : Crossword.
Hypothesis WF : well_formed cw = true.

Lemma agree_sym (i j : nat) (w w' : word) : agree i j w w' -> agree j i w' w.
Proof. intros (c & H1 & H2). exists c. auto. Qed.

Lemma initial_arcs_In (x y : Var) :
  In (x, y) (initial_arcs cw) <->
  In x (variables cw) /\ In y (variables cw) /\ has_overlap cw x y = true.
Proof.
  unfold initial_arcs, overlaps_items, has_overlap.
  rewrite in_map_iff. split.
  - intros ([p o] & E & H). simpl in E. subst p.
    apply filter_In in H. destruct H as [H Ho]. simpl in Ho.
    apply in_map_iff in H. destruct H as ([a b] & E & H).
    simpl in E. inversion E; subst. apply filter_In in H.
    destruct H as [H _]. apply in_prod_iff in H.
    destruct (overlaps cw x y); [tauto | discriminate].
  - intros (Hx & Hy & Ho). exists ((x, y), overlaps cw x y).
    split; [reflexivity|]. apply filter_In. split.
    + apply in_map_iff. exists (x, y). split; [reflexivity|].
      apply filter_In. split; [now apply in_prod|]. simpl.
      apply negb_true_iff, var_eqb_neq.
      destruct (overlaps cw x y) as [[i j]|] eqn:E; [|discriminate].
      now destruct (wf_overlap cw WF x y i j Hx Hy E).
    + simpl. destruct (overlaps cw x y); [reflexivity | discriminate].
Qed.

Lemma initial_arcs_ok : arcs_ok cw (initial_arcs cw).
Proof. intros x y H. now apply initial_arcs_In. Qed.

Lemma initial_arcs_inv (d : domains) : ac3_inv cw d (initial_arcs cw).
Proof.
  intros x y Hx Hy. destruct (has_overlap cw x y) eqn:E.
  - left. now apply initial_arcs_In.
  - right. intros i j Ho. unfold has_overlap in E. rewrite Ho in E.
    discriminate.
Qed.

Lemma requeue_In (x y p q : Var) :
  In (p, q) (requeue cw x y) <->
  q = x /\ p <> y /\ In p (neighbors cw x).
Proof.
  unfold requeue. rewrite in_map_iff. split.
  - intros (v & E & H). injection E as <- <-.
    apply filter_In in H. destruct H as [H Hne].
    apply negb_true_iff, var_eqb_neq in Hne. auto.
  - intros (-> & Hne & H). exists p. split; [reflexivity|].
    apply filter_In. split; [assumption|].
    now apply negb_true_iff, var_eqb_neq.
Qed.

Lemma requeue_length (x y : Var) :
  List.length (requeue cw x y) <= List.length (variables cw).
Proof.
  unfold requeue, neighbors. rewrite length_map.
  etransitivity; [apply filter_length_le|]. apply filter_length_le.
Qed.

Lemma arcs_ok_requeue (x y : Var) (rest : list arc) :
  arcs_ok cw ((x, y) :: rest) -> arcs_ok cw (rest ++ requeue cw x y).
Proof.
  intros H p q Hin. apply in_app_or in Hin. destruct Hin as [Hin|Hin].
  - apply H. now right.
  - apply requeue_In in Hin. destruct Hin as (-> & _ & Hn).
    apply neighbors_In in Hn. destruct Hn as [Hp Ho].
    destruct (H x y (or_introl eq_refl)) as (Hx & _ & _).
    repeat split; try assumption.
    now apply wf_has_overlap_sym.
Qed.

Lemma arcs_ok_key (arcs : list arc) (x y : Var) :
  arcs_ok cw arcs -> In (x, y) arcs ->
  In x (variables cw) /\ In y (variables cw) /\ x <> y.
Proof.
  intros Hok Hin. destruct (Hok x y Hin) as (Hx & Hy & Ho).
  unfold has_overlap in Ho.
  destruct (overlaps cw x y) as [[i j]|] eqn:E; [|discriminate].
  destruct (wf_overlap cw WF x y i j Hx Hy E) as (Hne & _). auto.
Qed.

Lemma arcs_ok_tail (a : arc) (rest : list arc) :
  arcs_ok cw (a :: rest) -> arcs_ok cw rest.
Proof. intros H p q Hin. apply H. now right. Qed.

Lemma arc_supported_ext (d d' : domains) (p q : Var) :
  d' p = d p -> d' q = d q ->
  arc_supported cw d p q -> arc_supported cw d' p q.
Proof.
  intros Hp Hq H i j Ho w Hw. rewrite Hp in Hw. rewrite Hq. eauto.
Qed.

Lemma step_inv_false (d d1 : domains) (x y : Var) (rest : list arc) :
  ac3_inv cw d ((x, y) :: rest) ->
  revise cw d x y = Ok (false, d1) ->
  ac3_inv cw d1 rest.
Proof.
  intros Hinv Hr p q Hp Hq.
  pose proof (revise_false_same cw _ _ _ _ Hr) as Hsame.
  destruct (Hinv p q Hp Hq) as [[E|Hin]|Hs].
  - injection E as <- <-. right.
    apply arc_supported_ext with (d := d); auto.
    now apply revise_false_supported with (d' := d1).
  - now left.
  - right. apply arc_supported_ext with (d := d); auto.
Qed.

Lemma step_inv_true (d d1 : domains) (x y : Var) (rest : list arc) :
  arcs_ok cw ((x, y) :: rest) ->
  ac3_inv cw d ((x, y) :: rest) ->
  revise cw d x y = Ok (true, d1) ->
  ac3_inv cw d1 (rest ++ requeue cw x y).
Proof.
  intros Hok Hinv Hr p q Hp Hq.
  destruct (Hok x y (or_introl eq_refl)) as (Hx & Hy & Hxy).
  unfold has_overlap in Hxy.
  destruct (overlaps cw x y) as [[i j]|] eqn:Ho; [|discriminate].
  destruct (wf_overlap cw WF x y i j Hx Hy Ho) as (Hne & _ & _ & Hyx).
  destruct (Hinv p q Hp Hq) as [[E|Hin]|Hs].
  - injection E as <- <-. right.
    now apply revise_supported with (d := d) (b := true).
  - left. apply in_or_app. now left.
  - destruct (Var_eq_dec q x) as [->|Hqx].
    + destruct (Var_eq_dec p y) as [->|Hpy].
      * right. intros i' j' Ho' w Hw.
        rewrite (revise_other cw _ _ _ _ _ _ Hr) in Hw by congruence.
        destruct (Hs i' j' Ho' w Hw) as (w' & Hw' & Ha).
        exists w'. split; [|assumption].
        rewrite Hyx in Ho'. injection Ho' as <- <-.
        apply (revise_keeps cw d d1 x y true i j w' w); auto.
        now apply agree_sym.
      * destruct (has_overlap cw p x) eqn:Hpx.
        -- left. apply in_or_app. right. apply requeue_In.
           repeat split; [assumption|]. apply neighbors_In.
           split; [assumption|]. now apply wf_has_overlap_sym.
        -- right. intros i' j' Ho'. unfold has_overlap in Hpx.
           rewrite Ho' in Hpx. discriminate.
    + right. intros i' j' Ho' w Hw.
      apply (revise_incl cw _ _ _ _ _ _ Hr) in Hw.
      rewrite (revise_other cw _ _ _ _ _ _ Hr) by assumption. eauto.
Qed.

(** When the worklist runs empty, every arc is supported. *)
Lemma ac3_loop_sound (fuel : nat) :
  forall (d : domains) (arcs : list arc) (d' : domains),
    arcs_ok cw arcs -> ac3_inv cw d arcs ->
    ac3_loop cw fuel d arcs = Ok (None, d') ->
    arc_consistent cw d'.
Proof.
  induction fuel as [|fuel IH]; intros d arcs d' Hok Hinv H.
  - destruct arcs as [|[x y] rest]; [|discriminate].
    injection H as <-. intros x y Hx Hy.
    destruct (Hinv x y Hx Hy) as [[]|]; assumption.
  - destruct arcs as [|[x y] rest]; simpl in H.
    + injection H as <-. intros x y Hx Hy.
      destruct (Hinv x y Hx Hy) as [[]|]; assumption.
    + inv_bind H. destruct x0 as [b d1]. simpl in H. destruct b.
      * destruct (Nat.eqb (List.length (d1 x)) 0); [discriminate|].
        apply (IH d1 (rest ++ requeue cw x y)); auto.
        -- now apply arcs_ok_requeue.
        -- now apply step_inv_true with (d := d).
      * apply (IH d1 rest); auto.
        -- now apply arcs_ok_tail with (a := (x, y)).
        -- now apply step_inv_false with (d := d) (x := x) (y := y).
Qed.

(** The loop never answers [True]; when it answers [False], the domain it
    has just revised is empty. *)
Lemma ac3_loop_result (fuel : nat) :
  forall (d : domains) (arcs : list arc) (r : option bool) (d' : domains),
    arcs_ok cw arcs ->
    ac3_loop cw fuel d arcs = Ok (r, d') ->
    r = None \/
    (r = Some false /\ exists x, In x (variables cw) /\ d' x = []).
Proof.
  induction fuel as [|fuel IH]; intros d arcs r d' Hok H.
  - destruct arcs as [|[x y] rest]; [|discriminate].
    injection H as <- <-. now left.
  - destruct arcs as [|[x y] rest]; simpl in H.
    + injection H as <- <-. now left.
    + inv_bind H. destruct x0 as [b d1]. simpl in H. destruct b.
      * destruct (Nat.eqb (List.length (d1 x)) 0) eqn:E.
        -- injection H as <- <-. right. split; [reflexivity|].
           exists x. split; [apply (Hok x y); now left|].
           apply Nat.eqb_eq in E. now destruct (d1 x).
        -- apply (IH d1 (rest ++ requeue cw x y)); auto.
           now apply arcs_ok_requeue.
      * apply (IH d1 rest); auto.
        now apply arcs_ok_tail with (a := (x, y)).
Qed.

Lemma ac3_loop_incl (fuel : nat) :
  forall (d : domains) (arcs : list arc) (r : option bool) (d' : domains),
    ac3_loop cw fuel d arcs = Ok (r, d') ->
    forall v, incl (d' v) (d v).
Proof.
  induction fuel as [|fuel IH]; intros d arcs r d' H v.
  - destruct arcs as [|[x y] rest]; [|discriminate].
    injection H as <- <-. apply incl_refl.
  - destruct arcs as [|[x y] rest]; simpl in H.
    + injection H as <- <-. apply incl_refl.
    + inv_bind H. destruct x0 as [b d1]. simpl in H.
      pose proof (revise_incl cw _ _ _ _ v _ Hx) as Hi.
      destruct b.
      * destruct (Nat.eqb (List.length (d1 x)) 0).
        -- injection H as <- <-. assumption.
        -- eapply incl_tran; [|exact Hi]. eapply IH; eassumption.
      * eapply incl_tran; [|exact Hi]. eapply IH; eassumption.
Qed.

Lemma total_size_lt (d d1 : domains) (x : Var) :
  (forall v, List.length (d1 v) <= List.length (d v)) ->
  In x (variables cw) ->
  List.length (d1 x) < List.length (d x) ->
  total_size cw d1 < total_size cw d.
Proof.
  unfold total_size. intros Hle. induction (variables cw) as [|v l IH];
    simpl; [tauto|].
  intros [->|Hin] Hlt.
  - assert (list_sum (map (fun v => List.length (d1 v)) l) <=
            list_sum (map (fun v => List.length (d v)) l)); [|lia].
    clear IH. induction l as [|u l IHl]; simpl; [lia|].
    specialize (Hle u). lia.
  - specialize (IH Hin Hlt). specialize (Hle v). lia.
Qed.

Lemma total_size_ext (d d1 : domains) :
  (forall v, d1 v = d v) -> total_size cw d1 = total_size cw d.
Proof.
  intros H. unfold total_size. f_equal. apply map_ext. intros v.
  now rewrite H.
Qed.

Lemma node_consistent_incl (d d1 : domains) :
  (forall v, incl (d1 v) (d v)) -> node_consistent d -> node_consistent d1.
Proof. intros Hi Hn v w Hw. apply Hn. now apply Hi. Qed.

Lemma revise_found_fuel (i j : nat) (w1 : word) (ws2 : list word) :
  revise_found i j w1 ws2 <> OutOfFuel.
Proof.
  induction ws2 as [|w2 r IH]; simpl; [discriminate|].
  unfold getitem. destruct (String.get i w1); simpl; [|discriminate].
  destruct (String.get j w2); simpl; [|discriminate].
  destruct (Ascii.eqb _ _); [discriminate | assumption].
Qed.

Lemma revise_fuel (d : domains) (x y : Var) : revise cw d x y <> OutOfFuel.
Proof.
  unfold revise, overlaps_getitem, dict_getitem.
  destruct (dict_get arc_eqb (overlaps_items cw) (x, y)) as [o|]; simpl;
    [|discriminate].
  destruct o as [[i j]|]; [|discriminate].
  assert (H : revise_to_removed i j (d x) (d y) <> OutOfFuel).
  { induction (d x) as [|w1 r IH]; simpl; [discriminate|].
    pose proof (revise_found_fuel i j w1 (d y)) as Hf.
    destruct (revise_found i j w1 (d y)); simpl; [|discriminate|congruence].
    destruct (revise_to_removed i j r (d y)); simpl;
      [discriminate | discriminate | congruence]. }
  destruct (revise_to_removed i j (d x) (d y)); simpl;
    [discriminate | discriminate | congruence].
Qed.

(** Whatever the store, the budget is never the reason why the loop
    stops. *)
Lemma ac3_loop_fuel (fuel : nat) :
  forall (d : domains) (arcs : list arc),
    arcs_ok cw arcs ->
    List.length arcs + List.length (variables cw) * total_size cw d < fuel ->
    ac3_loop cw fuel d arcs <> OutOfFuel.
Proof.
  induction fuel as [|fuel IH]; intros d arcs Hok Hf; [lia|].
  destruct arcs as [|[x y] rest]; simpl; [discriminate|].
  destruct (Hok x y (or_introl eq_refl)) as (Hx & Hy & _).
  pose proof (revise_fuel d x y) as Hrf.
  destruct (revise cw d x y) as [[b d1]| |] eqn:Hr; simpl;
    [|discriminate|congruence].
  simpl in Hf. destruct b.
  - destruct (Nat.eqb (List.length (d1 x)) 0); [discriminate|].
    apply IH; [now apply arcs_ok_requeue|].
    rewrite length_app. pose proof (requeue_length x y) as Hq.
    assert (Hlt : total_size cw d1 < total_size cw d).
    { apply total_size_lt with (x := x); [|assumption|].
      - intros v. apply (revise_length_le cw _ _ _ _ v _ Hr).
      - exact (revise_true_shrinks cw _ _ _ _ Hr). }
    nia.
  - apply IH; [now apply arcs_ok_tail with (a := (x, y))|].
    rewrite (total_size_ext d d1 (revise_false_same cw _ _ _ _ Hr)).
    lia.
Qed.

Lemma ac3_fuel (d : domains) : ac3 cw d None <> OutOfFuel.
Proof.
  unfold ac3. apply ac3_loop_fuel; [apply initial_arcs_ok|].
  unfold ac3_budget. lia.
Qed.

(** On node-consistent domains the loop raises nothing and stays within the
    budget. *)
Lemma ac3_loop_total (fuel : nat) :
  forall (d : domains) (arcs : list arc),
    node_consistent d -> arcs_ok cw arcs ->
    List.length arcs + List.length (variables cw) * total_size cw d < fuel ->
    exists r d', ac3_loop cw fuel d arcs = Ok (r, d').
Proof.
  induction fuel as [|fuel IH]; intros d arcs Hn Hok Hf; [lia|].
  destruct arcs as [|[x y] rest]; simpl; [eauto|].
  destruct (arcs_ok_key _ x y Hok (or_introl eq_refl)) as (Hx & Hy & Hne).
  destruct (revise_total cw d x y WF Hn Hx Hy Hne) as (b & d1 & Hr).
  rewrite Hr. simpl.
  assert (Hn1 : node_consistent d1).
  { apply node_consistent_incl with (d := d); [|assumption].
    intros v. apply (revise_incl cw _ _ _ _ v _ Hr). }
  simpl in Hf. destruct b.
  - destruct (Nat.eqb (List.length (d1 x)) 0); [eauto|].
    apply IH; [assumption | now apply arcs_ok_requeue |].
    rewrite length_app. pose proof (requeue_length x y) as Hq.
    assert (Hlt : total_size cw d1 < total_size cw d).
    { apply total_size_lt with (x := x); [|assumption|].
      - intros v. apply (revise_length_le cw _ _ _ _ v _ Hr).
      - exact (revise_true_shrinks cw _ _ _ _ Hr). }
    nia.
  - apply IH; [assumption | now apply arcs_ok_tail with (a := (x, y)) |].
    rewrite (total_size_ext d d1 (revise_false_same cw _ _ _ _ Hr)).
    lia.
Qed.
End Ac3Facts.

Lemma revise_found_supported (i j : nat) (w1 : word) (ws2 : list word) :
  (forall w2, In w2 ws2 -> exists c, String.get j w2 = Some c) ->
  (exists w2, In w2 ws2 /\ agree i j w1 w2) ->
  revise_found i j w1 ws2 = Ok true.
Proof.
  induction ws2 as [|w2 r IH]; intros Hj (w & Hin & Ha); [destruct Hin|].
  simpl. destruct Ha as (c & H1 & H2).
  apply getitem_Ok in H1. rewrite H1. simpl.
  destruct (Hj w2 (or_introl eq_refl)) as [c2 Hc2].
  pose proof Hc2 as Hg. apply getitem_Ok in Hg. rewrite Hg. simpl.
  destruct (Ascii.eqb c c2) eqn:E; [reflexivity|].
  apply IH; [intros; apply Hj; now right|].
  destruct Hin as [->|Hin].
  - apply Ascii.eqb_neq in E. congruence.
  - exists w. split; [assumption|]. exists c. split; [|assumption].
    now apply getitem_Ok.
Qed.

Lemma revise_to_removed_nil (i j : nat) (ws1 ws2 : list word) :
  (forall w2, In w2 ws2 -> exists c, String.get j w2 = Some c) ->
  (forall w1, In w1 ws1 -> exists w2, In w2 ws2 /\ agree i j w1 w2) ->
  revise_to_removed i j ws1 ws2 = Ok [].
Proof.
  intros Hj. induction ws1 as [|w1 r IH]; intros Hs; simpl; [reflexivity|].
  rewrite revise_found_supported; auto; [|apply Hs; now left]. simpl.
  rewrite IH; [reflexivity|]. intros; apply Hs. now right.
Qed.

Section Ac3Consistent.
Variable cw : Crossword.
Hypothesis WF : well_formed cw = true.

Lemma arc_consistent_ext (d d' : domains) :
  (forall v, d' v = d v) -> arc_consistent cw d -> arc_consistent cw d'.
Proof.
  intros He H x y Hx Hy. apply arc_supported_ext with (d := d); auto.
Qed.

(** On an arc-consistent store [revise] finds a partner for every word. *)
Lemma revise_arc_consistent (d : domains) (x y : Var) :
  arc_consistent cw d -> In x (variables cw) -> In y (variables cw) ->
  x <> y ->
  exists d', revise cw d x y = Ok (false, d') /\ forall v, d' v = d v.
Proof.
  intros Hac Hx Hy Hne. unfold revise.
  rewrite (overlaps_getitem_key cw x y Hx Hy Hne). simpl.
  destruct (overlaps cw x y) as [[i j]|] eqn:Ho; [|eauto].
  destruct (wf_overlap cw WF x y i j Hx Hy Ho) as (_ & _ & _ & Hyx).
  rewrite revise_to_removed_nil.
  - simpl. eexists. split; [reflexivity|]. intros v.
    rewrite difference_update_nil. unfold dom_set.
    destruct (var_eqb v x) eqn:E; [|reflexivity].
    apply var_eqb_eq in E. now subst.
  - intros w2 Hw2. destruct (Hac y x Hy Hx j i Hyx w2 Hw2)
      as (w & _ & c & Hc & _). eauto.
  - intros w1 Hw1. apply (Hac x y Hx Hy i j Ho w1 Hw1).
Qed.

Lemma ac3_loop_arc_consistent (fuel : nat) :
  forall (d : domains) (arcs : list arc),
    arcs_ok cw arcs -> arc_consistent cw d ->
    List.length arcs <= fuel ->
    exists d', ac3_loop cw fuel d arcs = Ok (None, d') /\
               forall v, d' v = d v.
Proof.
  induction fuel as [|fuel IH]; intros d arcs Hok Hac Hf.
  - destruct arcs; [|simpl in Hf; lia]. simpl. eauto.
  - destruct arcs as [|[x y] rest]; simpl; [eauto|].
    destruct (arcs_ok_key cw WF _ x y Hok (or_introl eq_refl))
      as (Hx & Hy & Hne).
    destruct (revise_arc_consistent d x y Hac Hx Hy Hne) as (d1 & -> & Hsame).
    simpl. destruct (IH d1 rest) as (d' & -> & Hd').
    + now apply arcs_ok_tail with (a := (x, y)).
    + now apply arc_consistent_ext with (d := d).
    + simpl in Hf. lia.
    + exists d'. split; [reflexivity|]. intros v. now rewrite Hd'.
Qed.
End Ac3Consistent.

(** C7. When [ac3], started from the default worklist, ends by emptying the
    worklist (it does not report [False]), every word [w] left in the domain
    of a variable [x] has, for every neighbor [y] of [x] with overlap
    [(i, j)], a word in the domain of [y] whose [j]-th letter is the [i]-th
    letter of [w]. *)
Theorem ac3_arc_consistent (cw : Crossword) (d d' : domains) :
  well_formed cw = true ->
  ac3 cw d None = Ok (None, d') ->
  forall x w y i j,
    In x (variables cw) -> In w (d' x) ->
    In y (neighbors cw x) -> overlaps cw x y = Some (i, j) ->
    exists w', In w' (d' y) /\ agree i j w w'.
Proof.
  intros WF H x w y i j Hx Hw Hy Ho. unfold ac3 in H.
  apply neighbors_In in Hy. destruct Hy as [Hy _].
  apply (ac3_loop_sound cw WF _ _ _ _ (initial_arcs_ok cw WF)
           (initial_arcs_inv cw WF d) H x y Hx Hy i j Ho w Hw).
Qed.

Lemma ac3_success_arc_consistent (cw : Crossword) (d d' : domains) :
  well_formed cw = true ->
  ac3 cw d None = Ok (None, d') -> arc_consistent cw d'.
Proof.
  intros WF H. unfold ac3 in H.
  apply (ac3_loop_sound cw WF _ _ _ _ (initial_arcs_ok cw WF)
           (initial_arcs_inv cw WF d) H).
Qed.

(** X24. On a store left by a run of [ac3] that emptied its worklist, a
    second run changes no domain and ends in the same way: it empties its
    worklist and returns [None]. *)
Theorem ac3_idempotent (cw : Crossword) (d0 d : domains) :
  well_formed cw = true ->
  ac3 cw d0 None = Ok (None, d) ->
  exists d', ac3 cw d None = Ok (None, d') /\ forall v, d' v = d v.
Proof.
  intros WF H. apply ac3_success_arc_consistent in H; [|assumption].
  unfold ac3. apply ac3_loop_arc_consistent; auto.
  - now apply initial_arcs_ok.
  - unfold ac3_budget. lia.
Qed.

(** ** [consistent] *)

(** A word that does not end in NUL is stored as it is. *)
Lemma np_str_id (w : word) : trailing_NUL w = false -> np_str w = w.
Proof.
  induction w as [|c r IH]; [reflexivity|]. simpl.
  destruct r as [|c' r'].
  - simpl. now intros ->.
  - intros H. now rewrite (IH H).
Qed.

Lemma np_str_map_id (vs : list word) :
  (forall w, In w vs -> trailing_NUL w = false) -> map np_str vs = vs.
Proof.
  intros H. rewrite <- (map_id vs) at 2. apply map_ext_in.
  intros w Hw. apply np_str_id. now apply H.
Qed.

(** All counts are 1 exactly when the array elements are pairwise
    distinct. *)
Lemma unique_counts_np (vs : list word) :
  forallb (fun c => Nat.eqb c 1) (unique_counts vs) = true <->
  NoDup (map np_str vs).
Proof.
  unfold unique_counts. rewrite forallb_forall.
  rewrite (NoDup_count_occ' string_dec). split.
  - intros H x Hx. apply Nat.eqb_eq. apply H. apply in_map_iff.
    exists x. split; [reflexivity | now apply nodup_In].
  - intros H c Hc. apply in_map_iff in Hc. destruct Hc as (x & <- & Hx).
    apply Nat.eqb_eq. apply H. now apply nodup_In in Hx.
Qed.

(** The test of [numpy.unique] is at least as strict as pairwise
    distinctness of the words, and is the same when no word ends in NUL. *)
Lemma unique_counts_NoDup (vs : list word) :
  forallb (fun c => Nat.eqb c 1) (unique_counts vs) = true -> NoDup vs.
Proof. intros H. apply unique_counts_np in H. now apply NoDup_map_inv in H. Qed.

Lemma unique_counts_exact (vs : list word) :
  (forall w, In w vs -> trailing_NUL w = false) ->
  NoDup vs -> forallb (fun c => Nat.eqb c 1) (unique_counts vs) = true.
Proof.
  intros H Hnd. apply unique_counts_np. now rewrite (np_str_map_id vs H).
Qed.

Section ConsistentFacts.
Variable cw : Crossword.

Lemma consistent_neighbors_true (a : assignment) (var : Var) (val : word)
      (ns : list Var) :
  consistent_neighbors cw a var val ns = Ok true <->
  (forall n w2, In n ns -> dict_get var_eqb a n = Some w2 ->
                exists i j, overlaps cw var n = Some (i, j) /\
                            agree i j val w2).
Proof.
  induction ns as [|n r IH]; simpl.
  - split; [intros _ n w2 [] | reflexivity].
  - destruct (dict_get var_eqb a n) as [w2|] eqn:Eg.
    + destruct (overlaps cw var n) as [[i j]|] eqn:Eo.
      * unfold getitem.
        destruct (String.get i val) as [c1|] eqn:E1; simpl.
        -- destruct (String.get j w2) as [c2|] eqn:E2; simpl.
           ++ destruct (Ascii.eqb c1 c2) eqn:E.
              ** apply Ascii.eqb_eq in E. subst c2. rewrite IH. split.
                 --- intros H n0 w0 [<-|Hin] Hg; [|eauto].
                     rewrite Eg in Hg. injection Hg as <-.
                     exists i, j. split; [assumption|]. exists c1. auto.
                 --- intros H n0 w0 Hin. apply H. now right.
              ** apply Ascii.eqb_neq in E. split; [discriminate|].
                 intros H. destruct (H n w2 (or_introl eq_refl) Eg)
                   as (i' & j' & Ho & c & Hc1 & Hc2).
                 rewrite Eo in Ho. injection Ho as <- <-. congruence.
           ++ split; [discriminate|].
              intros H. destruct (H n w2 (or_introl eq_refl) Eg)
                as (i' & j' & Ho & c & Hc1 & Hc2).
              rewrite Eo in Ho. injection Ho as <- <-. congruence.
        -- split; [discriminate|].
           intros H. destruct (H n w2 (or_introl eq_refl) Eg)
             as (i' & j' & Ho & c & Hc1 & Hc2).
           rewrite Eo in Ho. injection Ho as <- <-. congruence.
      * split; [discriminate|].
        intros H. destruct (H n w2 (or_introl eq_refl) Eg)
          as (i' & j' & Ho & _). congruence.
    + rewrite IH. split.
      * intros H n0 w0 [<-|Hin] Hg; [congruence | eauto].
      * intros H n0 w0 Hin. apply H. now right.
Qed.

Lemma consistent_items_true (a : assignment) (items : list (Var * word)) :
  consistent_items cw a items = Ok true <->
  (forall var val, In (var, val) items ->
     String.length val = length var /\
     consistent_neighbors cw a var val (neighbors cw var) = Ok true).
Proof.
  induction items as [|[var val] r IH]; simpl.
  - split; [intros _ ? ? [] | reflexivity].
  - destruct (Nat.eqb (String.length val) (length var)) eqn:El; simpl.
    + apply Nat.eqb_eq in El.
      destruct (consistent_neighbors cw a var val (neighbors cw var))
        as [[|]| |] eqn:En; simpl.
      * rewrite IH. split.
        -- intros H v w [[= <- <-]|Hin]; auto.
        -- intros H v w Hin. apply H. now right.
      * split; [discriminate|]. intros H.
        destruct (H var val (or_introl eq_refl)). congruence.
      * split; [discriminate|]. intros H.
        destruct (H var val (or_introl eq_refl)). congruence.
      * split; [discriminate|]. intros H.
        destruct (H var val (or_introl eq_refl)). congruence.
    + apply Nat.eqb_neq in El. split; [discriminate|]. intros H.
      destruct (H var val (or_introl eq_refl)). contradiction.
Qed.

(** On a dictionary, [consistent] answers [True] exactly when the words
    are pairwise distinct as array elements, have the lengths of their
    variables and agree at the overlaps. *)
Lemma consistent_true_np (a : assignment) :
  NoDup (keys a) ->
  (consistent cw a = Ok true <->
   NoDup (map np_str (values a)) /\
   (forall v w, In (v, w) a -> String.length w = length v) /\
   (forall v w n w' i j,
       In (v, w) a -> In (n, w') a -> In n (neighbors cw v) ->
       overlaps cw v n = Some (i, j) -> agree i j w w')).
Proof.
  intros Hk. unfold consistent.
  destruct (forallb (fun c => Nat.eqb c 1) (unique_counts (values a)))
    eqn:Eu; simpl.
  - apply unique_counts_np in Eu. rewrite consistent_items_true. split.
    + intros H. split; [assumption|]. split.
      * intros v w Hin. now apply H.
      * intros v w n w' i j Hv Hn Hnb Ho.
        destruct (H v w Hv) as [_ Hc].
        rewrite consistent_neighbors_true in Hc.
        destruct (Hc n w' Hnb (In_dict_get var_eqb var_eqb_eq a n w' Hk Hn))
          as (i' & j' & Ho' & Ha).
        rewrite Ho in Ho'. injection Ho' as <- <-. exact Ha.
    + intros (_ & Hl & Ho) var val Hin. split; [now apply Hl|].
      apply consistent_neighbors_true. intros n w2 Hn Hg.
      apply dict_get_In in Hg; [|apply var_eqb_eq].
      pose proof Hn as Hn'. apply neighbors_In in Hn'.
      destruct Hn' as [_ Hov]. unfold has_overlap in Hov.
      destruct (overlaps cw var n) as [[i j]|] eqn:Eo; [|discriminate].
      exists i, j. split; [reflexivity|]. eapply Ho; eauto.
  - split; [discriminate|]. intros (Hnd & _).
    apply unique_counts_np in Hnd. congruence.
Qed.

(** On a dictionary, an assignment that [consistent] accepts is
    consistent. *)
Lemma consistent_true_sound (a : assignment) :
  NoDup (keys a) -> consistent cw a = Ok true -> is_consistent cw a.
Proof.
  intros Hk H. apply (consistent_true_np a Hk) in H.
  destruct H as (Hnd & Hl & Ho). split; [|split; assumption].
  now apply NoDup_map_inv in Hnd.
Qed.

(** When no word ends in NUL, [consistent] answers [True] exactly on the
    consistent assignments. *)
Lemma consistent_true_iff (a : assignment) :
  NoDup (keys a) ->
  (forall v w, In (v, w) a -> trailing_NUL w = false) ->
  (consistent cw a = Ok true <-> is_consistent cw a).
Proof.
  intros Hk Hnul. split; [now apply consistent_true_sound|].
  intros (Hnd & Hl & Ho). apply (consistent_true_np a Hk).
  split; [|split; assumption].
  rewrite np_str_map_id; [assumption|].
  intros w Hw. unfold values in Hw. apply in_map_iff in Hw.
  destruct Hw as ([v w'] & <- & Hin). now apply (Hnul v w').
Qed.

Hypothesis WF : well_formed cw = true.

Lemma consistent_neighbors_total (a : assignment) (var : Var) (val : word)
      (ns : list Var) :
  In var (variables cw) -> String.length val = length var ->
  (forall v w, In (v, w) a -> String.length w = length v) ->
  incl ns (neighbors cw var) ->
  exists b, consistent_neighbors cw a var val ns = Ok b.
Proof.
  intros Hvar Hlen Hall. induction ns as [|n r IH]; simpl; intros Hi;
    [eauto|].
  assert (Hr : incl r (neighbors cw var)) by (intros ? ?; apply Hi; now right).
  destruct (dict_get var_eqb a n) as [w2|] eqn:Eg; [|auto].
  assert (Hn : In n (neighbors cw var)) by (apply Hi; now left).
  apply neighbors_In in Hn. destruct Hn as [Hn Hov]. unfold has_overlap in Hov.
  destruct (overlaps cw var n) as [[i j]|] eqn:Eo; [|discriminate].
  destruct (wf_overlap cw WF var n i j Hvar Hn Eo) as (_ & Hi' & Hj & _).
  apply dict_get_In in Eg; [|apply var_eqb_eq].
  apply Hall in Eg.
  destruct (getitem_lt val i) as [c1 ->]; [lia|].
  destruct (getitem_lt w2 j) as [c2 ->]; [lia|]. simpl.
  destruct (Ascii.eqb c1 c2); eauto.
Qed.

Lemma consistent_items_total (a : assignment) (items : list (Var * word)) :
  (forall v w, In (v, w) a -> String.length w = length v) ->
  (forall v w, In (v, w) items -> In v (variables cw)) ->
  exists b, consistent_items cw a items = Ok b.
Proof.
  intros Hall. induction items as [|[var val] r IH]; simpl; intros Hv;
    [eauto|].
  destruct (Nat.eqb (String.length val) (length var)) eqn:El; simpl;
    [|eauto].
  apply Nat.eqb_eq in El.
  destruct (consistent_neighbors_total a var val (neighbors cw var))
    as [b ->]; auto.
  - apply (Hv var val). now left.
  - apply incl_refl.
  - simpl. destruct b; [|eauto]. apply IH. intros v w Hin.
    apply (Hv v w). now right.
Qed.

(** On assignments drawn from node-consistent domains the predicate raises
    nothing. *)
Lemma consistent_total (d : domains) (a : assignment) :
  node_consistent d -> assignment_ok cw d a ->
  exists b, consistent cw a = Ok b.
Proof.
  intros Hn [_ Ha]. unfold consistent.
  destruct (negb _); [eauto|].
  apply consistent_items_total.
  - intros v w Hin. apply Hn. now apply Ha.
  - intros v w Hin. now apply (Ha v w).
Qed.

(** On such assignments the predicate returns [True] only on consistent
    ones, and, when no word ends in NUL, [False] only on inconsistent
    ones. *)
Lemma consistent_decides (d : domains) (a : assignment) :
  node_consistent d -> assignment_ok cw d a ->
  exists b, consistent cw a = Ok b /\
            (b = true -> is_consistent cw a) /\
            ((forall v w, In (v, w) a -> trailing_NUL w = false) ->
             is_consistent cw a -> b = true).
Proof.
  intros Hn Ha. destruct (consistent_total d a Hn Ha) as [b Hb].
  exists b. split; [assumption|]. split.
  - intros ->. now apply consistent_true_sound; [apply Ha|].
  - intros Hnul Hc.
    apply (consistent_true_iff a (proj1 Ha) Hnul) in Hc. congruence.
Qed.
End ConsistentFacts.

(** ** [select_unassigned_variable] *)

Lemma list_getitem_In {A : Type} (l : list A) (k : nat) (x : A) :
  list_getitem l k = Ok x -> In x l.
Proof.
  unfold list_getitem. destruct (nth_error l k) eqn:E; [|discriminate].
  intros [= <-]. now apply nth_error_In in E.
Qed.

Lemma list_getitem_lt {A : Type} (l : list A) (k : nat) :
  k < List.length l -> exists x, list_getitem l k = Ok x.
Proof.
  intros H. unfold list_getitem. destruct (nth_error l k) eqn:E; [eauto|].
  apply nth_error_None in E. lia.
Qed.

Lemma fewest_values_acc (l : list (Var * nat)) (m0 : nat) :
  exists m, fewest_values l (Some m0) = Some m /\ m <= m0 /\
            (forall e, In e l -> m <= snd e) /\
            (m = m0 \/ exists e, In e l /\ snd e = m).
Proof.
  revert m0. induction l as [|[v n] r IH]; simpl; intros m0.
  - exists m0. repeat split; auto. intros e [].
  - destruct (n <? m0) eqn:E.
    + apply Nat.ltb_lt in E. destruct (IH n) as (m & -> & Hle & Hall & Hex).
      exists m. repeat split; [lia | |].
      * intros e [<-|Hin]; simpl; auto.
      * right. destruct Hex as [->|(e & Hin & He)]; [exists (v, n)|exists e];
          simpl; auto.
    + apply Nat.ltb_ge in E. destruct (IH m0) as (m & -> & Hle & Hall & Hex).
      exists m. repeat split; [lia | |].
      * intros e [<-|Hin]; simpl; [lia | auto].
      * destruct Hex as [->|(e & Hin & He)]; [now left|].
        right. exists e. auto.
Qed.

Lemma fewest_values_min (l : list (Var * nat)) :
  l <> [] ->
  exists m, fewest_values l None = Some m /\
            (forall e, In e l -> m <= snd e) /\
            (exists e, In e l /\ snd e = m).
Proof.
  destruct l as [|[v n] r]; [congruence|]. intros _. simpl.
  destruct (fewest_values_acc r n) as (m & -> & Hle & Hall & Hex).
  exists m. repeat split.
  - intros e [<-|Hin]; simpl; auto.
  - destruct Hex as [->|(e & Hin & He)]; [exists (v, n)|exists e];
      simpl; auto.
Qed.

Section SelectFacts.
Variable cw : Crossword.

Lemma unassigned_In (a : assignment) (v : Var) :
  In v (unassigned cw a) <-> In v (variables cw) /\ ~ In v (keys a).
Proof.
  unfold unassigned. rewrite filter_In, negb_true_iff.
  now rewrite (dict_mem_false var_eqb var_eqb_eq).
Qed.

Lemma highest_degree_total (vc : list Var) (idxs : list nat) :
  forall n index,
    (forall i, In i idxs -> i < List.length vc) ->
    index < List.length vc ->
    exists k, highest_degree cw vc idxs n index = Ok k /\
              k < List.length vc.
Proof.
  induction idxs as [|i r IH]; simpl; intros n index Hi Hidx; [eauto|].
  destruct (list_getitem_lt vc i) as [v ->]; [apply Hi; now left|]. simpl.
  destruct (n <? List.length (neighbors cw v)); apply IH; auto.
Qed.

Lemma select_unassigned_variable_In (d : domains) (a : assignment) (var : Var) :
  select_unassigned_variable cw d a = Ok var -> In var (unassigned cw a).
Proof.
  unfold select_unassigned_variable. intros H.
  assert (Hin : In var (map fst (filter
            (fun e => match fewest_values
                               (map (fun var => (var, List.length (d var)))
                                    (unassigned cw a)) None with
                      | Some m => Nat.eqb (snd e) m
                      | None => false
                      end)
            (map (fun var => (var, List.length (d var)))
                 (unassigned cw a))))).
  { destruct (negb _).
    - inv_bind H. inv_bind H. now apply list_getitem_In in H.
    - now apply list_getitem_In in H. }
  apply in_map_iff in Hin. destruct Hin as ([v n] & <- & Hin).
  apply filter_In in Hin. destruct Hin as [Hin _].
  apply in_map_iff in Hin. destruct Hin as (v' & E & Hin).
  injection E as <- <-. exact Hin.
Qed.

(** With a variable left to assign, the heuristic returns an unassigned
    variable whose domain is the smallest. *)
Lemma select_unassigned_variable_total (d : domains) (a : assignment) :
  unassigned cw a <> [] ->
  exists var, select_unassigned_variable cw d a = Ok var /\
              In var (unassigned cw a) /\
              forall v, In v (unassigned cw a) ->
                        List.length (d var) <= List.length (d v).
Proof.
  intros Hne. unfold select_unassigned_variable.
  set (uv_sorted := map (fun var => (var, List.length (d var)))
                        (unassigned cw a)).
  assert (Hne' : uv_sorted <> []).
  { unfold uv_sorted. destruct (unassigned cw a); [congruence|discriminate]. }
  destruct (fewest_values_min uv_sorted Hne') as (m & -> & Hall & e & He & Hm).
  set (vc := map fst (filter (fun e => Nat.eqb (snd e) m) uv_sorted)).
  assert (Hvc : forall v, In v vc ->
                  In v (unassigned cw a) /\ List.length (d v) = m).
  { intros v Hv. apply in_map_iff in Hv. destruct Hv as ([v' n] & <- & Hv).
    apply filter_In in Hv. destruct Hv as [Hv En]. simpl in *.
    apply Nat.eqb_eq in En. apply in_map_iff in Hv.
    destruct Hv as (v0 & E & Hv). injection E as <- <-. auto. }
  assert (Hpos : 0 < List.length vc).
  { assert (In (fst e) vc).
    { apply in_map. apply filter_In. split; [assumption|].
      now apply Nat.eqb_eq. }
    destruct vc; [contradiction | simpl; lia]. }
  assert (Hres : forall var, In var vc ->
            In var (unassigned cw a) /\
            forall v, In v (unassigned cw a) ->
                      List.length (d var) <= List.length (d v)).
  { intros var Hv. destruct (Hvc var Hv) as [Hu ->]. split; [assumption|].
    intros v Hin. apply (Hall (v, List.length (d v))).
    unfold uv_sorted. apply in_map_iff. eauto. }
  destruct (negb (Nat.eqb (List.length vc) 1)).
  - destruct (list_getitem_lt vc 0 Hpos) as [v0 Hv0]. rewrite Hv0. simpl.
    destruct (highest_degree_total vc (seq 1 (List.length vc - 1))
                (List.length (neighbors cw v0)) 0) as (k & -> & Hk); auto.
    { intros i Hi. apply in_seq in Hi. lia. }
    simpl. destruct (list_getitem_lt vc k Hk) as [var Hvar].
    exists var. split; [assumption|]. apply Hres.
    now apply list_getitem_In in Hvar.
  - destruct (list_getitem_lt vc 0 Hpos) as [var Hvar].
    exists var. split; [assumption|]. apply Hres.
    now apply list_getitem_In in Hvar.
Qed.
End SelectFacts.

(** ** [order_domain_values] *)

Lemma dict_set_set {K V : Type} (eqb : K -> K -> bool)
      (r : list (K * V)) (k : K) (v1 v2 : V) :
  (forall a b, eqb a b = true <-> a = b) ->
  dict_set eqb (dict_set eqb r k v1) k v2 = dict_set eqb r k v2.
Proof.
  intros Heq. induction r as [|[k' v'] r IH]; simpl.
  - now rewrite (eqb_refl' eqb Heq).
  - destruct (eqb k' k) eqn:E; simpl; rewrite E; [reflexivity|].
    now rewrite IH.
Qed.

Lemma disagree_getitem (i j : nat) (w1 w2 : word) (c1 c2 : ascii) :
  getitem w1 i = Ok c1 -> getitem w2 j = Ok c2 ->
  disagree i j w1 w2 = negb (Ascii.eqb c1 c2).
Proof.
  intros H1 H2. apply getitem_Ok in H1, H2. unfold disagree.
  now rewrite H1, H2.
Qed.

Lemma count_eliminated_spec (i j : nat) (w1 : word) (ws2 : list word) :
  i < String.length w1 ->
  (forall w2, In w2 ws2 -> j < String.length w2) ->
  forall nb result,
    count_eliminated (Some (i, j)) w1 ws2 nb result =
    Ok (let k := List.length (filter (disagree i j w1) ws2) in
        if Nat.eqb k 0 then result
        else dict_set word_eqb result w1 (nb + k)).
Proof.
  intros Hi. induction ws2 as [|w2 r IH]; intros Hj nb result; simpl;
    [reflexivity|].
  destruct (getitem_lt w1 i Hi) as [c1 H1].
  destruct (getitem_lt w2 j (Hj w2 (or_introl eq_refl))) as [c2 H2].
  rewrite H1, H2. simpl. rewrite (disagree_getitem i j w1 w2 c1 c2 H1 H2).
  assert (Hr : forall w, In w r -> j < String.length w)
    by (intros; apply Hj; now right).
  destruct (negb (Ascii.eqb c1 c2)); rewrite (IH Hr); simpl; [|reflexivity].
  destruct (List.length (filter (disagree i j w1) r)) as [|k]; simpl.
  - do 2 f_equal. lia.
  - rewrite (dict_set_set word_eqb _ _ _ _ word_eqb_eq). do 2 f_equal. lia.
Qed.

Lemma eliminated_by_keys (i j : nat) (ws1 ws2 : list word) :
  (forall w1, In w1 ws1 -> i < String.length w1) ->
  (forall w2, In w2 ws2 -> j < String.length w2) ->
  forall result,
  exists result',
    eliminated_by (Some (i, j)) ws1 ws2 result = Ok result' /\
    forall w, In w (keys result') <->
              In w (keys result) \/
              (In w ws1 /\ List.length (filter (disagree i j w) ws2) <> 0).
Proof.
  intros H1 H2. induction ws1 as [|w1 r IH]; intros result; simpl.
  - exists result. split; [reflexivity|]. intros w. tauto.
  - rewrite count_eliminated_spec; auto; [|apply H1; now left]. simpl.
    destruct (IH (fun w Hw => H1 w (or_intror Hw))
                 (if Nat.eqb (List.length (filter (disagree i j w1) ws2)) 0
                  then result
                  else dict_set word_eqb result w1
                         (List.length (filter (disagree i j w1) ws2))))
      as (result' & -> & Hk).
    exists result'. split; [reflexivity|]. intros w. rewrite Hk.
    destruct (Nat.eqb (List.length (filter (disagree i j w1) ws2)) 0) eqn:E.
    + apply Nat.eqb_eq in E. split.
      * intros [?|[? ?]]; auto.
      * intros [?|[[<-|?] ?]]; auto. contradiction.
    + apply Nat.eqb_neq in E.
      rewrite (dict_set_In_keys word_eqb word_eqb_eq). split.
      * intros [[->|?]|[? ?]]; auto.
      * intros [?|[[<-|?] ?]]; auto.
Qed.

Lemma keys_nil {K V : Type} (r : list (K * V)) :
  (forall k, ~ In k (keys r)) -> r = [].
Proof.
  destruct r as [|[k v] r]; [reflexivity|]. intros H.
  exfalso. apply (H k). now left.
Qed.

Lemma insert_by_key_perm (x : nat * word) (l : list (nat * word)) :
  Permutation (insert_by_key x l) (x :: l).
Proof.
  induction l as [|y r IH]; simpl; [apply Permutation_refl|].
  destruct (fst x <=? fst y); [apply Permutation_refl|].
  eapply perm_trans; [apply perm_skip, IH | apply perm_swap].
Qed.

Lemma sort_by_key_perm (l : list (nat * word)) :
  Permutation (sort_by_key l) l.
Proof.
  induction l as [|x r IH]; simpl; [constructor|].
  eapply perm_trans; [apply insert_by_key_perm | now apply perm_skip].
Qed.

Lemma sort_keys_snd (result : list (word * nat)) (ws : list word)
      (ks : list (nat * word)) :
  sort_keys result ws = Ok ks -> map snd ks = ws.
Proof.
  revert ks. induction ws as [|w r IH]; simpl; intros ks H.
  - now injection H as <-.
  - inv_bind H. inv_bind H. injection H as <-. simpl. f_equal. auto.
Qed.

Lemma sort_keys_total (result : list (word * nat)) (ws : list word) :
  (forall w, In w ws -> In w (keys result)) ->
  exists ks, sort_keys result ws = Ok ks.
Proof.
  induction ws as [|w r IH]; simpl; intros H; [eauto|].
  unfold dict_getitem.
  destruct (dict_get word_eqb result w) eqn:E.
  - simpl. destruct IH as [ks ->]; [intros; apply H; now right|].
    simpl. eauto.
  - apply (dict_get_None word_eqb word_eqb_eq) in E.
    exfalso. apply E, H. now left.
Qed.

Section OrderFacts.
Variable cw : Crossword.

Lemma order_domain_values_perm (d : domains) (var : Var) (a : assignment)
      (l : list word) :
  order_domain_values cw d var a = Ok l -> Permutation l (d var).
Proof.
  unfold order_domain_values, sorted. intros H. inv_bind H.
  destruct (Nat.eqb (List.length x) 0).
  - injection H as <-. apply Permutation_refl.
  - inv_bind H. injection H as <-.
    rewrite <- (sort_keys_snd _ _ _ Hx0).
    apply Permutation_map, sort_by_key_perm.
Qed.

Lemma eliminated_all_empty (d : domains) (var : Var) (a : assignment)
      (ns : list Var) (result : list (word * nat)) :
  d var = [] -> eliminated_all cw d var a ns result = Ok result.
Proof.
  intros He. induction ns as [|n r IH]; simpl; [reflexivity|].
  destruct (negb (dict_mem var_eqb a n)); [|assumption].
  rewrite He. simpl. assumption.
Qed.

Lemma eliminated_all_assigned (d : domains) (var : Var) (a : assignment)
      (ns : list Var) (result : list (word * nat)) :
  (forall n, In n ns -> dict_mem var_eqb a n = true) ->
  eliminated_all cw d var a ns result = Ok result.
Proof.
  induction ns as [|n r IH]; simpl; intros H; [reflexivity|].
  rewrite (H n (or_introl eq_refl)). simpl. apply IH.
  intros; apply H. now right.
Qed.

(** Without an unassigned neighbor the domain is returned as it is stored. *)
Lemma order_domain_values_all_assigned (d : domains) (var : Var)
      (a : assignment) :
  (forall n, In n (neighbors cw var) -> dict_mem var_eqb a n = true) ->
  order_domain_values cw d var a = Ok (d var).
Proof.
  intros H. unfold order_domain_values.
  now rewrite eliminated_all_assigned.
Qed.

(** A variable with an empty domain has no value to order. *)
Lemma order_domain_values_empty (d : domains) (var : Var) (a : assignment) :
  d var = [] -> order_domain_values cw d var a = Ok [].
Proof.
  intros He. unfold order_domain_values.
  rewrite eliminated_all_empty by assumption. simpl. now rewrite He.
Qed.

Hypothesis WF : well_formed cw = true.

(** On arc-consistent domains a neighbor eliminates something for every
    word of the variable or for none. *)
Lemma eliminated_all_or_none (d : domains) (var n : Var) (i j : nat)
      (w1 : word) :
  node_consistent d -> arc_consistent cw d ->
  In var (variables cw) -> In n (variables cw) ->
  overlaps cw var n = Some (i, j) ->
  In w1 (d var) ->
  List.length (filter (disagree i j w1) (d n)) = 0 ->
  forall w, In w (d var) ->
            List.length (filter (disagree i j w) (d n)) = 0.
Proof.
  intros Hn Hac Hvar Hnv Ho Hw1 Hz w Hw.
  destruct (wf_overlap cw WF var n i j Hvar Hnv Ho) as (_ & Hi & Hj & _).
  apply length_zero_iff_nil in Hz. apply length_zero_iff_nil.
  destruct (Hac var n Hvar Hnv i j Ho w Hw) as (u & Hu & c & Hc1 & Hc2).
  assert (Hall : forall w2, In w2 (d n) -> String.get j w2 = Some c).
  { intros w2 Hw2.
    assert (Hd : disagree i j w1 w2 = false).
    { destruct (disagree i j w1 w2) eqn:E; [|reflexivity].
      assert (In w2 (filter (disagree i j w1) (d n)))
        by (apply filter_In; auto).
      rewrite Hz in H. destruct H. }
    assert (Hdu : disagree i j w1 u = false).
    { destruct (disagree i j w1 u) eqn:E; [|reflexivity].
      assert (In u (filter (disagree i j w1) (d n)))
        by (apply filter_In; auto).
      rewrite Hz in H. destruct H. }
    unfold disagree in Hd, Hdu.
    destruct (get_lt w1 i) as [c1 Hg1]; [rewrite (Hn _ _ Hw1); lia|].
    destruct (get_lt w2 j) as [c2 Hg2]; [rewrite (Hn _ _ Hw2); lia|].
    rewrite Hg1, Hg2 in Hd. rewrite Hg1, Hc2 in Hdu.
    apply negb_false_iff, Ascii.eqb_eq in Hd, Hdu. congruence. }
  destruct (filter (disagree i j w) (d n)) as [|w2 r] eqn:E; [reflexivity|].
  assert (Hin : In w2 (filter (disagree i j w) (d n)))
    by (rewrite E; now left).
  apply filter_In in Hin. destruct Hin as [Hin Hd].
  unfold disagree in Hd. rewrite Hc1, (Hall w2 Hin) in Hd.
  now rewrite Ascii.eqb_refl in Hd.
Qed.

Lemma eliminated_all_total (d : domains) (var : Var) (a : assignment) :
  node_consistent d -> arc_consistent cw d -> In var (variables cw) ->
  forall ns result,
    incl ns (neighbors cw var) ->
    (result = [] \/ forall w, In w (d var) -> In w (keys result)) ->
    exists result',
      eliminated_all cw d var a ns result = Ok result' /\
      (result' = [] \/ forall w, In w (d var) -> In w (keys result')).
Proof.
  intros Hn Hac Hvar. induction ns as [|n r IH]; simpl; intros result Hi HP;
    [eauto|].
  assert (Hr : incl r (neighbors cw var)) by (intros ? ?; apply Hi; now right).
  destruct (negb (dict_mem var_eqb a n)); [|auto].
  assert (Hnb : In n (neighbors cw var)) by (apply Hi; now left).
  apply neighbors_In in Hnb. destruct Hnb as [Hnv Hov].
  unfold has_overlap in Hov.
  destruct (overlaps cw var n) as [[i j]|] eqn:Ho; [|discriminate].
  destruct (wf_overlap cw WF var n i j Hvar Hnv Ho) as (_ & Hilt & Hjlt & _).
  destruct (eliminated_by_keys i j (d var) (d n)) with (result := result)
    as (result' & -> & Hk).
  { intros w Hw. now rewrite (Hn _ _ Hw). }
  { intros w Hw. now rewrite (Hn _ _ Hw). }
  simpl. apply IH; [assumption|].
  destruct (existsb (fun w => Nat.eqb
              (List.length (filter (disagree i j w) (d n))) 0) (d var))
    eqn:Ez.
  - apply existsb_exists in Ez. destruct Ez as (w1 & Hw1 & Hz).
    apply Nat.eqb_eq in Hz.
    pose proof (eliminated_all_or_none d var n i j w1 Hn Hac Hvar Hnv Ho
                  Hw1 Hz) as Hall.
    destruct HP as [->|HP].
    + left. apply keys_nil. intros k Hin. apply Hk in Hin.
      destruct Hin as [[]|[Hin Hnz]]. apply Hnz. now apply Hall.
    + right. intros w Hw. apply Hk. left. now apply HP.
  - right. intros w Hw. apply Hk. right. split; [assumption|].
    intros Hz. apply Nat.eqb_eq in Hz.
    assert (existsb (fun w => Nat.eqb
              (List.length (filter (disagree i j w) (d n))) 0) (d var)
            = true); [|congruence].
    apply existsb_exists. eauto.
Qed.

(** On node- and arc-consistent domains the value ordering raises nothing:
    the [result] table is empty or has a key for every word. *)
Lemma order_domain_values_total (d : domains) (var : Var) (a : assignment) :
  node_consistent d -> arc_consistent cw d -> In var (variables cw) ->
  exists l, order_domain_values cw d var a = Ok l.
Proof.
  intros Hn Hac Hvar. unfold order_domain_values.
  destruct (eliminated_all_total d var a Hn Hac Hvar (neighbors cw var) [])
    as (result & -> & HP); [apply incl_refl | now left |].
  simpl. destruct HP as [->|HP]; simpl; [eauto|].
  destruct (Nat.eqb (List.length result) 0); [eauto|].
  unfold sorted. destruct (sort_keys_total result (d var) HP) as [ks ->].
  simpl. eauto.
Qed.
End OrderFacts.

(** ** [backtrack] *)

Lemma dict_set_In {K V : Type} (eqb : K -> K -> bool)
      (d : list (K * V)) (k k0 : K) (v v0 : V) :
  (forall a b, eqb a b = true <-> a = b) ->
  In (k0, v0) (dict_set eqb d k v) -> (k0, v0) = (k, v) \/ In (k0, v0) d.
Proof.
  intros Heq. induction d as [|[k' v'] d IH]; simpl.
  - intros [E|[]]. left. now symmetry.
  - destruct (eqb k' k) eqn:E; simpl.
    + apply Heq in E. subst k'. intros [E0|Hin]; [|auto]. left. now symmetry.
    + intros [E0|Hin]; [auto|]. destruct (IH Hin); auto.
Qed.

Lemma dict_remove_In {K V : Type} (eqb : K -> K -> bool)
      (d : list (K * V)) (k : K) (e : K * V) :
  In e (dict_remove eqb d k) -> In e d.
Proof.
  induction d as [|[k' v'] d IH]; simpl; [tauto|].
  destruct (eqb k' k); simpl; [auto|]. intros [?|?]; auto.
Qed.

Lemma filter_length_lt2 {A : Type} (f g : A -> bool) (l : list A) (x : A) :
  (forall y, f y = true -> g y = true) ->
  In x l -> g x = true -> f x = false ->
  List.length (filter f l) < List.length (filter g l).
Proof.
  intros Hfg. induction l as [|y l IH]; simpl; [tauto|].
  assert (Hle : List.length (filter f l) <= List.length (filter g l)).
  { clear IH. induction l as [|z l IHl]; simpl; [lia|].
    destruct (f z) eqn:Ef.
    - rewrite (Hfg z Ef). simpl. lia.
    - destruct (g z); simpl; lia. }
  intros [->|Hin] Hg Hf.
  - rewrite Hg, Hf. simpl. lia.
  - specialize (IH Hin Hg Hf). destruct (f y) eqn:Ef.
    + rewrite (Hfg y Ef). simpl. lia.
    + destruct (g y); simpl; lia.
Qed.

Section BacktrackFacts.
Variable cw : Crossword.
Variable d : domains.

Lemma dict_ok_set (a : assignment) (var : Var) (v : word) :
  In var (variables cw) -> dict_ok cw a -> dict_ok cw (dict_set var_eqb a var v).
Proof.
  intros Hvar [Hnd Hin]. split.
  - now apply dict_set_NoDup; [apply var_eqb_eq|].
  - intros k Hk. apply (dict_set_In_keys var_eqb var_eqb_eq) in Hk.
    destruct Hk as [->|Hk]; auto.
Qed.

Lemma dict_ok_remove (a : assignment) (var : Var) :
  dict_ok cw a -> dict_ok cw (dict_remove var_eqb a var).
Proof.
  intros [Hnd Hin]. split.
  - now apply dict_remove_NoDup; [apply var_eqb_eq|].
  - intros k Hk.
    apply (dict_remove_In_keys var_eqb var_eqb_eq) in Hk; [|assumption].
    apply Hin. tauto.
Qed.

Lemma try_values_sound
      (recurse : assignment -> res (option assignment * assignment))
      (var : Var) :
  (forall a1 out, dict_ok cw a1 -> recurse a1 = Ok out ->
                  returns_sound cw a1 out) ->
  In var (variables cw) ->
  forall vs a out,
    dict_ok cw a -> try_values cw recurse var vs a = Ok out ->
    dict_ok cw (snd out) /\
    forall s, fst out = Some s ->
      s = snd out /\ assignment_complete cw s = true /\
      consistent cw s = Ok true.
Proof.
  intros Hrec Hvar. induction vs as [|v rest IH]; simpl; intros a out Ha H.
  - injection H as <-. simpl. split; [assumption | discriminate].
  - pose proof (dict_ok_set a var v Hvar Ha) as Ha1.
    inv_bind H. destruct x.
    + inv_bind H. destruct x as [result a2]. simpl in H.
      destruct (Hrec _ _ Ha1 Hx0) as [Ha2 Hs]. simpl in Ha2, Hs.
      destruct result as [s|].
      * injection H as <-. simpl. split; [assumption|].
        intros s' [= <-]. destruct (Hs s eq_refl) as (-> & Hc & [->|Hk]);
          auto.
      * inv_bind H. unfold dict_pop in Hx1.
        destruct (dict_mem var_eqb a2 var); [|discriminate].
        injection Hx1 as <-. apply (IH _ _ (dict_ok_remove a2 var Ha2) H).
    + apply (IH _ _ Ha1 H).
Qed.

Lemma backtrack_rec_sound (fuel : nat) :
  forall a out, dict_ok cw a -> backtrack_rec cw d fuel a = Ok out ->
                returns_sound cw a out.
Proof.
  induction fuel as [|fuel IH]; simpl; intros a out Ha H; [discriminate|].
  destruct (assignment_complete cw a) eqn:Ec.
  - injection H as <-. split; [assumption|]. simpl.
    intros s [= <-]. auto.
  - inv_bind H. inv_bind H.
    apply select_unassigned_variable_In, unassigned_In in Hx.
    destruct Hx as [Hvar _].
    destruct (try_values_sound _ x IH Hvar _ _ _ Ha H) as [Hok Hs].
    split; [assumption|]. intros s Es.
    destruct (Hs s Es) as (? & ? & ?). auto.
Qed.

Lemma complete_is_complete (a : assignment) :
  dict_ok cw a -> assignment_complete cw a = true -> is_complete cw a.
Proof.
  intros [Hnd Hin] Hc. split; [assumption|]. intros v. split; [apply Hin|].
  intros Hv. unfold assignment_complete in Hc.
  destruct (unassigned cw a) eqn:E; [|discriminate].
  destruct (in_dec Var_eq_dec v (keys a)) as [|Hn]; [assumption|].
  assert (In v (unassigned cw a)) by (apply unassigned_In; auto).
  rewrite E in H. destruct H.
Qed.

(** *** Termination and absence of exceptions *)

Hypothesis WF : well_formed cw = true.
Hypothesis Hnode : node_consistent d.

Lemma assignment_ok_set (a : assignment) (var : Var) (v : word) :
  In var (variables cw) -> In v (d var) ->
  assignment_ok cw d a -> assignment_ok cw d (dict_set var_eqb a var v).
Proof.
  intros Hvar Hv [Hnd Hin]. split.
  - now apply dict_set_NoDup; [apply var_eqb_eq|].
  - intros k w Hk. apply (dict_set_In var_eqb) in Hk; [|apply var_eqb_eq].
    destruct Hk as [[= -> ->]|Hk]; auto.
Qed.

Lemma assignment_ok_remove (a : assignment) (var : Var) :
  assignment_ok cw d a -> assignment_ok cw d (dict_remove var_eqb a var).
Proof.
  intros [Hnd Hin]. split.
  - now apply dict_remove_NoDup; [apply var_eqb_eq|].
  - intros k w Hk. apply dict_remove_In in Hk. auto.
Qed.

Lemma unassigned_shrinks (a0 a1 : assignment) (var : Var) :
  incl (keys a0) (keys a1) -> In var (keys a1) ->
  In var (variables cw) -> ~ In var (keys a0) ->
  List.length (unassigned cw a1) < List.length (unassigned cw a0).
Proof.
  intros Hi H1 Hvar H0. unfold unassigned.
  apply filter_length_lt2 with (x := var); auto.
  - intros y. rewrite !negb_true_iff.
    rewrite !(dict_mem_false var_eqb var_eqb_eq). auto.
  - now apply negb_true_iff, (dict_mem_false var_eqb var_eqb_eq).
  - now apply negb_false_iff, (dict_mem_In var_eqb var_eqb_eq).
Qed.

Lemma try_values_total
      (recurse : assignment -> res (option assignment * assignment))
      (fuel : nat) (var : Var) (a0 : assignment) :
  (forall a1, assignment_ok cw d a1 ->
              List.length (unassigned cw a1) < fuel ->
              exists out, recurse a1 = Ok out /\ returns_ok cw d a1 out) ->
  In var (variables cw) -> ~ In var (keys a0) ->
  List.length (unassigned cw a0) <= fuel ->
  forall vs a,
    incl vs (d var) -> assignment_ok cw d a -> incl (keys a0) (keys a) ->
    exists out, try_values cw recurse var vs a = Ok out /\
                returns_ok cw d a0 out.
Proof.
  intros Hrec Hvar Hnew Hfuel.
  induction vs as [|v rest IH]; simpl; intros a Hvs Ha Hk.
  - eexists. split; [reflexivity|]. split; assumption.
  - assert (Hv : In v (d var)) by (apply Hvs; now left).
    assert (Hrest : incl rest (d var)) by (intros ? ?; apply Hvs; now right).
    pose proof (assignment_ok_set a var v Hvar Hv Ha) as Ha1.
    assert (Hk1 : incl (keys a0) (keys (dict_set var_eqb a var v))).
    { intros k Hin. apply (dict_set_In_keys var_eqb var_eqb_eq). auto. }
    destruct (consistent_total cw WF d _ Hnode Ha1) as [ok ->]. simpl.
    destruct ok; [|apply IH; auto].
    destruct (Hrec _ Ha1) as ([result a2] & -> & Ha2 & Hk2).
    { eapply Nat.lt_le_trans; [|exact Hfuel].
      apply unassigned_shrinks with (var := var); auto.
      apply (dict_set_In_keys var_eqb var_eqb_eq). now left. }
    simpl in *. destruct result as [s|].
    + eexists. split; [reflexivity|]. split; simpl; [assumption|].
      eapply incl_tran; eassumption.
    + unfold dict_pop.
      assert (Hm : dict_mem var_eqb a2 var = true).
      { apply (dict_mem_In var_eqb var_eqb_eq). apply Hk2.
        apply (dict_set_In_keys var_eqb var_eqb_eq). now left. }
      rewrite Hm. simpl. apply IH; auto.
      * now apply assignment_ok_remove.
      * intros k Hin.
        apply (dict_remove_In_keys var_eqb var_eqb_eq); [apply Ha2|].
        split; [congruence|]. apply Hk2, Hk1, Hin.
Qed.

Hypothesis Harc : arc_consistent cw d.

Lemma backtrack_rec_total (fuel : nat) :
  forall a, assignment_ok cw d a ->
            List.length (unassigned cw a) < fuel ->
            exists out, backtrack_rec cw d fuel a = Ok out /\
                        returns_ok cw d a out.
Proof.
  induction fuel as [|fuel IH]; simpl; intros a Ha Hf; [lia|].
  destruct (assignment_complete cw a) eqn:Ec.
  - eexists. split; [reflexivity|]. split; [assumption | apply incl_refl].
  - assert (Hne : unassigned cw a <> []).
    { unfold assignment_complete in Ec.
      destruct (unassigned cw a); [discriminate | congruence]. }
    destruct (select_unassigned_variable_total cw d a Hne)
      as (var & -> & Hvar & _).
    apply unassigned_In in Hvar. destruct Hvar as [Hvar Hnew]. simpl.
    destruct (order_domain_values_total cw WF d var a Hnode Harc Hvar)
      as [l Hl].
    rewrite Hl. simpl.
    apply order_domain_values_perm in Hl.
    apply try_values_total with (fuel := fuel) (a0 := a); auto.
    + lia.
    + intros w Hw. eapply Permutation_in; eassumption.
    + apply incl_refl.
Qed.
End BacktrackFacts.

(** ** [solve] *)

Lemma dict_ok_nil (cw : Crossword) : dict_ok cw [].
Proof. split; [constructor | intros ? []]. Qed.

Lemma assignment_ok_nil (cw : Crossword) (d : domains) : assignment_ok cw d [].
Proof. split; [constructor | intros ? ? []]. Qed.

Lemma unassigned_length (cw : Crossword) (a : assignment) :
  List.length (unassigned cw a) <= List.length (variables cw).
Proof. apply filter_length_le. Qed.

(** With an empty domain in the store, the search from the empty assignment
    selects a variable without values and gives up at once. *)
Lemma backtrack_empty_domain (cw : Crossword) (d : domains) (x : Var) :
  In x (variables cw) -> d x = [] -> backtrack cw d [] = Ok (None, []).
Proof.
  intros Hx He. unfold backtrack. simpl.
  assert (Hu : In x (unassigned cw [])) by (apply unassigned_In; auto).
  assert (Hne : unassigned cw [] <> []).
  { intros E. rewrite E in Hu. destruct Hu. }
  assert (Ec : assignment_complete cw [] = false).
  { unfold assignment_complete.
    destruct (unassigned cw []); [congruence | reflexivity]. }
  rewrite Ec.
  destruct (select_unassigned_variable_total cw d [] Hne)
    as (var & -> & _ & Hmin).
  simpl. specialize (Hmin x Hu). rewrite He in Hmin. simpl in Hmin.
  assert (Hv : d var = []) by (destruct (d var); [reflexivity | simpl in Hmin; lia]).
  rewrite (order_domain_values_empty cw d var [] Hv). reflexivity.
Qed.

(** C5. An assignment returned by [solve] is complete (exactly one word for
    every variable of the puzzle) and consistent (pairwise distinct words,
    each of its variable's length, agreeing at every overlap of assigned
    neighbors); it passes [consistent]. *)
Theorem solve_sound (cw : Crossword) (a : assignment) :
  solve cw = Ok (Some a) ->
  is_complete cw a /\ is_consistent cw a /\ consistent cw a = Ok true.
Proof.
  unfold solve. intros H. inv_bind H. destruct x as [r d2]. simpl in H.
  inv_bind H. destruct x as [result a']. simpl in H. injection H as ->.
  unfold backtrack in Hx0.
  destruct (backtrack_rec_sound cw d2 _ _ _ (dict_ok_nil cw) Hx0) as [Hok Hs].
  destruct (Hs a eq_refl) as (-> & Hc & Hcons). simpl in *.
  assert (Hcons' : consistent cw a' = Ok true).
  { destruct Hcons as [->|]; [reflexivity | assumption]. }
  split; [now apply complete_is_complete|]. split; [|assumption].
  apply consistent_true_sound; [apply Hok | assumption].
Qed.

(** C3. On a well-formed puzzle [solve] ends normally: it raises no
    exception, stays within the step budgets of the model, and returns
    either [None] or a complete assignment. *)
Theorem solve_total (cw : Crossword) :
  well_formed cw = true ->
  exists r, solve cw = Ok r /\
            match r with
            | Some a => is_complete cw a
            | None => True
            end.
Proof.
  intros WF. unfold solve.
  set (d1 := enforce_node_consistency (init_domains cw)).
  assert (Hn1 : node_consistent d1)
    by apply enforce_node_consistency_node_consistent.
  destruct (ac3_loop_total cw WF (ac3_budget cw d1 (initial_arcs cw)) d1
              (initial_arcs cw) Hn1 (initial_arcs_ok cw WF))
    as (r0 & d2 & Hac); [unfold ac3_budget; lia|].
  unfold ac3. rewrite Hac. simpl.
  assert (Hn2 : node_consistent d2).
  { apply node_consistent_incl with (d := d1); [|assumption].
    apply (ac3_loop_incl cw _ _ _ _ _ Hac). }
  assert (Hb : exists out, backtrack cw d2 [] = Ok out).
  { destruct (ac3_loop_result cw WF _ _ _ _ _ (initial_arcs_ok cw WF) Hac)
      as [->|(-> & x & Hx & He)].
    - pose proof (ac3_loop_sound cw WF _ _ _ _ (initial_arcs_ok cw WF)
                    (initial_arcs_inv cw WF d1) Hac) as Harc.
      destruct (backtrack_rec_total cw d2 WF Hn2 Harc
                  (S (List.length (variables cw))) [])
        as (out & Hout & _); [apply assignment_ok_nil | |eauto].
      pose proof (unassigned_length cw []). lia.
    - rewrite (backtrack_empty_domain cw d2 x Hx He). eauto. }
  destruct Hb as ([result a'] & Hb). rewrite Hb. simpl.
  exists result. split; [reflexivity|].
  destruct result as [s|]; [|exact I].
  unfold backtrack in Hb.
  destruct (backtrack_rec_sound cw d2 _ _ _ (dict_ok_nil cw) Hb) as [Hok Hs].
  destruct (Hs s eq_refl) as (-> & Hc & _).
  now apply complete_is_complete.
Qed.

(** ** The example puzzles *)

Import Examples.

Lemma solve_total_witness :
  well_formed cw_cat = true /\
  exists r, solve cw_cat = Ok r /\
            match r with
            | Some a => is_complete cw_cat a
            | None => True
            end.
Proof.
  split; [reflexivity|]. apply (solve_total cw_cat). reflexivity.
Defined.

Lemma solve_sound_witness :
  solve cw_cat = Ok (Some [(x, "CAT"%string); (y, "TAR"%string)]) /\
  is_complete cw_cat [(x, "CAT"%string); (y, "TAR"%string)] /\
  is_consistent cw_cat [(x, "CAT"%string); (y, "TAR"%string)] /\
  consistent cw_cat [(x, "CAT"%string); (y, "TAR"%string)] = Ok true.
Proof.
  split; [vm_compute; reflexivity|].
  apply (solve_sound cw_cat). vm_compute. reflexivity.
Defined.

Lemma ac3_arc_consistent_witness :
  well_formed cw_cat = true /\
  ac3 cw_cat (enforce_node_consistency (init_domains cw_cat)) None
  = Ok (None, pruned_domains cw_cat) /\
  exists w', In w' (pruned_domains cw_cat y) /\ agree 2 0 "CAT"%string w'.
Proof.
  split; [reflexivity|]. split; [vm_compute; reflexivity|].
  apply (ac3_arc_consistent cw_cat
           (enforce_node_consistency (init_domains cw_cat))
           (pruned_domains cw_cat)) with (x := x).
  - reflexivity.
  - vm_compute. reflexivity.
  - simpl. auto.
  - vm_compute. auto.
  - vm_compute. auto.
  - reflexivity.
Defined.

Lemma ac3_idempotent_witness :
  well_formed cw_cat = true /\
  ac3 cw_cat (enforce_node_consistency (init_domains cw_cat)) None
  = Ok (None, pruned_domains cw_cat) /\
  exists d', ac3 cw_cat (pruned_domains cw_cat) None = Ok (None, d') /\
             forall v, d' v = pruned_domains cw_cat v.
Proof.
  split; [reflexivity|]. split; [vm_compute; reflexivity|].
  apply (ac3_idempotent cw_cat
           (enforce_node_consistency (init_domains cw_cat))).
  - reflexivity.
  - vm_compute. reflexivity.
Defined.

(** ** Where the code departs from its documentation *)

(** C1. [backtrack] does not always restore the assignment before it
    returns [None]: on the puzzle [cw_stale], called (as [solve] does) on the
    assignment [{x: AAB}], it tries DEF and AAB for [u], both rejected by
    [consistent], and returns [None] with the binding [u: AAB] still in the
    dictionary.  The [pop] is only reached when [consistent] accepted the
    value. *)
Theorem backtrack_leaves_binding :
  consistent cw_stale [(x, "AAB"%string)] = Ok true /\
  backtrack cw_stale (pruned_domains cw_stale) [(x, "AAB"%string)]
  = Ok (None, [(x, "AAB"%string); (u, "AAB"%string)]).
Proof. split; vm_compute; reflexivity. Qed.

Lemma cw_stale_solution :
  is_complete cw_stale [(x, "CDE"%string); (u, "DEF"%string)] /\
  is_consistent cw_stale [(x, "CDE"%string); (u, "DEF"%string)].
Proof.
  assert (Hd : dict_ok cw_stale [(x, "CDE"%string); (u, "DEF"%string)]).
  { split.
    - apply nodupb_NoDup with (eqb := var_eqb); [apply var_eqb_eq|reflexivity].
    - intros v Hv. exact Hv. }
  split.
  - apply complete_is_complete; [exact Hd | reflexivity].
  - apply consistent_true_sound; [apply Hd | vm_compute; reflexivity].
Qed.

(** C2. [solve] can miss a solution: the well-formed puzzle [cw_stale] has
    the complete consistent assignment [{x: CDE, u: DEF}] made of words of
    the word set, yet [solve] returns [None].  The binding [u: AAB] left
    behind by the failed call of [backtrack] makes [consistent] reject
    [x: CDE]. *)
Theorem solve_misses_solution :
  well_formed cw_stale = true /\
  is_complete cw_stale [(x, "CDE"%string); (u, "DEF"%string)] /\
  is_consistent cw_stale [(x, "CDE"%string); (u, "DEF"%string)] /\
  incl (values [(x, "CDE"%string); (u, "DEF"%string)]) (words cw_stale) /\
  solve cw_stale = Ok None.
Proof.
  split; [reflexivity|].
  split; [apply cw_stale_solution|]. split; [apply cw_stale_solution|].
  split; [|vm_compute; reflexivity].
  intros w [<-|[<-|[]]]; simpl; auto.
Qed.

(** The loss does not hinge on [x] being enumerated before [u]: with [u]
    first and the words enumerated as CDE, AAB, DEF the search fails in the
    same way. *)
Lemma solve_other_order_fails : solve cw_stale' = Ok None.
Proof. vm_compute. reflexivity. Qed.

(** C4. [order_domain_values] does not sort by the elimination count summed
    over the unassigned neighbors: the table entry of a word is overwritten
    by each neighbor, so the order is that of the counts for the neighbor
    seen last.  On [cw_lcv], with both neighbors of [x] unassigned, the
    summed counts of APD, BPE, CPF are 7, 8, 9 and the function returns
    APD, CPF, BPE; with the neighbors enumerated the other way round
    ([cw_lcv']) it returns BPE, APD, CPF. *)
Theorem order_domain_values_not_by_sum :
  map (elimination_count cw_lcv (pruned_domains cw_lcv) x [])
      ["APD"; "BPE"; "CPF"]%string = [7; 8; 9] /\
  order_domain_values cw_lcv (pruned_domains cw_lcv) x []
  = Ok ["APD"; "CPF"; "BPE"]%string /\
  ascending (elimination_count cw_lcv (pruned_domains cw_lcv) x [])
            ["APD"; "CPF"; "BPE"]%string = false /\
  order_domain_values cw_lcv' (pruned_domains cw_lcv') x []
  = Ok ["BPE"; "APD"; "CPF"]%string /\
  ascending (elimination_count cw_lcv' (pruned_domains cw_lcv') x [])
            ["BPE"; "APD"; "CPF"]%string = false.
Proof. repeat split; vm_compute; reflexivity. Qed.

(** A word that eliminates nothing gets no entry in the table, so sorting
    raises [KeyError] as soon as another word has one: here on [cw_cat] with
    the domains CAT, DOG for [x] and TAR for [y]. *)
Lemma order_domain_values_KeyError :
  order_domain_values cw_cat
    (dom_set (dom_set (init_domains cw_cat) x ["CAT"; "DOG"]%string)
             y ["TAR"%string])
    x [] = Raise KeyError.
Proof. vm_compute. reflexivity. Qed.

(** C6. [ac3] never returns [True]: when the worklist runs empty without an
    empty domain the function falls off its end, and the call returns
    [None].  On [cw_cat] the domains end as CAT for [x] and TAR for [y], and
    the result is [None]. *)
Theorem ac3_success_returns_None :
  (exists d', ac3 cw_cat (enforce_node_consistency (init_domains cw_cat)) None
              = Ok (None, d') /\
              d' x = ["CAT"%string] /\ d' y = ["TAR"%string]) /\
  forall cw fuel d arcs d',
    ac3_loop cw fuel d arcs <> Ok (Some true, d').
Proof.
  split.
  - exists (pruned_domains cw_cat). repeat split; vm_compute; reflexivity.
  - intros cw fuel. induction fuel as [|fuel IH]; intros d arcs d' H.
    + destruct arcs as [|[a b] rest]; discriminate.
    + destruct arcs as [|[a b] rest]; simpl in H; [discriminate|].
      inv_bind H. destruct x0 as [b0 d1]. simpl in H. destruct b0.
      * destruct (Nat.eqb (List.length (d1 a)) 0); [discriminate|].
        now apply IH in H.
      * now apply IH in H.
Qed.

(** C10. A second run of [ac3] changes nothing but does not report success.
    On [cw_cat] the first run has succeeded: its worklist emptied, no
    domain is empty (CAT for [x], TAR for [y]) and the store is arc
    consistent.  Run again on that store, [ac3] leaves both domains as they
    are and returns [None], where [True] is to be reported: the function
    has no [return True]. *)
Theorem ac3_rerun_returns_None :
  ac3 cw_cat (enforce_node_consistency (init_domains cw_cat)) None
  = Ok (None, pruned_domains cw_cat) /\
  pruned_domains cw_cat x = ["CAT"%string] /\
  pruned_domains cw_cat y = ["TAR"%string] /\
  arc_consistent cw_cat (pruned_domains cw_cat) /\
  ac3 cw_cat (pruned_domains cw_cat) None = Ok (None, d_rerun) /\
  d_rerun x = ["CAT"%string] /\ d_rerun y = ["TAR"%string].
Proof.
  assert (H : ac3 cw_cat (enforce_node_consistency (init_domains cw_cat)) None
              = Ok (None, pruned_domains cw_cat)) by (vm_compute; reflexivity).
  split; [exact H|].
  split; [vm_compute; reflexivity|]. split; [vm_compute; reflexivity|].
  split; [exact (ac3_success_arc_consistent cw_cat _ _ eq_refl H)|].
  repeat split; vm_compute; reflexivity.
Qed.

(** C9. [consistent] does not return [False] on every inconsistent
    assignment: on [cw_ax], for [{y: TAR, x: AX}], the word of [x] has
    length 2 instead of 3, and the check of [y] against its neighbor [x]
    reads the third letter of AX before the length of AX is looked at; the
    call raises [IndexError]. *)
Theorem consistent_raises_IndexError :
  well_formed cw_ax = true /\
  incl (values [(y, "TAR"%string); (x, "AX"%string)]) (words cw_ax) /\
  String.length "AX"%string <> length x /\
  consistent cw_ax [(y, "TAR"%string); (x, "AX"%string)] = Raise IndexError.
Proof.
  split; [reflexivity|]. split; [|split; [simpl; lia | vm_compute; reflexivity]].
  intros w [<-|[<-|[]]]; simpl; auto.
Qed.

(** * Further properties of the code *)

(** ** [select_unassigned_variable] *)

Lemma select_unassigned_variable_complete (cw : Crossword) (d : domains)
      (a : assignment) :
  unassigned cw a = [] ->
  select_unassigned_variable cw d a = Raise IndexError.
Proof.
  intros H. unfold select_unassigned_variable. rewrite H. reflexivity.
Qed.

Lemma highest_degree_max (cw : Crossword) (vc : list Var) (idxs : list nat) :
  forall n index k v0,
    nth_error vc index = Some v0 -> n = List.length (neighbors cw v0) ->
    highest_degree cw vc idxs n index = Ok k ->
    exists vk, nth_error vc k = Some vk /\
               n <= List.length (neighbors cw vk) /\
               forall i vi, In i idxs -> nth_error vc i = Some vi ->
                 List.length (neighbors cw vi) <= List.length (neighbors cw vk).
Proof.
  induction idxs as [|i r IH]; simpl; intros n index k v0 Hv0 Hn H.
  - injection H as <-. exists v0. split; [assumption|]. split; [lia|].
    intros i vi [].
  - inv_bind H. unfold list_getitem in Hx.
    destruct (nth_error vc i) as [v|] eqn:Ei; [|discriminate].
    injection Hx as <-.
    destruct (n <? List.length (neighbors cw v)) eqn:E.
    + apply Nat.ltb_lt in E.
      destruct (IH _ _ _ v Ei eq_refl H) as (vk & Hk & Hle & Hall).
      exists vk. split; [assumption|]. split; [lia|].
      intros i' vi [<-|Hin] Hvi; [|eauto].
      rewrite Ei in Hvi. injection Hvi as <-. assumption.
    + apply Nat.ltb_ge in E.
      destruct (IH _ _ _ v0 Hv0 Hn H) as (vk & Hk & Hle & Hall).
      exists vk. split; [assumption|]. split; [lia|].
      intros i' vi [<-|Hin] Hvi; [|eauto].
      rewrite Ei in Hvi. injection Hvi as <-. lia.
Qed.

Lemma select_unassigned_variable_degree (cw : Crossword) (d : domains)
      (a : assignment) (var : Var) :
  select_unassigned_variable cw d a = Ok var ->
  forall v, In v (unassigned cw a) ->
            List.length (d v) <= List.length (d var) ->
            List.length (neighbors cw v) <= List.length (neighbors cw var).
Proof.
  intros H v Hv Hle.
  assert (Hne : unassigned cw a <> []).
  { intros E. rewrite E in Hv. destruct Hv. }
  destruct (select_unassigned_variable_total cw d a Hne)
    as (var' & Hsel & Hin & Hmin).
  assert (var' = var) by congruence. subst var'.
  assert (Hsize : List.length (d v) = List.length (d var)).
  { specialize (Hmin v Hv). lia. }
  clear Hsel. unfold select_unassigned_variable in H.
  set (uv_sorted := map (fun var => (var, List.length (d var)))
                        (unassigned cw a)) in *.
  assert (Hne' : uv_sorted <> []).
  { unfold uv_sorted. destruct (unassigned cw a); [congruence|discriminate]. }
  destruct (fewest_values_min uv_sorted Hne') as (m & Hm & Hall & e & He & Hem).
  rewrite Hm in H.
  set (vc := map fst (filter (fun e => Nat.eqb (snd e) m) uv_sorted)) in *.
  assert (Hvc : forall u, In u vc <->
                  In u (unassigned cw a) /\ List.length (d u) = m).
  { intros u. unfold vc. rewrite in_map_iff. split.
    - intros ([u' n] & <- & Hu). apply filter_In in Hu.
      destruct Hu as [Hu En]. simpl in *. apply Nat.eqb_eq in En.
      apply in_map_iff in Hu. destruct Hu as (u0 & E & Hu).
      injection E as <- <-. auto.
    - intros [Hu <-]. exists (u, List.length (d u)). split; [reflexivity|].
      apply filter_In. split; [|apply Nat.eqb_refl].
      unfold uv_sorted. apply in_map_iff. eauto. }
  assert (Hvar : In var vc).
  { destruct (negb (Nat.eqb (List.length vc) 1)).
    - inv_bind H. inv_bind H. now apply list_getitem_In in H.
    - now apply list_getitem_In in H. }
  assert (Hvin : In v vc).
  { apply Hvc. split; [assumption|]. rewrite Hsize. now apply Hvc. }
  destruct (Nat.eqb (List.length vc) 1) eqn:E1; simpl in H.
  - apply Nat.eqb_eq in E1.
    destruct vc as [|u [|u' r]]; simpl in E1; try discriminate.
    destruct Hvar as [<-|[]]. destruct Hvin as [<-|[]]. lia.
  - inv_bind H. inv_bind H. unfold list_getitem in Hx, H.
    destruct (nth_error vc 0) as [v0|] eqn:E0; [|discriminate].
    injection Hx as <-.
    destruct (highest_degree_max cw vc _ _ _ _ v0 E0 eq_refl Hx0)
      as (vk & Hk & Hge & Hmax).
    rewrite Hk in H. injection H as <-.
    apply In_nth_error in Hvin. destruct Hvin as [i Hi].
    destruct i as [|i].
    + rewrite E0 in Hi. injection Hi as <-. assumption.
    + apply (Hmax (S i) v); [|assumption].
      apply in_seq. assert (S i < List.length vc); [|lia].
      apply nth_error_Some. congruence.
Qed.

(** X1. When [select_unassigned_variable] returns a variable, that variable
    is a crossword variable absent from the assignment, no unassigned
    variable has a smaller domain, and no unassigned variable with a domain
    of the same size has more neighbors. *)
Theorem select_unassigned_variable_mrv_degree (cw : Crossword) (d : domains)
        (a : assignment) (var : Var) :
  select_unassigned_variable cw d a = Ok var ->
  In var (variables cw) /\ ~ In var (keys a) /\
  forall v, In v (variables cw) -> ~ In v (keys a) ->
    List.length (d var) <= List.length (d v) /\
    (List.length (d v) = List.length (d var) ->
     List.length (neighbors cw v) <= List.length (neighbors cw var)).
Proof.
  intros H. pose proof (select_unassigned_variable_In cw d a var H) as Hin.
  assert (Hne : unassigned cw a <> []).
  { intros E. rewrite E in Hin. destruct Hin. }
  destruct (select_unassigned_variable_total cw d a Hne)
    as (var' & Hsel & _ & Hmin).
  assert (var' = var) by congruence. subst var'.
  apply unassigned_In in Hin. destruct Hin as [Hv Hk].
  split; [assumption|]. split; [assumption|].
  intros v Hvv Hvk.
  assert (Hu : In v (unassigned cw a)) by (apply unassigned_In; auto).
  split; [now apply Hmin|]. intros E.
  apply (select_unassigned_variable_degree cw d a var H v Hu). lia.
Qed.

(** X2. [select_unassigned_variable] returns a variable exactly when some
    crossword variable is missing from the assignment; called on a complete
    assignment it raises [IndexError] (the candidate list is empty). *)
Theorem select_unassigned_variable_returns (cw : Crossword) (d : domains)
        (a : assignment) :
  (assignment_complete cw a = false ->
   exists var, select_unassigned_variable cw d a = Ok var) /\
  (assignment_complete cw a = true ->
   select_unassigned_variable cw d a = Raise IndexError).
Proof.
  unfold assignment_complete. split; intros H.
  - destruct (select_unassigned_variable_total cw d a) as (var & Hv & _).
    + destruct (unassigned cw a); [discriminate | congruence].
    + eauto.
  - apply select_unassigned_variable_complete.
    destruct (unassigned cw a); [reflexivity | discriminate].
Qed.

(** ** [assignment_complete] *)

(** X3. [assignment_complete] answers [True] exactly when every crossword
    variable is a key of the assignment; keys that are not crossword
    variables and the words themselves play no part. *)
Theorem assignment_complete_iff (cw : Crossword) (a : assignment) :
  assignment_complete cw a = true <->
  forall v, In v (variables cw) -> In v (keys a).
Proof.
  unfold assignment_complete. split.
  - intros H v Hv. destruct (unassigned cw a) eqn:E; [|discriminate].
    destruct (in_dec Var_eq_dec v (keys a)) as [|Hn]; [assumption|].
    assert (Hin : In v (unassigned cw a)) by (apply unassigned_In; auto).
    rewrite E in Hin. destruct Hin.
  - intros H. destruct (unassigned cw a) as [|v r] eqn:E; [reflexivity|].
    assert (Hin : In v (unassigned cw a)) by (rewrite E; now left).
    apply unassigned_In in Hin. destruct Hin as [Hv Hn].
    exfalso. auto.
Qed.

(** ** [enforce_node_consistency] and [revise] *)

(** X4. [enforce_node_consistency] is idempotent: a second pass removes
    nothing. *)
Theorem enforce_node_consistency_idempotent (d : domains) (v : Var) :
  enforce_node_consistency (enforce_node_consistency d) v
  = enforce_node_consistency d v.
Proof.
  rewrite (enforce_node_consistency_filter (enforce_node_consistency d) v).
  rewrite (enforce_node_consistency_filter d v).
  induction (d v) as [|w r IH]; simpl; [reflexivity|].
  destruct (Nat.eqb (String.length w) (length v)) eqn:E; simpl.
  - rewrite E. now f_equal.
  - assumption.
Qed.

(** X5. When [revise(x, y)] returns, the domains of all variables other than
    [x] are as before, the new domain of [x] holds exactly the old words
    that have a partner in the domain of [y] at the overlap (all of them
    when there is no overlap), and the returned flag is [True] exactly when
    the domain of [x] lost a word. *)
Theorem revise_correct (cw : Crossword) (d d' : domains) (x y : Var)
        (b : bool) :
  revise cw d x y = Ok (b, d') ->
  (forall v, v <> x -> d' v = d v) /\
  (forall w, In w (d' x) <->
             In w (d x) /\
             forall i j, overlaps cw x y = Some (i, j) ->
                         exists w', In w' (d y) /\ agree i j w w') /\
  (b = true <-> List.length (d' x) < List.length (d x)) /\
  (b = false -> forall v, d' v = d v).
Proof.
  intros H. split; [|split; [|split]].
  - intros v Hv. apply (revise_other cw _ _ _ _ _ _ H Hv).
  - intros w. pose proof H as H0. apply revise_inv in H0.
    destruct (overlaps cw x y) as [[i j]|] eqn:Ho.
    + destruct H0 as (rem & Hrem & -> & _). rewrite dom_set_same.
      rewrite difference_update_In.
      destruct (revise_to_removed_spec _ _ _ _ _ Hrem) as [H1 H2]. split.
      * intros [Hw Hn]. split; [assumption|].
        intros i' j' [= <- <-]. now apply H2.
      * intros [Hw Hs]. split; [assumption|]. intros Hr.
        destruct (H1 w Hr) as [_ Hno].
        destruct (Hs i j eq_refl) as (w' & Hw' & Ha). now apply (Hno w').
    + destruct H0 as [_ ->]. split; [|tauto].
      intros Hw. split; [assumption | discriminate].
  - destruct b.
    + split; [intros _ | reflexivity]. apply (revise_true_shrinks cw _ _ _ _ H).
    + split; [discriminate|]. intros Hlt.
      rewrite (revise_false_same cw _ _ _ _ H x) in Hlt. lia.
  - intros ->. apply (revise_false_same cw _ _ _ _ H).
Qed.

(** X6. On a well-formed puzzle whose domains are node consistent,
    [revise] called on two different crossword variables never raises: the
    pair is a key of the overlaps mapping and every letter it reads
    exists. *)
Theorem revise_returns (cw : Crossword) (d : domains) (x y : Var) :
  well_formed cw = true -> node_consistent d ->
  In x (variables cw) -> In y (variables cw) -> x <> y ->
  exists b d', revise cw d x y = Ok (b, d') /\ node_consistent d'.
Proof.
  intros WF Hn Hx Hy Hne.
  destruct (revise_total cw d x y WF Hn Hx Hy Hne) as (b & d' & H).
  exists b, d'. split; [assumption|].
  apply node_consistent_incl with (d := d); [|assumption].
  intros v. apply (revise_incl cw _ _ _ _ v _ H).
Qed.

(** X25. [revise] raises [KeyError] when the pair it is called on is not a
    key of the overlaps mapping: a variable paired with itself, or a
    variable that is not of the puzzle. *)
Theorem revise_KeyError (cw : Crossword) (d : domains) (x y : Var) :
  ~ (In x (variables cw) /\ In y (variables cw) /\ x <> y) ->
  revise cw d x y = Raise KeyError.
Proof.
  intros H. unfold revise.
  now rewrite (overlaps_getitem_KeyError cw x y H).
Qed.

(** ** [ac3] *)

(** X7. [ac3] only removes words: whatever the worklist and the outcome,
    every word of a final domain was in the initial domain of the same
    variable, so node consistency is kept. *)
Theorem ac3_only_removes (cw : Crossword) (d d' : domains)
        (arcs : option (list arc)) (r : option bool) :
  ac3 cw d arcs = Ok (r, d') ->
  (forall v w, In w (d' v) -> In w (d v)) /\
  (node_consistent d -> node_consistent d').
Proof.
  unfold ac3. intros H.
  pose proof (ac3_loop_incl cw _ _ _ _ _ H) as Hi.
  split; [intros v w; apply Hi|].
  now apply node_consistent_incl.
Qed.

Section Ac3Solutions.
Variable cw : Crossword.
Variable a : assignment.
Hypothesis Hcomplete : is_complete cw a.
Hypothesis Hconsistent : is_consistent cw a.



End Ac3Solutions.


(** X9. When [ac3] reports [False], the domain of some variable is empty
    in the store it leaves. *)
Theorem ac3_false_empty_domain (cw : Crossword) (d d' : domains) :
  well_formed cw = true ->
  ac3 cw d None = Ok (Some false, d') ->
  exists x, In x (variables cw) /\ d' x = [].
Proof.
  intros WF H. unfold ac3 in H.
  destruct (ac3_loop_result cw WF _ _ _ _ _ (initial_arcs_ok cw WF) H)
    as [E|(_ & Hx)]; [discriminate | exact Hx].
Qed.

Lemma ac3_loop_more_fuel (cw : Crossword) (fuel : nat) :
  forall (fuel' : nat) (d : domains) (arcs : list arc),
    fuel <= fuel' -> ac3_loop cw fuel d arcs <> OutOfFuel ->
    ac3_loop cw fuel' d arcs = ac3_loop cw fuel d arcs.
Proof.
  induction fuel as [|fuel IH]; intros fuel' d arcs Hle H.
  - destruct arcs as [|[x y] rest]; simpl in *; [|congruence].
    destruct fuel'; reflexivity.
  - destruct fuel' as [|fuel']; [lia|].
    destruct arcs as [|[x y] rest]; simpl in *; [reflexivity|].
    destruct (revise cw d x y) as [[b d1]| |]; simpl in *; try reflexivity.
    destruct b.
    + destruct (Nat.eqb (List.length (d1 x)) 0); [reflexivity|].
      apply IH; [lia | assumption].
    + apply IH; [lia | assumption].
Qed.

(** X10. The [while] loop of [ac3] terminates on every store: started from
    the default worklist of [n] arcs it makes at most [n] plus (number of
    variables) times (total size of the domains) iterations, an arc being
    added only when a domain has lost a word; with any larger budget the
    outcome is the same. *)
Theorem ac3_terminates (cw : Crossword) (d : domains) (fuel : nat) :
  well_formed cw = true ->
  List.length (initial_arcs cw)
  + List.length (variables cw) * total_size cw d < fuel ->
  ac3_loop cw fuel d (initial_arcs cw) <> OutOfFuel /\
  ac3_loop cw fuel d (initial_arcs cw) = ac3 cw d None.
Proof.
  intros WF Hf. split.
  - apply ac3_loop_fuel; [assumption | now apply initial_arcs_ok | assumption].
  - unfold ac3. apply ac3_loop_more_fuel.
    + unfold ac3_budget. lia.
    + apply ac3_loop_fuel; [assumption | now apply initial_arcs_ok |].
      unfold ac3_budget. lia.
Qed.

(** ** [consistent] *)

Lemma NoDup_map_injective {A B : Type} (f : A -> B) (l : list A) (x y : A) :
  NoDup (map f l) -> In x l -> In y l -> f x = f y -> x = y.
Proof.
  induction l as [|z l IH]; simpl; [tauto|].
  intros Hnd Hx Hy E. inversion Hnd as [|? ? Hz Hl]; subst.
  destruct Hx as [->|Hx], Hy as [->|Hy]; auto.
  - exfalso. apply Hz. rewrite E. now apply in_map.
  - exfalso. apply Hz. rewrite <- E. now apply in_map.
Qed.

(** X11. [consistent] answers [False], without raising, whenever two
    different variables are given the same word: the distinctness test comes
    before any letter is read. *)
Theorem consistent_duplicate_word (cw : Crossword) (a : assignment)
        (v1 v2 : Var) (w : word) :
  In (v1, w) a -> In (v2, w) a -> v1 <> v2 ->
  consistent cw a = Ok false.
Proof.
  intros H1 H2 Hne. unfold consistent.
  destruct (forallb (fun c => Nat.eqb c 1) (unique_counts (values a)))
    eqn:E; [|reflexivity].
  apply unique_counts_NoDup in E. exfalso. apply Hne.
  assert (Heq : (v1, w) = (v2, w)).
  { apply (NoDup_map_injective snd a); auto. }
  congruence.
Qed.

(** X26. [consistent] answers [False], without raising, when the words of
    two different variables differ only by NUL characters at the end: they
    are the same element of the numpy array on which the duplicate test is
    made. *)
Theorem consistent_duplicate_up_to_NUL (cw : Crossword) (a : assignment)
        (v1 v2 : Var) (w1 w2 : word) :
  In (v1, w1) a -> In (v2, w2) a -> v1 <> v2 -> np_str w1 = np_str w2 ->
  consistent cw a = Ok false.
Proof.
  intros H1 H2 Hne Hw. unfold consistent.
  destruct (forallb (fun c => Nat.eqb c 1) (unique_counts (values a)))
    eqn:E; [|reflexivity].
  apply unique_counts_np in E. exfalso. apply Hne.
  unfold values in E. rewrite map_map in E.
  assert (Heq : (v1, w1) = (v2, w2)).
  { apply (NoDup_map_injective (fun e : Var * word => np_str (snd e)) a);
      auto. }
  congruence.
Qed.

(** X12. On a well-formed puzzle, for an assignment of crossword variables
    whose words come from node-consistent domains, [consistent] raises
    nothing; it answers [True] only when the words are pairwise distinct,
    have the lengths of their variables and agree at the overlaps of
    assigned neighbors; and when no assigned word ends in a NUL character
    it answers [True] whenever these three conditions hold.  (The
    duplicate test goes through a numpy array, in which two words that
    differ only by NUL characters at the end are the same element.) *)
Theorem consistent_on_domain_words (cw : Crossword) (d : domains)
        (a : assignment) :
  well_formed cw = true -> node_consistent d -> assignment_ok cw d a ->
  exists b, consistent cw a = Ok b /\
            (b = true -> is_consistent cw a) /\
            ((forall v w, In (v, w) a -> trailing_NUL w = false) ->
             is_consistent cw a -> b = true).
Proof.
  intros WF Hn Ha. destruct (consistent_total cw WF d a Hn Ha) as [b Hb].
  exists b. split; [assumption|]. split.
  - intros ->. apply consistent_true_sound; [apply Ha | assumption].
  - intros Hnul Hc.
    apply (consistent_true_iff cw a (proj1 Ha) Hnul) in Hc. congruence.
Qed.

(** ** [order_domain_values] *)

Lemma dict_get_set_same {K V : Type} (eqb : K -> K -> bool)
      (r : list (K * V)) (k : K) (v : V) :
  (forall a b, eqb a b = true <-> a = b) ->
  dict_get eqb (dict_set eqb r k v) k = Some v.
Proof.
  intros Heq. induction r as [|[k' v'] r IH]; simpl.
  - now rewrite (eqb_refl' eqb Heq).
  - destruct (eqb k' k) eqn:E; simpl; now rewrite E.
Qed.

Lemma dict_get_set_other {K V : Type} (eqb : K -> K -> bool)
      (r : list (K * V)) (k k0 : K) (v : V) :
  (forall a b, eqb a b = true <-> a = b) ->
  k0 <> k -> dict_get eqb (dict_set eqb r k v) k0 = dict_get eqb r k0.
Proof.
  intros Heq Hne. induction r as [|[k' v'] r IH]; simpl.
  - destruct (eqb k k0) eqn:E; [|reflexivity].
    apply Heq in E. congruence.
  - destruct (eqb k' k) eqn:E; simpl.
    + apply Heq in E. subst.
      destruct (eqb k k0) eqn:E0; [|reflexivity].
      apply Heq in E0. congruence.
    + now rewrite IH.
Qed.

Lemma dict_get_remove_other {K V : Type} (eqb : K -> K -> bool)
      (r : list (K * V)) (k k0 : K) :
  (forall a b, eqb a b = true <-> a = b) ->
  k0 <> k -> dict_get eqb (dict_remove eqb r k) k0 = dict_get eqb r k0.
Proof.
  intros Heq Hne. induction r as [|[k' v'] r IH]; simpl; [reflexivity|].
  destruct (eqb k' k) eqn:E; simpl.
  - apply Heq in E. subst.
    destruct (eqb k k0) eqn:E0; [|reflexivity].
    apply Heq in E0. congruence.
  - now rewrite IH.
Qed.

(** The table after the loop over the words of the variable, for one
    neighbor: a word that eliminates something is mapped to its count, every
    other key keeps its entry. *)
Lemma eliminated_by_get (i j : nat) (ws1 ws2 : list word) :
  (forall w1, In w1 ws1 -> i < String.length w1) ->
  (forall w2, In w2 ws2 -> j < String.length w2) ->
  forall result,
  exists result',
    eliminated_by (Some (i, j)) ws1 ws2 result = Ok result' /\
    forall w, dict_get word_eqb result' w =
              if mem_word w ws1 &&
                 negb (Nat.eqb (List.length (filter (disagree i j w) ws2)) 0)
              then Some (List.length (filter (disagree i j w) ws2))
              else dict_get word_eqb result w.
Proof.
  intros H1 H2. induction ws1 as [|w1 r IH]; intros result; simpl.
  - exists result. split; [reflexivity|]. intros w. reflexivity.
  - rewrite count_eliminated_spec; auto; [|apply H1; now left]. simpl.
    destruct (IH (fun w Hw => H1 w (or_intror Hw))
                 (if Nat.eqb (List.length (filter (disagree i j w1) ws2)) 0
                  then result
                  else dict_set word_eqb result w1
                         (List.length (filter (disagree i j w1) ws2))))
      as (result' & -> & Hg).
    exists result'. split; [reflexivity|]. intros w. rewrite Hg.
    unfold mem_word. simpl. fold (mem_word w r).
    destruct (mem_word w r &&
              negb (Nat.eqb (List.length (filter (disagree i j w) ws2)) 0))
      eqn:Er.
    + rewrite andb_true_iff in Er. destruct Er as [-> ->].
      now rewrite orb_true_r.
    + destruct (word_eqb w w1) eqn:Ew.
      * apply word_eqb_eq in Ew. subst w1. simpl.
        destruct (Nat.eqb (List.length (filter (disagree i j w) ws2)) 0)
          eqn:Ez; simpl; [reflexivity|].
        now rewrite (dict_get_set_same word_eqb _ _ _ word_eqb_eq).
      * simpl. rewrite Er.
        destruct (Nat.eqb (List.length (filter (disagree i j w1) ws2)) 0);
          [reflexivity|].
        apply (dict_get_set_other word_eqb _ _ _ _ word_eqb_eq).
        intros ->. rewrite word_eqb_refl in Ew. discriminate.
Qed.

Lemma bind_Ok_right {A : Type} (m : res A) : bind m Ok = m.
Proof. now destruct m. Qed.

Lemma eliminated_all_unassigned_nil (cw : Crossword) (d : domains) (var : Var)
      (a : assignment) (ns : list Var) (result : list (word * nat)) :
  filter (fun n => negb (dict_mem var_eqb a n)) ns = [] ->
  eliminated_all cw d var a ns result = Ok result.
Proof.
  induction ns as [|n r IH]; simpl; [reflexivity|].
  destruct (negb (dict_mem var_eqb a n)); [discriminate | exact IH].
Qed.

Lemma eliminated_all_unassigned_one (cw : Crossword) (d : domains) (var : Var)
      (a : assignment) (ns : list Var) (n : Var) (result : list (word * nat)) :
  filter (fun n => negb (dict_mem var_eqb a n)) ns = [n] ->
  eliminated_all cw d var a ns result
  = eliminated_by (overlaps cw var n) (d var) (d n) result.
Proof.
  induction ns as [|m r IH]; simpl; [discriminate|].
  destruct (negb (dict_mem var_eqb a m)); [|exact IH].
  intros [= -> Hr].
  rewrite <- (bind_Ok_right (eliminated_by _ _ _ _)) at 2.
  destruct (eliminated_by (overlaps cw var n) (d var) (d n) result);
    simpl; try reflexivity.
  now apply eliminated_all_unassigned_nil.
Qed.

Lemma ascending_const (key : word -> nat) (l : list word) (c : nat) :
  (forall w, In w l -> key w = c) -> ascending key l = true.
Proof.
  induction l as [|w r IH]; intros H; [reflexivity|].
  destruct r as [|w' r']; [reflexivity|].
  change (ascending key (w :: w' :: r'))
    with ((key w <=? key w') && ascending key (w' :: r')).
  rewrite IH by (intros; apply H; now right).
  rewrite (H w), (H w') by (simpl; auto). now rewrite Nat.leb_refl.
Qed.

Lemma insert_by_key_ascending (key : word -> nat) (x : nat * word)
      (l : list (nat * word)) :
  fst x = key (snd x) ->
  (forall e, In e l -> fst e = key (snd e)) ->
  ascending key (map snd l) = true ->
  ascending key (map snd (insert_by_key x l)) = true.
Proof.
  intros Hx. induction l as [|y r IH]; intros Hall Hs; [reflexivity|].
  assert (Hy : fst y = key (snd y)) by (apply Hall; now left).
  simpl. destruct (fst x <=? fst y) eqn:E.
  - change (((key (snd x) <=? key (snd y)) &&
             ascending key (map snd (y :: r))) = true).
    rewrite Hs, <- Hx, <- Hy, E. reflexivity.
  - apply Nat.leb_gt in E.
    assert (Hr : ascending key (map snd r) = true).
    { simpl in Hs. destruct (map snd r); [reflexivity|].
      now apply andb_true_iff in Hs. }
    specialize (IH (fun e He => Hall e (or_intror He)) Hr).
    destruct r as [|z r'].
    + simpl. rewrite andb_true_r. apply Nat.leb_le. lia.
    + simpl in Hs. apply andb_true_iff in Hs. destruct Hs as [Hyz _].
      simpl in IH |- *. destruct (fst x <=? fst z).
      * change ((key (snd y) <=? key (snd x)) &&
                ascending key (map snd (x :: z :: r')) = true).
        rewrite IH, andb_true_r. apply Nat.leb_le. lia.
      * change ((key (snd y) <=? key (snd z)) &&
                ascending key (map snd (z :: insert_by_key x r')) = true).
        now rewrite IH, Hyz.
Qed.

Lemma sort_by_key_ascending (key : word -> nat) (l : list (nat * word)) :
  (forall e, In e l -> fst e = key (snd e)) ->
  ascending key (map snd (sort_by_key l)) = true.
Proof.
  induction l as [|x r IH]; intros Hall; [reflexivity|].
  simpl. apply insert_by_key_ascending.
  - apply Hall. now left.
  - intros e He. apply Hall. right.
    eapply Permutation_in; [apply sort_by_key_perm | exact He].
  - apply IH. intros e He. apply Hall. now right.
Qed.

Lemma sort_keys_get (result : list (word * nat)) (ws : list word)
      (ks : list (nat * word)) :
  sort_keys result ws = Ok ks ->
  forall e, In e ks -> dict_get word_eqb result (snd e) = Some (fst e).
Proof.
  revert ks. induction ws as [|w r IH]; simpl; intros ks H.
  - injection H as <-. intros e [].
  - inv_bind H. inv_bind H. injection H as <-.
    unfold dict_getitem in Hx.
    destruct (dict_get word_eqb result w) eqn:E; [|discriminate].
    injection Hx as <-. intros e [<-|He]; [exact E | eauto].
Qed.

Lemma sort_keys_missing (result : list (word * nat)) (ws : list word)
      (w : word) :
  In w ws -> dict_get word_eqb result w = None ->
  sort_keys result ws = Raise KeyError.
Proof.
  induction ws as [|w0 r IH]; simpl; [tauto|].
  intros Hin Hg. unfold dict_getitem.
  destruct (dict_get word_eqb result w0) eqn:E; [|reflexivity]. simpl.
  destruct Hin as [->|Hin]; [congruence|].
  now rewrite (IH Hin Hg).
Qed.

Section OrderOneNeighbor.
Variable cw : Crossword.
Variable d : domains.
Variable var n : Var.
Variable a : assignment.
Hypothesis WF : well_formed cw = true.
Hypothesis Hnode : node_consistent d.
Hypothesis Hvar : In var (variables cw).
Hypothesis Hone :
  filter (fun n => negb (dict_mem var_eqb a n)) (neighbors cw var) = [n].

Lemma one_neighbor_overlap :
  exists i j, overlaps cw var n = Some (i, j) /\
              i < length var /\ j < length n.
Proof.
  assert (Hn : In n (neighbors cw var)).
  { assert (H : In n [n]) by now left. rewrite <- Hone in H.
    now apply filter_In in H. }
  apply neighbors_In in Hn. destruct Hn as [Hn Ho]. unfold has_overlap in Ho.
  destruct (overlaps cw var n) as [[i j]|] eqn:E; [|discriminate].
  destruct (wf_overlap cw WF var n i j Hvar Hn E) as (_ & Hi & Hj & _).
  eauto.
Qed.

Lemma one_neighbor_count (w : word) :
  elimination_count cw d var a w = eliminated_in cw d var w n.
Proof. unfold elimination_count. rewrite Hone. simpl. lia. Qed.

(** The table built for the single unassigned neighbor. *)
Lemma one_neighbor_table :
  exists result,
    eliminated_all cw d var a (neighbors cw var) [] = Ok result /\
    forall w, dict_get word_eqb result w =
              if mem_word w (d var) &&
                 negb (Nat.eqb (eliminated_in cw d var w n) 0)
              then Some (eliminated_in cw d var w n) else None.
Proof.
  destruct one_neighbor_overlap as (i & j & Ho & Hi & Hj).
  rewrite (eliminated_all_unassigned_one cw d var a _ n [] Hone).
  unfold eliminated_in. rewrite Ho.
  apply (eliminated_by_get i j (d var) (d n)).
  - intros w Hw. now rewrite (Hnode _ _ Hw).
  - intros w Hw. now rewrite (Hnode _ _ Hw).
Qed.

Lemma one_neighbor_sorted (l : list word) :
  order_domain_values cw d var a = Ok l ->
  ascending (elimination_count cw d var a) l = true.
Proof.
  unfold order_domain_values.
  destruct one_neighbor_table as (result & -> & Hg). simpl.
  destruct (Nat.eqb (List.length result) 0) eqn:E.
  - intros [= <-]. apply ascending_const with (c := 0).
    intros w Hw. rewrite one_neighbor_count.
    apply Nat.eqb_eq in E. destruct result; [|discriminate].
    specialize (Hg w). simpl in Hg.
    apply mem_word_In in Hw. rewrite Hw in Hg. simpl in Hg.
    destruct (Nat.eqb (eliminated_in cw d var w n) 0) eqn:Ez;
      [now apply Nat.eqb_eq in Ez | discriminate].
  - unfold sorted. intros H. inv_bind H. injection H as <-.
    apply sort_by_key_ascending. intros e He.
    pose proof (sort_keys_get _ _ _ Hx e He) as Hk.
    rewrite Hg in Hk. rewrite one_neighbor_count.
    destruct (mem_word (snd e) (d var) &&
              negb (Nat.eqb (eliminated_in cw d var (snd e) n) 0));
      congruence.
Qed.

Lemma one_neighbor_KeyError (w0 w1 : word) :
  In w0 (d var) -> eliminated_in cw d var w0 n = 0 ->
  In w1 (d var) -> eliminated_in cw d var w1 n <> 0 ->
  order_domain_values cw d var a = Raise KeyError.
Proof.
  intros H0 Hz H1 Hnz. unfold order_domain_values.
  destruct one_neighbor_table as (result & -> & Hg). simpl.
  assert (Hne : Nat.eqb (List.length result) 0 = false).
  { destruct result; [|reflexivity]. specialize (Hg w1). simpl in Hg.
    apply mem_word_In in H1. rewrite H1 in Hg.
    apply Nat.eqb_neq in Hnz. rewrite Hnz in Hg. discriminate. }
  rewrite Hne. unfold sorted.
  rewrite (sort_keys_missing result (d var) w0 H0); [reflexivity|].
  rewrite Hg, Hz. simpl. now rewrite andb_false_r.
Qed.

Lemma one_neighbor_returns :
  (forall w, In w (d var) -> eliminated_in cw d var w n = 0) \/
  (forall w, In w (d var) -> eliminated_in cw d var w n <> 0) ->
  exists l, order_domain_values cw d var a = Ok l.
Proof.
  intros H. unfold order_domain_values.
  destruct one_neighbor_table as (result & -> & Hg). simpl.
  destruct (Nat.eqb (List.length result) 0) eqn:El; [eauto|].
  unfold sorted. destruct H as [Hz|Hnz].
  - assert (result = []).
    { apply keys_nil. intros k Hk.
      apply (dict_get_None word_eqb word_eqb_eq result k); [|exact Hk].
      rewrite Hg. destruct (mem_word k (d var)) eqn:Em; [|reflexivity].
      apply mem_word_In in Em. now rewrite (Hz k Em). }
    subst result. discriminate.
  - destruct (sort_keys_total result (d var)) as [ks ->]; [|simpl; eauto].
    intros w Hw.
    destruct (dict_get word_eqb result w) eqn:E.
    + apply dict_get_In in E; [|apply word_eqb_eq].
      apply (in_map fst) in E. exact E.
    + rewrite Hg in E. apply mem_word_In in Hw. rewrite Hw in E.
      specialize (Hnz w (proj1 (mem_word_In _ _) Hw)).
      apply Nat.eqb_neq in Hnz. rewrite Hnz in E. discriminate.
Qed.
End OrderOneNeighbor.

(** X13. Whenever [order_domain_values] returns, the list is a
    rearrangement of the stored domain of the variable (no word lost, added
    or repeated), and when every neighbor is assigned it is the stored
    domain itself. *)
Theorem order_domain_values_rearranges (cw : Crossword) (d : domains)
        (var : Var) (a : assignment) (l : list word) :
  order_domain_values cw d var a = Ok l ->
  Permutation l (d var) /\
  ((forall n, In n (neighbors cw var) -> In n (keys a)) -> l = d var).
Proof.
  intros H. split; [now apply order_domain_values_perm in H|].
  intros Hall.
  rewrite (order_domain_values_all_assigned cw d var a) in H.
  - now injection H.
  - intros n Hn. apply (dict_mem_In var_eqb var_eqb_eq). auto.
Qed.

(** X14. On a well-formed puzzle with node-consistent domains, when at most
    one neighbor of the variable is unassigned, the list returned by
    [order_domain_values] is in ascending order of the elimination count
    (the number of words of the unassigned neighbors' domains that disagree
    at the overlap). *)
Theorem order_domain_values_sorted_one_neighbor (cw : Crossword)
        (d : domains) (var : Var) (a : assignment) (l : list word) :
  well_formed cw = true -> node_consistent d -> In var (variables cw) ->
  List.length (filter (fun n => negb (dict_mem var_eqb a n))
                      (neighbors cw var)) <= 1 ->
  order_domain_values cw d var a = Ok l ->
  ascending (elimination_count cw d var a) l = true.
Proof.
  intros WF Hn Hvar Hle H.
  destruct (filter (fun n => negb (dict_mem var_eqb a n)) (neighbors cw var))
    as [|n [|m r]] eqn:E; simpl in Hle; [| |lia].
  - apply ascending_const with (c := 0). intros w _.
    unfold elimination_count. now rewrite E.
  - apply (one_neighbor_sorted cw d var n a WF Hn Hvar E l H).
Qed.

(** X15. On a well-formed puzzle with node-consistent domains, when exactly
    one neighbor of the variable is unassigned, [order_domain_values] raises
    [KeyError] exactly when some word of the domain eliminates nothing
    while another eliminates something. *)
Theorem order_domain_values_KeyError_iff (cw : Crossword) (d : domains)
        (var n : Var) (a : assignment) :
  well_formed cw = true -> node_consistent d -> In var (variables cw) ->
  filter (fun n => negb (dict_mem var_eqb a n)) (neighbors cw var) = [n] ->
  order_domain_values cw d var a = Raise KeyError <->
  (exists w0, In w0 (d var) /\ elimination_count cw d var a w0 = 0) /\
  (exists w1, In w1 (d var) /\ elimination_count cw d var a w1 <> 0).
Proof.
  intros WF Hn Hvar Hone. split.
  - intros H.
    destruct (existsb (fun w => Nat.eqb (eliminated_in cw d var w n) 0)
                      (d var)) eqn:Ez.
    + apply existsb_exists in Ez. destruct Ez as (w0 & Hw0 & Hz).
      apply Nat.eqb_eq in Hz.
      destruct (forallb (fun w => Nat.eqb (eliminated_in cw d var w n) 0)
                        (d var)) eqn:Ea.
      * rewrite forallb_forall in Ea.
        destruct (one_neighbor_returns cw d var n a WF Hn Hvar Hone)
          as [l Hl]; [|congruence].
        left. intros w Hw. now apply Nat.eqb_eq, Ea.
      * split.
        -- exists w0. split; [assumption|].
           now rewrite (one_neighbor_count cw d var n a Hone).
        -- assert (Hex : existsb (fun w => negb (Nat.eqb
                            (eliminated_in cw d var w n) 0)) (d var) = true).
           { clear -Ea. induction (d var) as [|w r IH]; simpl in *;
               [discriminate|].
             destruct (Nat.eqb (eliminated_in cw d var w n) 0); simpl in *;
               auto. }
           apply existsb_exists in Hex. destruct Hex as (w1 & Hw1 & Hnz).
           exists w1. split; [assumption|].
           rewrite (one_neighbor_count cw d var n a Hone).
           now apply Nat.eqb_neq, negb_true_iff.
    + destruct (one_neighbor_returns cw d var n a WF Hn Hvar Hone)
        as [l Hl]; [|congruence].
      right. intros w Hw Hz.
      assert (existsb (fun w => Nat.eqb (eliminated_in cw d var w n) 0)
                      (d var) = true); [|congruence].
      apply existsb_exists. exists w. split; [assumption|].
      now apply Nat.eqb_eq.
  - intros [(w0 & Hw0 & Hz) (w1 & Hw1 & Hnz)].
    rewrite (one_neighbor_count cw d var n a Hone) in Hz, Hnz.
    apply (one_neighbor_KeyError cw d var n a WF Hn Hvar Hone w0 w1); auto.
Qed.

(** ** [backtrack] *)

Section BacktrackKeeps.
Variable cw : Crossword.
Variable d : domains.

Lemma try_values_keeps
      (recurse : assignment -> res (option assignment * assignment))
      (var : Var) (a0 : assignment) :
  (forall a1 out, recurse a1 = Ok out -> kept a1 (snd out)) ->
  dict_get var_eqb a0 var = None ->
  forall vs a out,
    kept a0 a -> try_values cw recurse var vs a = Ok out -> kept a0 (snd out).
Proof.
  intros Hrec Hnew. induction vs as [|v rest IH]; simpl; intros a out Ha H.
  - now injection H as <-.
  - assert (Ha1 : kept a0 (dict_set var_eqb a var v)).
    { intros k w Hk. rewrite (dict_get_set_other var_eqb _ _ _ _ var_eqb_eq).
      - now apply Ha.
      - intros ->. congruence. }
    apply bind_Ok in H. destruct H as (ok & Hok & H).
    destruct ok; [|now apply (IH _ _ Ha1 H)].
    apply bind_Ok in H. destruct H as ([result a2] & Hrc & H). simpl in H.
    pose proof (Hrec _ _ Hrc) as H2. simpl in H2.
    destruct result as [s|].
    + injection H as <-. simpl. intros k w Hk. now apply H2, Ha1.
    + apply bind_Ok in H. destruct H as (a3 & Hpop & H).
      unfold dict_pop in Hpop.
      destruct (dict_mem var_eqb a2 var); [|discriminate].
      injection Hpop as <-. refine (IH _ _ _ H).
      intros k w Hk.
      rewrite (dict_get_remove_other var_eqb _ _ _ var_eqb_eq).
      * now apply H2, Ha1.
      * intros ->. congruence.
Qed.

Lemma backtrack_rec_keeps (fuel : nat) :
  forall a out, backtrack_rec cw d fuel a = Ok out -> kept a (snd out).
Proof.
  induction fuel as [|fuel IH]; simpl; intros a out H; [discriminate|].
  destruct (assignment_complete cw a).
  - injection H as <-. intros k w Hk. exact Hk.
  - apply bind_Ok in H. destruct H as (var & Hsel & H).
    apply bind_Ok in H. destruct H as (vs & Hvs & H).
    apply select_unassigned_variable_In, unassigned_In in Hsel.
    destruct Hsel as [_ Hnew].
    apply (dict_get_None var_eqb var_eqb_eq) in Hnew.
    refine (try_values_keeps _ var a IH Hnew vs a out _ H).
    intros k w Hk. exact Hk.
Qed.
End BacktrackKeeps.

(** X16. [backtrack] never removes or changes a binding it was given:
    whether it returns an assignment or [None], every binding of the
    dictionary at the call is still in the dictionary afterwards (what a
    failed call may leave behind are extra bindings). *)
Theorem backtrack_keeps_bindings (cw : Crossword) (d : domains)
        (a a' : assignment) (r : option assignment) :
  dict_ok cw a ->
  backtrack cw d a = Ok (r, a') ->
  forall v w, In (v, w) a -> In (v, w) a'.
Proof.
  intros [Hnd _] H v w Hin. unfold backtrack in H.
  apply (dict_get_In var_eqb var_eqb_eq).
  apply (backtrack_rec_keeps cw d _ _ _ H v w).
  now apply (In_dict_get var_eqb var_eqb_eq).
Qed.

(** X17. An assignment returned by [backtrack] for a consistent partial
    assignment is complete, consistent and extends the given one. *)
Theorem backtrack_returns_extension (cw : Crossword) (d : domains)
        (a a' s : assignment) :
  dict_ok cw a -> consistent cw a = Ok true ->
  backtrack cw d a = Ok (Some s, a') ->
  s = a' /\ is_complete cw s /\ is_consistent cw s /\
  forall v w, In (v, w) a -> In (v, w) s.
Proof.
  intros Ha Hc H. pose proof H as H0. unfold backtrack in H0.
  destruct (backtrack_rec_sound cw d _ _ _ Ha H0) as [Hok Hs].
  destruct (Hs s eq_refl) as (-> & Hcomp & Hcons). simpl in Hok, Hcomp, Hcons.
  simpl snd.
  split; [reflexivity|]. split; [now apply complete_is_complete|]. split.
  - apply consistent_true_sound; [apply Hok|].
    destruct Hcons as [->|]; assumption.
  - intros v w Hin.
    apply (dict_get_In var_eqb var_eqb_eq).
    unfold backtrack in H.
    apply (backtrack_rec_keeps cw d _ _ _ H v w).
    now apply (In_dict_get var_eqb var_eqb_eq); [apply Ha|].
Qed.

(** ** [solve] *)

Lemma solve_after_empty_domain (cw : Crossword) (r : option bool)
      (d2 : domains) (v : Var) :
  ac3 cw (enforce_node_consistency (init_domains cw)) None = Ok (r, d2) ->
  In v (variables cw) -> d2 v = [] -> solve cw = Ok None.
Proof.
  intros Hac Hv He. unfold solve. rewrite Hac. simpl.
  now rewrite (backtrack_empty_domain cw d2 v Hv He).
Qed.

(** X18. On a well-formed puzzle, if some variable has no word of its
    length in the word set, [solve] returns [None]. *)
Theorem solve_none_without_word (cw : Crossword) (v : Var) :
  well_formed cw = true -> In v (variables cw) ->
  (forall w, In w (words cw) -> String.length w <> length v) ->
  solve cw = Ok None.
Proof.
  intros WF Hv Hno.
  set (d1 := enforce_node_consistency (init_domains cw)).
  assert (Hn1 : node_consistent d1)
    by apply enforce_node_consistency_node_consistent.
  assert (He : d1 v = []).
  { destruct (d1 v) as [|w r] eqn:E; [reflexivity|]. exfalso.
    assert (Hin : In w (d1 v)) by (rewrite E; now left).
    unfold d1 in Hin. rewrite enforce_node_consistency_filter in Hin.
    apply filter_In in Hin. destruct Hin as [Hin Hl].
    apply Nat.eqb_eq in Hl. now apply (Hno w). }
  destruct (ac3_loop_total cw WF (ac3_budget cw d1 (initial_arcs cw)) d1
              (initial_arcs cw) Hn1 (initial_arcs_ok cw WF))
    as (r0 & d2 & Hac); [unfold ac3_budget; lia|].
  apply (solve_after_empty_domain cw r0 d2 v); [exact Hac | exact Hv |].
  pose proof (ac3_loop_incl cw _ _ _ _ _ Hac v) as Hi. rewrite He in Hi.
  destruct (d2 v) as [|w r]; [reflexivity|].
  destruct (Hi w (or_introl eq_refl)).
Qed.

(** X19. [solve] ignores the value returned by [ac3], yet on a well-formed
    puzzle a [False] from [ac3] always ends in [None]: the search starts
    with a variable whose domain is empty. *)
Theorem solve_none_after_ac3_false (cw : Crossword) (d2 : domains) :
  well_formed cw = true ->
  ac3 cw (enforce_node_consistency (init_domains cw)) None
  = Ok (Some false, d2) ->
  solve cw = Ok None.
Proof.
  intros WF Hac. pose proof Hac as H. unfold ac3 in H.
  destruct (ac3_loop_result cw WF _ _ _ _ _ (initial_arcs_ok cw WF) H)
    as [E|(_ & v & Hv & He)]; [discriminate|].
  apply (solve_after_empty_domain cw _ d2 v Hac Hv He).
Qed.

(** X20. On a well-formed puzzle, every word of an assignment returned by
    [solve] is a word of the puzzle's word set. *)
Theorem solve_uses_word_set (cw : Crossword) (a : assignment) :
  well_formed cw = true ->
  solve cw = Ok (Some a) ->
  forall v w, In (v, w) a -> In w (words cw).
Proof.
  intros WF H v w Hin. unfold solve in H.
  set (d1 := enforce_node_consistency (init_domains cw)) in *.
  assert (Hn1 : node_consistent d1)
    by apply enforce_node_consistency_node_consistent.
  apply bind_Ok in H. destruct H as ([r0 d2] & Hac & H). simpl in H.
  apply bind_Ok in H. destruct H as ([result a'] & Hb & H). simpl in H.
  injection H as ->.
  assert (Hn2 : node_consistent d2).
  { apply node_consistent_incl with (d := d1); [|assumption].
    apply (ac3_loop_incl cw _ _ _ _ _ Hac). }
  pose proof Hac as Hac'. unfold ac3 in Hac'.
  destruct (ac3_loop_result cw WF _ _ _ _ _ (initial_arcs_ok cw WF) Hac')
    as [->|(-> & u & Hu & He)].
  - pose proof (ac3_loop_sound cw WF _ _ _ _ (initial_arcs_ok cw WF)
                  (initial_arcs_inv cw WF d1) Hac') as Harc.
    destruct (backtrack_rec_total cw d2 WF Hn2 Harc
                (S (List.length (variables cw))) [])
      as (out & Hout & Hok & _).
    { apply assignment_ok_nil. }
    { pose proof (unassigned_length cw []). lia. }
    unfold backtrack in Hb. rewrite Hb in Hout. injection Hout as <-.
    simpl in Hok.
    destruct (backtrack_rec_sound cw d2 _ _ _ (dict_ok_nil cw) Hb) as [_ Hs].
    destruct (Hs a eq_refl) as (Ea & _). simpl in Ea. subst a'.
    destruct Hok as [_ Hdom]. destruct (Hdom v w Hin) as [_ Hw].
    apply (ac3_loop_incl cw _ _ _ _ _ Hac' v) in Hw.
    unfold d1 in Hw. rewrite enforce_node_consistency_filter in Hw.
    apply filter_In in Hw. apply Hw.
  - rewrite (backtrack_empty_domain cw d2 u Hu He) in Hb. discriminate.
Qed.

(** ** [letter_grid] *)

Lemma cell_eqb_eq (c c' : nat * nat) : cell_eqb c c' = true <-> c = c'.
Proof.
  unfold cell_eqb. destruct c as [i j], c' as [i' j']. simpl.
  rewrite andb_true_iff, !Nat.eqb_eq. split; [intros [-> ->] | intros [= -> ->]];
    auto.
Qed.

Lemma list_setitem_lt {A : Type} (l : list A) (k : nat) (x : A) :
  k < List.length l -> exists l', list_setitem l k x = Ok l'.
Proof.
  revert k. induction l as [|y r IH]; simpl; intros k H; [lia|].
  destruct k as [|k]; [eauto|].
  destruct (IH k) as [r' ->]; [lia|]. simpl. eauto.
Qed.

Lemma list_setitem_ge {A : Type} (l : list A) (k : nat) (x : A) :
  List.length l <= k -> list_setitem l k x = Raise IndexError.
Proof.
  revert k. induction l as [|y r IH]; simpl; intros k H; [reflexivity|].
  destruct k as [|k]; [lia|]. rewrite IH by lia. reflexivity.
Qed.

Lemma list_setitem_Ok {A : Type} (l l' : list A) (k : nat) (x : A) :
  list_setitem l k x = Ok l' ->
  List.length l' = List.length l /\
  nth_error l' k = Some x /\
  (forall k', k' <> k -> nth_error l' k' = nth_error l k') /\
  (forall y, In y l' -> y = x \/ In y l).
Proof.
  revert l' k. induction l as [|y r IH]; simpl; intros l' k H; [discriminate|].
  destruct k as [|k].
  - injection H as <-. simpl. repeat split; auto.
    + intros [|k'] Hk; [congruence | reflexivity].
    + intros z [<-|Hz]; auto.
  - apply bind_Ok in H. destruct H as (r' & Hr & H). injection H as <-.
    destruct (IH _ _ Hr) as (Hl & Hn & Ho & Hi). simpl.
    repeat split; auto.
    + intros [|k'] Hk; [reflexivity|]. simpl. apply Ho. congruence.
    + intros z [<-|Hz]; auto. destruct (Hi z Hz); auto.
Qed.

Lemma grid_setitem_in (h w : nat) (g : grid) (i j : nat) (ch : ascii) :
  grid_shape h w g -> i < h -> j < w ->
  exists g', grid_setitem g i j ch = Ok g'.
Proof.
  intros [Hl Hr] Hi Hj. unfold grid_setitem, list_getitem.
  destruct (nth_error g i) as [row|] eqn:E.
  - simpl. destruct (list_setitem_lt row j (Some ch)) as [row' ->].
    + rewrite (Hr row); [assumption|]. eapply nth_error_In; eassumption.
    + simpl. apply list_setitem_lt. lia.
  - apply nth_error_None in E. lia.
Qed.

Lemma grid_setitem_out (h w : nat) (g : grid) (i j : nat) (ch : ascii) :
  grid_shape h w g -> ~ (i < h /\ j < w) ->
  grid_setitem g i j ch = Raise IndexError.
Proof.
  intros [Hl Hr] Hout. unfold grid_setitem, list_getitem.
  destruct (nth_error g i) as [row|] eqn:E; [|reflexivity]. simpl.
  assert (Hi : i < h).
  { rewrite <- Hl. apply nth_error_Some. congruence. }
  rewrite list_setitem_ge; [reflexivity|].
  rewrite (Hr row); [lia|]. eapply nth_error_In; eassumption.
Qed.

Lemma grid_setitem_Ok (h w : nat) (g g' : grid) (i j : nat) (ch : ascii) :
  grid_shape h w g -> grid_setitem g i j ch = Ok g' ->
  grid_shape h w g' /\
  forall c, grid_get g' c =
            if cell_eqb (i, j) c then Some (Some ch) else grid_get g c.
Proof.
  intros [Hl Hr] H. unfold grid_setitem, list_getitem in H.
  destruct (nth_error g i) as [row|] eqn:E; [|discriminate]. simpl in H.
  apply bind_Ok in H. destruct H as (row' & Hrow & H).
  destruct (list_setitem_Ok _ _ _ _ Hrow) as (Hlr & Hnr & Hor & _).
  destruct (list_setitem_Ok _ _ _ _ H) as (Hlg & Hng & Hog & Hig).
  split.
  - split; [congruence|]. intros r Hin. destruct (Hig r Hin) as [->|Hin'].
    + rewrite Hlr. apply Hr. eapply nth_error_In; eassumption.
    + now apply Hr.
  - intros [i' j']. unfold grid_get, cell_eqb. simpl.
    destruct (Nat.eqb i i') eqn:Ei; simpl.
    + apply Nat.eqb_eq in Ei. subst i'. rewrite Hng.
      destruct (Nat.eqb j j') eqn:Ej.
      * apply Nat.eqb_eq in Ej. now subst j'.
      * apply Nat.eqb_neq in Ej. rewrite E. apply Hor. congruence.
    + apply Nat.eqb_neq in Ei. rewrite Hog by congruence. reflexivity.
Qed.

Lemma apply_writes_app (l1 l2 : list ((nat * nat) * ascii)) (g : grid) :
  apply_writes (l1 ++ l2) g = (g' <- apply_writes l1 g ;; apply_writes l2 g').
Proof.
  revert g. induction l1 as [|[c ch] r IH]; intros g; simpl; [reflexivity|].
  destruct (grid_setitem g (fst c) (snd c) ch); simpl; auto.
Qed.

Lemma place_word_writes (v : Var) (wd : word) (ks : list nat) (g : grid) :
  (forall k, In k ks -> k < String.length wd) ->
  place_word v wd ks g = apply_writes (word_writes v wd ks) g.
Proof.
  revert g. induction ks as [|k r IH]; intros g Hk; simpl; [reflexivity|].
  destruct (get_lt wd k (Hk k (or_introl eq_refl))) as [ch Hch].
  rewrite Hch. pose proof Hch as Hg. apply getitem_Ok in Hg. rewrite Hg.
  simpl. destruct (grid_setitem g _ _ ch); simpl; try reflexivity.
  apply IH. intros; apply Hk. now right.
Qed.

Lemma place_words_writes (a : assignment) (g : grid) :
  place_words a g = apply_writes (writes a) g.
Proof.
  revert g. induction a as [|[v wd] r IH]; intros g; simpl; [reflexivity|].
  unfold writes. simpl. rewrite apply_writes_app.
  rewrite place_word_writes by (intros k Hk; apply in_seq in Hk; lia).
  destruct (apply_writes _ g); simpl; try reflexivity. apply IH.
Qed.

Lemma get_Some_lt (wd : word) (k : nat) (ch : ascii) :
  String.get k wd = Some ch -> k < String.length wd.
Proof.
  revert k. induction wd as [|c wd IH]; simpl; intros k H; [discriminate|].
  destruct k as [|k]; [lia|]. apply IH in H. lia.
Qed.

Lemma writes_letter_at (a : assignment) (c : nat * nat) (ch : ascii) :
  In (c, ch) (writes a) <-> letter_at a c ch.
Proof.
  unfold writes, letter_at, word_writes. rewrite in_flat_map. split.
  - intros ([v wd] & Hin & H). simpl in H. apply in_flat_map in H.
    destruct H as (k & Hk & H).
    destruct (String.get k wd) as [ch'|] eqn:E; [|destruct H].
    destruct H as [[= <- <-]|[]]. exists v, wd, k. auto.
  - intros (v & wd & k & Hin & Hg & <-). exists (v, wd). split; [assumption|].
    simpl. apply in_flat_map. exists k. split.
    + apply in_seq. apply get_Some_lt in Hg. lia.
    + rewrite Hg. now left.
Qed.

Lemma last_write_Some (ws : list ((nat * nat) * ascii)) (c : nat * nat)
      (ch : ascii) :
  last_write ws c = Some ch -> In (c, ch) ws.
Proof.
  induction ws as [|[c' ch'] r IH]; simpl; [discriminate|].
  destruct (last_write r c) as [x|].
  - intros [= ->]. right. now apply IH.
  - destruct (cell_eqb c' c) eqn:E; [|discriminate].
    apply cell_eqb_eq in E. subst c'. intros [= ->]. now left.
Qed.

Lemma last_write_None (ws : list ((nat * nat) * ascii)) (c : nat * nat) :
  last_write ws c = None <-> forall ch, ~ In (c, ch) ws.
Proof.
  induction ws as [|[c' ch'] r IH]; simpl; [tauto|].
  destruct (last_write r c) as [x|] eqn:El.
  - split; [discriminate|]. intros H. exfalso.
    apply (H x). right. now apply last_write_Some.
  - destruct (cell_eqb c' c) eqn:E.
    + apply cell_eqb_eq in E. subst c'. split; [discriminate|].
      intros H. exfalso. apply (H ch'). now left.
    + split; [|reflexivity]. intros _ ch [[= -> _]|Hin].
      * assert (cell_eqb c c = true) by now apply cell_eqb_eq. congruence.
      * destruct IH as [IH _]. now apply (IH eq_refl ch).
Qed.

Lemma apply_writes_Ok (h w : nat) (ws : list ((nat * nat) * ascii)) :
  forall g g', grid_shape h w g -> apply_writes ws g = Ok g' ->
    grid_shape h w g' /\
    forall c, grid_get g' c = match last_write ws c with
                              | Some ch => Some (Some ch)
                              | None => grid_get g c
                              end.
Proof.
  induction ws as [|[c0 ch] r IH]; simpl; intros g g' Hs H.
  - injection H as <-. auto.
  - apply bind_Ok in H. destruct H as (g1 & H1 & H).
    destruct (grid_setitem_Ok h w _ _ _ _ _ Hs H1) as [Hs1 Hg1].
    destruct (IH _ _ Hs1 H) as [Hs' Hg']. split; [assumption|].
    intros c. rewrite Hg'. destruct (last_write r c); [reflexivity|].
    rewrite Hg1. destruct c0 as [i j]. simpl.
    now destruct (cell_eqb (i, j) c).
Qed.

Lemma in_grid_dec (h w : nat) (c : nat * nat) :
  {in_grid h w c} + {~ in_grid h w c}.
Proof.
  unfold in_grid. destruct (lt_dec (fst c) h), (lt_dec (snd c) w); tauto.
Qed.

Lemma apply_writes_in (h w : nat) (ws : list ((nat * nat) * ascii)) :
  forall g, grid_shape h w g ->
    (forall c ch, In (c, ch) ws -> in_grid h w c) ->
    exists g', apply_writes ws g = Ok g'.
Proof.
  induction ws as [|[c0 ch] r IH]; simpl; intros g Hs Hin; [eauto|].
  destruct (Hin c0 ch (or_introl eq_refl)) as [Hi Hj].
  destruct (grid_setitem_in h w g _ _ ch Hs Hi Hj) as [g1 H1].
  rewrite H1. simpl.
  destruct (grid_setitem_Ok h w _ _ _ _ _ Hs H1) as [Hs1 _].
  apply IH; [assumption|]. intros c ch' Hc. apply (Hin c ch'). now right.
Qed.

Lemma apply_writes_out (h w : nat) (ws : list ((nat * nat) * ascii))
      (c : nat * nat) (ch : ascii) :
  forall g, grid_shape h w g -> In (c, ch) ws -> ~ in_grid h w c ->
            apply_writes ws g = Raise IndexError.
Proof.
  induction ws as [|[c0 ch0] r IH]; simpl; intros g Hs Hin Hout; [destruct Hin|].
  destruct (in_grid_dec h w c0) as [[Hi Hj]|Hc0].
  - destruct (grid_setitem_in h w g _ _ ch0 Hs Hi Hj) as [g1 H1].
    rewrite H1. simpl.
    destruct (grid_setitem_Ok h w _ _ _ _ _ Hs H1) as [Hs1 _].
    destruct Hin as [[= -> ->]|Hin]; [|now apply IH].
    exfalso. apply Hout. split; assumption.
  - rewrite (grid_setitem_out h w g _ _ ch0 Hs Hc0). reflexivity.
Qed.

Lemma empty_grid_shape (h w : nat) :
  grid_shape h w (repeat (repeat None w) h).
Proof.
  split; [apply repeat_length|]. intros row Hin.
  apply repeat_spec in Hin. subst. apply repeat_length.
Qed.

Lemma empty_grid_get (h w : nat) (c : nat * nat) :
  in_grid h w c -> grid_get (repeat (repeat None w) h) c = Some None.
Proof.
  intros [Hi Hj]. unfold grid_get.
  rewrite (nth_error_repeat _ Hi). apply (nth_error_repeat _ Hj).
Qed.

(** X21. [letter_grid] returns a grid, of [height] rows of [width] cells,
    when every letter of every assigned word falls on a cell of the grid;
    if some letter falls outside, it raises [IndexError]. *)
Theorem letter_grid_returns (height width : nat) (a : assignment) :
  ((forall v wd k, In (v, wd) a -> k < String.length wd ->
                   in_grid height width (cell_of v k)) ->
   exists g, letter_grid height width a = Ok g /\
             grid_shape height width g) /\
  (forall v wd k, In (v, wd) a -> k < String.length wd ->
                  ~ in_grid height width (cell_of v k) ->
                  letter_grid height width a = Raise IndexError).
Proof.
  unfold letter_grid. rewrite place_words_writes. split.
  - intros Hin.
    destruct (apply_writes_in height width (writes a) _
                (empty_grid_shape height width)) as [g Hg].
    + intros c ch Hc. apply writes_letter_at in Hc.
      destruct Hc as (v & wd & k & Hv & Hk & <-).
      apply (Hin v wd k Hv). now apply get_Some_lt in Hk.
    + exists g. split; [assumption|].
      apply (apply_writes_Ok height width _ _ _
               (empty_grid_shape height width) Hg).
  - intros v wd k Hv Hk Hout.
    destruct (get_lt wd k Hk) as [ch Hch].
    apply (apply_writes_out height width (writes a) (cell_of v k) ch);
      [apply empty_grid_shape | | assumption].
    apply writes_letter_at. exists v, wd, k. auto.
Qed.

(** X22. In the grid returned by [letter_grid], a cell covered by no
    assigned word holds [None], and a covered cell holds a letter that an
    assigned word puts there. *)
Theorem letter_grid_cells (height width : nat) (a : assignment) (g : grid)
        (c : nat * nat) :
  letter_grid height width a = Ok g -> in_grid height width c ->
  ((forall ch, ~ letter_at a c ch) -> grid_get g c = Some None) /\
  ((exists ch, letter_at a c ch) ->
   exists ch, grid_get g c = Some (Some ch) /\ letter_at a c ch).
Proof.
  unfold letter_grid. rewrite place_words_writes. intros H Hc.
  destruct (apply_writes_Ok height width _ _ _
              (empty_grid_shape height width) H) as [_ Hg].
  rewrite Hg. split.
  - intros Hno.
    assert (E : last_write (writes a) c = None).
    { apply last_write_None. intros ch Hin. apply (Hno ch).
      now apply writes_letter_at. }
    rewrite E. now apply empty_grid_get.
  - intros [ch Hch]. destruct (last_write (writes a) c) as [x|] eqn:E.
    + exists x. split; [reflexivity|].
      now apply writes_letter_at, last_write_Some.
    + exfalso. apply writes_letter_at in Hch.
      destruct (proj1 (last_write_None _ _) E ch Hch).
Qed.

(** X23. If the assigned words agree wherever they put a letter on the same
    cell, every letter of every assigned word can be read in the grid
    returned by [letter_grid], at its cell. *)
Theorem letter_grid_shows_words (height width : nat) (a : assignment)
        (g : grid) :
  letter_grid height width a = Ok g ->
  (forall c ch ch', letter_at a c ch -> letter_at a c ch' -> ch = ch') ->
  forall v wd k ch,
    In (v, wd) a -> String.get k wd = Some ch ->
    grid_get g (cell_of v k) = Some (Some ch).
Proof.
  unfold letter_grid. rewrite place_words_writes.
  intros H Hagree v wd k ch Hv Hk.
  destruct (apply_writes_Ok height width _ _ _
              (empty_grid_shape height width) H) as [_ Hg].
  assert (Hl : letter_at a (cell_of v k) ch) by (exists v, wd, k; auto).
  rewrite Hg. destruct (last_write (writes a) (cell_of v k)) as [x|] eqn:E.
  - apply last_write_Some, writes_letter_at in E.
    now rewrite (Hagree _ _ _ Hl E).
  - exfalso. apply writes_letter_at in Hl.
    destruct (proj1 (last_write_None _ _) E ch Hl).
Qed.

(** ** The further properties on the example puzzles *)

Import Cases.

Lemma d_cat_node_consistent : node_consistent d_cat.
Proof. apply enforce_node_consistency_node_consistent. Qed.

Lemma d_mixed_node_consistent : node_consistent d_mixed.
Proof.
  intros v w. unfold d_mixed, dom_set.
  destruct (var_eqb v y) eqn:Ey.
  - apply var_eqb_eq in Ey. subst v. intros [<-|[]]. reflexivity.
  - destruct (var_eqb v x) eqn:Ex.
    + apply var_eqb_eq in Ex. subst v. intros [<-|[<-|[]]]; reflexivity.
    + apply d_cat_node_consistent.
Qed.

Lemma a_cat_dict_ok : dict_ok cw_cat a_cat.
Proof.
  split.
  - apply nodupb_NoDup with (eqb := var_eqb); [apply var_eqb_eq|reflexivity].
  - intros v Hv. exact Hv.
Qed.



Lemma a_cat_assignment_ok : assignment_ok cw_cat d_cat a_cat.
Proof.
  split; [apply a_cat_dict_ok|].
  intros v w [[= <- <-]|[[= <- <-]|[]]]; vm_compute; auto.
Qed.

Lemma select_unassigned_variable_mrv_degree_witness :
  select_unassigned_variable cw_cat d_cat [] = Ok x /\
  In x (variables cw_cat) /\ ~ In x (keys ([] : assignment)) /\
  forall v, In v (variables cw_cat) -> ~ In v (keys ([] : assignment)) ->
    List.length (d_cat x) <= List.length (d_cat v) /\
    (List.length (d_cat v) = List.length (d_cat x) ->
     List.length (neighbors cw_cat v) <= List.length (neighbors cw_cat x)).
Proof.
  split; [vm_compute; reflexivity|].
  apply (select_unassigned_variable_mrv_degree cw_cat d_cat [] x).
  vm_compute. reflexivity.
Defined.

Lemma revise_correct_witness :
  revise cw_cat d_cat x y = Ok (true, d_revised) /\
  (forall v, v <> x -> d_revised v = d_cat v) /\
  (forall w, In w (d_revised x) <->
             In w (d_cat x) /\
             forall i j, overlaps cw_cat x y = Some (i, j) ->
                         exists w', In w' (d_cat y) /\ agree i j w w') /\
  (true = true <-> List.length (d_revised x) < List.length (d_cat x)) /\
  (true = false -> forall v, d_revised v = d_cat v).
Proof.
  split; [vm_compute; reflexivity|].
  apply (revise_correct cw_cat d_cat d_revised x y true).
  vm_compute. reflexivity.
Defined.

Lemma revise_returns_witness :
  well_formed cw_cat = true /\ x <> y /\
  exists b d', revise cw_cat d_cat x y = Ok (b, d') /\ node_consistent d'.
Proof.
  split; [reflexivity|]. split; [discriminate|].
  apply (revise_returns cw_cat d_cat x y).
  - reflexivity.
  - exact d_cat_node_consistent.
  - simpl. auto.
  - simpl. auto.
  - discriminate.
Defined.

Lemma revise_KeyError_witness :
  revise cw_cat d_cat x x = Raise KeyError.
Proof.
  apply (revise_KeyError cw_cat d_cat x x).
  intros (_ & _ & Hne). now apply Hne.
Defined.

Lemma ac3_only_removes_witness :
  ac3 cw_cat d_cat None = Ok (None, pruned_domains cw_cat) /\
  (forall v w, In w (pruned_domains cw_cat v) -> In w (d_cat v)) /\
  (node_consistent d_cat -> node_consistent (pruned_domains cw_cat)).
Proof.
  split; [vm_compute; reflexivity|].
  apply (ac3_only_removes cw_cat d_cat (pruned_domains cw_cat) None None).
  vm_compute. reflexivity.
Defined.


Lemma ac3_false_empty_domain_witness :
  ac3 cw_none (enforce_node_consistency (init_domains cw_none)) None
  = Ok (Some false, pruned_domains cw_none) /\
  exists v, In v (variables cw_none) /\ pruned_domains cw_none v = [].
Proof.
  split; [vm_compute; reflexivity|].
  apply (ac3_false_empty_domain cw_none
           (enforce_node_consistency (init_domains cw_none))).
  - reflexivity.
  - vm_compute. reflexivity.
Defined.

Lemma ac3_terminates_witness :
  ac3_loop cw_cat 100 d_cat (initial_arcs cw_cat) <> OutOfFuel /\
  ac3_loop cw_cat 100 d_cat (initial_arcs cw_cat) = ac3 cw_cat d_cat None.
Proof.
  apply (ac3_terminates cw_cat d_cat 100).
  - reflexivity.
  - vm_compute. lia.
Defined.

Lemma consistent_duplicate_word_witness :
  consistent cw_cat [(x, "CAT"%string); (y, "CAT"%string)] = Ok false.
Proof.
  apply (consistent_duplicate_word cw_cat _ x y "CAT"%string).
  - simpl. auto.
  - simpl. auto.
  - discriminate.
Defined.

Lemma consistent_duplicate_up_to_NUL_witness :
  consistent cw_cat
    [(x, "CAT"%string); (y, String "C" (String "A" (String "T"
                               (String Ascii.zero EmptyString))))]
  = Ok false.
Proof.
  apply (consistent_duplicate_up_to_NUL cw_cat _ x y "CAT"%string
           (String "C" (String "A" (String "T"
              (String Ascii.zero EmptyString))))).
  - simpl. auto.
  - simpl. auto.
  - discriminate.
  - reflexivity.
Defined.

Lemma consistent_on_domain_words_witness :
  (forall v w, In (v, w) a_cat -> trailing_NUL w = false) /\
  exists b, consistent cw_cat a_cat = Ok b /\
            (b = true -> is_consistent cw_cat a_cat) /\
            ((forall v w, In (v, w) a_cat -> trailing_NUL w = false) ->
             is_consistent cw_cat a_cat -> b = true).
Proof.
  split; [intros v w [[= <- <-]|[[= <- <-]|[]]]; reflexivity|].
  apply (consistent_on_domain_words cw_cat d_cat a_cat).
  - reflexivity.
  - exact d_cat_node_consistent.
  - exact a_cat_assignment_ok.
Defined.

Lemma order_domain_values_rearranges_witness :
  Permutation ["CAT"; "TAR"; "DOG"]%string (d_cat x) /\
  ((forall n, In n (neighbors cw_cat x) -> In n (keys ([] : assignment))) ->
   ["CAT"; "TAR"; "DOG"]%string = d_cat x).
Proof.
  apply (order_domain_values_rearranges cw_cat d_cat x []).
  vm_compute. reflexivity.
Defined.

Lemma order_domain_values_sorted_one_neighbor_witness :
  order_domain_values cw_cat d_cat x [] = Ok ["CAT"; "TAR"; "DOG"]%string /\
  map (elimination_count cw_cat d_cat x []) ["CAT"; "TAR"; "DOG"]%string
  = [2; 3; 3] /\
  ascending (elimination_count cw_cat d_cat x [])
            ["CAT"; "TAR"; "DOG"]%string = true.
Proof.
  split; [vm_compute; reflexivity|]. split; [vm_compute; reflexivity|].
  apply (order_domain_values_sorted_one_neighbor cw_cat d_cat x []).
  - reflexivity.
  - exact d_cat_node_consistent.
  - simpl. auto.
  - vm_compute. lia.
  - vm_compute. reflexivity.
Defined.

Lemma order_domain_values_KeyError_iff_witness :
  order_domain_values cw_cat d_mixed x [] = Raise KeyError <->
  (exists w0, In w0 (d_mixed x) /\
              elimination_count cw_cat d_mixed x [] w0 = 0) /\
  (exists w1, In w1 (d_mixed x) /\
              elimination_count cw_cat d_mixed x [] w1 <> 0).
Proof.
  apply (order_domain_values_KeyError_iff cw_cat d_mixed x y []).
  - reflexivity.
  - exact d_mixed_node_consistent.
  - simpl. auto.
  - vm_compute. reflexivity.
Defined.

Lemma backtrack_keeps_bindings_witness :
  backtrack cw_stale (pruned_domains cw_stale) [(x, "AAB"%string)]
  = Ok (None, [(x, "AAB"%string); (u, "AAB"%string)]) /\
  In (x, "AAB"%string) [(x, "AAB"%string); (u, "AAB"%string)].
Proof.
  split; [vm_compute; reflexivity|].
  apply (backtrack_keeps_bindings cw_stale (pruned_domains cw_stale)
           [(x, "AAB"%string)] _ None).
  - split.
    + apply nodupb_NoDup with (eqb := var_eqb);
        [apply var_eqb_eq | reflexivity].
    + intros v [<-|[]]. simpl. auto.
  - vm_compute. reflexivity.
  - simpl. auto.
Defined.

Lemma backtrack_returns_extension_witness :
  consistent cw_cat [(x, "CAT"%string)] = Ok true /\
  backtrack cw_cat (pruned_domains cw_cat) [(x, "CAT"%string)]
  = Ok (Some a_cat, a_cat) /\
  a_cat = a_cat /\ is_complete cw_cat a_cat /\ is_consistent cw_cat a_cat /\
  forall v w, In (v, w) [(x, "CAT"%string)] -> In (v, w) a_cat.
Proof.
  split; [vm_compute; reflexivity|]. split; [vm_compute; reflexivity|].
  apply (backtrack_returns_extension cw_cat (pruned_domains cw_cat)
           [(x, "CAT"%string)] a_cat a_cat).
  - split.
    + apply nodupb_NoDup with (eqb := var_eqb);
        [apply var_eqb_eq | reflexivity].
    + intros v [<-|[]]. simpl. auto.
  - vm_compute. reflexivity.
  - vm_compute. reflexivity.
Defined.

Lemma solve_none_without_word_witness :
  well_formed cw_short = true /\ solve cw_short = Ok None.
Proof.
  split; [reflexivity|].
  apply (solve_none_without_word cw_short x).
  - reflexivity.
  - simpl. auto.
  - intros w [<-|[<-|[]]]; simpl; lia.
Defined.

Lemma solve_none_after_ac3_false_witness :
  ac3 cw_none (enforce_node_consistency (init_domains cw_none)) None
  = Ok (Some false, pruned_domains cw_none) /\
  solve cw_none = Ok None.
Proof.
  split; [vm_compute; reflexivity|].
  apply (solve_none_after_ac3_false cw_none (pruned_domains cw_none)).
  - reflexivity.
  - vm_compute. reflexivity.
Defined.

Lemma solve_uses_word_set_witness :
  solve cw_cat = Ok (Some a_cat) /\ In "TAR"%string (words cw_cat).
Proof.
  split; [vm_compute; reflexivity|].
  apply (solve_uses_word_set cw_cat a_cat) with (v := y).
  - reflexivity.
  - vm_compute. reflexivity.
  - simpl. auto.
Defined.

Lemma letter_grid_cells_witness :
  letter_grid 3 3 a_cat
  = Ok [[Some "C"; Some "A"; Some "T"]; [None; None; Some "A"];
        [None; None; Some "R"]]%char /\
  ((forall ch, ~ letter_at a_cat (1, 1) ch) ->
   grid_get [[Some "C"; Some "A"; Some "T"]; [None; None; Some "A"];
             [None; None; Some "R"]]%char (1, 1) = Some None) /\
  ((exists ch, letter_at a_cat (1, 1) ch) ->
   exists ch,
     grid_get [[Some "C"; Some "A"; Some "T"]; [None; None; Some "A"];
               [None; None; Some "R"]]%char (1, 1) = Some (Some ch) /\
     letter_at a_cat (1, 1) ch).
Proof.
  split; [vm_compute; reflexivity|].
  apply (letter_grid_cells 3 3 a_cat).
  - vm_compute. reflexivity.
  - split; simpl; lia.
Defined.

Lemma a_cat_letters_agree (c : nat * nat) (ch ch' : ascii) :
  letter_at a_cat c ch -> letter_at a_cat c ch' -> ch = ch'.
Proof.
  intros H1 H2. apply writes_letter_at in H1, H2.
  vm_compute in H1, H2.
  repeat match goal with
         | H : _ \/ _ |- _ => destruct H
         | H : False |- _ => destruct H
         end; congruence.
Qed.

Lemma letter_grid_shows_words_witness :
  letter_grid 3 3 a_cat
  = Ok [[Some "C"; Some "A"; Some "T"]; [None; None; Some "A"];
        [None; None; Some "R"]]%char /\
  grid_get [[Some "C"; Some "A"; Some "T"]; [None; None; Some "A"];
            [None; None; Some "R"]]%char (cell_of y 1)
  = Some (Some "A"%char).
Proof.
  split; [vm_compute; reflexivity|].
  apply (letter_grid_shows_words 3 3 a_cat _) with (wd := "TAR"%string).
  - vm_compute. reflexivity.
  - exact a_cat_letters_agree.
  - simpl. auto.
  - reflexivity.
Defined.
